(** * AutoNestCut: rectangle geometry, board free-space model and nester

    A shallow embedding of [geometry.h], [geometry.cpp], [nesting.h],
    [nesting.cpp] and, further down, [main.cpp].  The C++ [double]
    coordinates are read as exact rational
    numbers ([Q]): the data model of the program is "real-valued" lengths,
    and every comparison and arithmetic operation of the source is kept as it
    is written, on [Q].  [int] fields are [Z].  A [Part*] held by a board is
    an index into the caller's vector of parts. *)

From Stdlib Require Import QArith Qabs Lqa ZArith String Permutation Sorted.
From stdpp Require Import base list.
From Stdlib Require Import Ascii.
From stdpp Require Import gmap strings.
From Stdlib Require Import Floats.

Local Open Scope Q_scope.

(** ** Comparisons of the source, as booleans *)

Definition Qlt_bool (a b : Q) : bool := negb (Qle_bool b a).

Notation "a <=? b" := (Qle_bool a b) (at level 70) : Q_scope.
Notation "a <? b" := (Qlt_bool a b) (at level 70) : Q_scope.

(** [std::max(a, b)] is [(a < b) ? b : a]; [std::min(a, b)] is
    [(b < a) ? b : a]. *)
Definition dmax (a b : Q) : Q := if a <? b then b else a.
Definition dmin (a b : Q) : Q := if b <? a then b else a.

(** ** geometry.h: struct Rect *)

Module Rect.
Record t : Type := mk { x : Q; y : Q; width : Q; height : Q }.

Definition right (r : t) : Q := x r + width r.
Definition bottom (r : t) : Q := y r + height r.
Definition area (r : t) : Q := width r * height r.
Definition is_valid (r : t) : bool := (0 <? width r) && (0 <? height r).
End Rect.

(** ** geometry.cpp *)

Definition intersects (r1 r2 : Rect.t) : bool :=
  negb ((Rect.right r1 <=? Rect.x r2) ||
        (Rect.right r2 <=? Rect.x r1) ||
        (Rect.bottom r1 <=? Rect.y r2) ||
        (Rect.bottom r2 <=? Rect.y r1)).

Definition subtract_rect (original to_subtract : Rect.t) : list Rect.t :=
  let ix1 := dmax (Rect.x original) (Rect.x to_subtract) in
  let iy1 := dmax (Rect.y original) (Rect.y to_subtract) in
  let ix2 := dmin (Rect.right original) (Rect.right to_subtract) in
  let iy2 := dmin (Rect.bottom original) (Rect.bottom to_subtract) in
  if (ix2 <=? ix1) || (iy2 <=? iy1) then [original]
  else
    let result := [] in
    let result :=
      if Rect.x original <? ix1
      then result ++ [Rect.mk (Rect.x original) (Rect.y original)
                              (ix1 - Rect.x original) (Rect.height original)]
      else result in
    let result :=
      if ix2 <? Rect.right original
      then result ++ [Rect.mk ix2 (Rect.y original)
                              (Rect.right original - ix2) (Rect.height original)]
      else result in
    let result :=
      if Rect.y original <? iy1
      then result ++ [Rect.mk ix1 (Rect.y original)
                              (ix2 - ix1) (iy1 - Rect.y original)]
      else result in
    let result :=
      if iy2 <? Rect.bottom original
      then result ++ [Rect.mk ix1 iy2
                              (ix2 - ix1) (Rect.bottom original - iy2)]
      else result in
    result.

(** ** std::sort

    [std::sort] is used through its contract only: the result is a
    permutation of the input, and it is ordered by the comparator when the
    comparator is a strict weak ordering.  The order among equivalent
    elements is left open, as it is in C++. *)

Record strict_weak_order {A : Type} (lt : A → A → bool) : Prop := {
  swo_irrefl : ∀ a, lt a a = false;
  swo_trans : ∀ a b c, lt a b = true → lt b c = true → lt a c = true;
  swo_incomp_trans : ∀ a b c,
    lt a b = false → lt b a = false → lt b c = false → lt c b = false →
    lt a c = false ∧ lt c a = false
}.

Class StdSort : Type := {
  std_sort : ∀ {A : Type}, (A → A → bool) → list A → list A;
  std_sort_perm : ∀ {A : Type} (lt : A → A → bool) (l : list A),
    Permutation (std_sort lt l) l;
  std_sort_sorted : ∀ {A : Type} (lt : A → A → bool) (l : list A),
    strict_weak_order lt →
    StronglySorted (λ a b, lt b a = false) (std_sort lt l)
}.

(** One implementation of the contract: insertion sort, which keeps
    equivalent elements in their order. *)
Fixpoint insert_sorted {A : Type} (lt : A → A → bool) (a : A) (l : list A) : list A :=
  match l with
  | [] => [a]
  | b :: l' => if lt b a then b :: insert_sorted lt a l' else a :: b :: l'
  end.

Definition insertion_sort {A : Type} (lt : A → A → bool) (l : list A) : list A :=
  foldr (insert_sorted lt) [] l.

(** ** nesting.h: struct Part *)

Module Part.
Record t : Type := mk {
  id : string;
  material : string;
  width : Q;
  height : Q;
  grain_direction : string;
  allowed_rotations : list Z;
  x : Q;
  y : Q;
  rotation : Z;
  board_id : Z
}.

Definition area (p : t) : Q := width p * height p.

Definition get_rotated_dimensions (p : t) (rot : Z) : Q * Q :=
  if (rot =? 90)%Z || (rot =? 270)%Z
  then (height p, width p)
  else (width p, height p).

(** Assignments to single members. *)
Definition set_width (p : t) (v : Q) : t :=
  mk (id p) (material p) v (height p) (grain_direction p)
     (allowed_rotations p) (x p) (y p) (rotation p) (board_id p).
Definition set_height (p : t) (v : Q) : t :=
  mk (id p) (material p) (width p) v (grain_direction p)
     (allowed_rotations p) (x p) (y p) (rotation p) (board_id p).
Definition set_x (p : t) (v : Q) : t :=
  mk (id p) (material p) (width p) (height p) (grain_direction p)
     (allowed_rotations p) v (y p) (rotation p) (board_id p).
Definition set_y (p : t) (v : Q) : t :=
  mk (id p) (material p) (width p) (height p) (grain_direction p)
     (allowed_rotations p) (x p) v (rotation p) (board_id p).
Definition set_rotation (p : t) (v : Z) : t :=
  mk (id p) (material p) (width p) (height p) (grain_direction p)
     (allowed_rotations p) (x p) (y p) v (board_id p).
Definition set_board_id (p : t) (v : Z) : t :=
  mk (id p) (material p) (width p) (height p) (grain_direction p)
     (allowed_rotations p) (x p) (y p) (rotation p) v.
End Part.

(** ** nesting.h, nesting.cpp: struct Board

    [placed_parts] holds [Part*]: indices into the caller's vector. *)

Module Board.
Record t : Type := mk {
  id : Z;
  material : string;
  width : Q;
  height : Q;
  free_rectangles : list Rect.t;
  placed_parts : list nat
}.

(** The constructor: one free rectangle, the whole board. *)
Definition new (id_ : Z) (mat : string) (w h : Q) : t :=
  mk id_ mat w h [Rect.mk 0 0 w h] [].

(** The scan of [find_best_position] over the free rectangles. *)
Fixpoint first_fit (board_width board_height effective_width effective_height : Q)
    (rects : list Rect.t) : option (Q * Q) :=
  match rects with
  | [] => None
  | rect :: rest =>
      if (effective_width <=? Rect.width rect) &&
         (effective_height <=? Rect.height rect)
      then
        if (Rect.x rect + effective_width <=? board_width) &&
           (Rect.y rect + effective_height <=? board_height)
        then Some (Rect.x rect, Rect.y rect)
        else first_fit board_width board_height effective_width effective_height rest
      else first_fit board_width board_height effective_width effective_height rest
  end.

Definition find_best_position (b : t) (part_width part_height kerf : Q)
    : option (Q * Q) :=
  if bool_decide (placed_parts b = []) &&
     (Qabs (part_width - width b) <? 1 # 10) &&
     (Qabs (part_height - height b) <? 1 # 10)
  then Some (0, 0)
  else
    let effective_width := part_width + kerf in
    let effective_height := part_height + kerf in
    first_fit (width b) (height b) effective_width effective_height
              (free_rectangles b).

(** The loop of [add_part] that rebuilds the free rectangles. *)
Fixpoint update_free (placed_rect : Rect.t) (free_rects updated : list Rect.t)
    : list Rect.t :=
  match free_rects with
  | [] => updated
  | free_rect :: rest =>
      let updated :=
        if intersects free_rect placed_rect
        then updated ++ List.filter Rect.is_valid
                               (subtract_rect free_rect placed_rect)
        else updated ++ [free_rect] in
      update_free placed_rect rest updated
  end.

(** The comparator of the sort in [add_part]. *)
Definition rect_less (a b : Rect.t) : bool :=
  if Qabs (Rect.y a - Rect.y b) <? 1 # 100
  then Rect.x a <? Rect.x b
  else Rect.y a <? Rect.y b.

(** [add_part(part, x, y, kerf)]: [ptr] is the pointer, [part] the object
    it points to; the updated object is returned with the board. *)
Definition add_part `{StdSort} (b : t) (ptr : nat) (part : Part.t) (x y kerf : Q)
    : Part.t * t :=
  let part := Part.set_x part x in
  let part := Part.set_y part y in
  let part := Part.set_board_id part (id b) in
  let placed := placed_parts b ++ [ptr] in
  let '(w, h) := Part.get_rotated_dimensions part (Part.rotation part) in
  let placed_rect := Rect.mk x y (w + kerf) (h + kerf) in
  let updated_free_rects := update_free placed_rect (free_rectangles b) [] in
  let free := std_sort rect_less updated_free_rects in
  (part, mk (id b) (material b) (width b) (height b) free placed).

(** [used_area] and [waste_percentage] read the parts through the
    pointers, in the caller's vector [parts]. *)
Definition used_area (parts : list Part.t) (b : t) : Q :=
  fold_left (λ total ptr,
               match parts !! ptr with
               | Some part => total + Part.area part
               | None => total
               end)
            (placed_parts b) 0.

Definition waste_percentage (parts : list Part.t) (b : t) : Q :=
  let total := width b * height b in
  if Qeq_bool total 0 then 0
  else ((total - used_area parts b) / total) * 100.
End Board.

(** ** nesting.h: struct Settings *)

Record Settings : Type := mkSettings {
  kerf_width : Q;
  allow_rotation : bool;
  timeout_ms : Z
}.

(** ** What [nest_parts] writes to [std::cout] and [std::cerr]

    Each message is kept as the values streamed into it, in their order. *)

Inductive Message : Type :=
| MsgStarting (total_parts : nat) (material : string)
| MsgProgress (placed_count total_parts : nat) (board_count : Z)
| MsgUnplaceable (id : string) (width height board_width board_height : Q)
                 (material : string)
| MsgComplete (placed_count total_parts boards : nat).

(** ** nesting.cpp: class Nester *)

Module Nester.
Record t : Type := mk { settings_ : Settings }.

(** The rotation loop of [try_place_part].  It returns the result, the
    part as the call leaves it and the board. *)
Fixpoint try_rotations `{StdSort} (self : t) (ptr : nat)
    (original_width original_height : Q) (original_rotation : Z)
    (rotations : list Z) (part : Part.t) (board : Board.t)
    : bool * Part.t * Board.t :=
  match rotations with
  | [] =>
      let part := Part.set_width part original_width in
      let part := Part.set_height part original_height in
      let part := Part.set_rotation part original_rotation in
      (false, part, board)
  | rotation :: rest =>
      let part := Part.set_rotation part rotation in
      let '(w, h) := Part.get_rotated_dimensions part rotation in
      match Board.find_best_position board w h (kerf_width (settings_ self)) with
      | Some (x, y) =>
          let '(part, board) :=
            Board.add_part board ptr part x y (kerf_width (settings_ self)) in
          (true, part, board)
      | None =>
          try_rotations self ptr original_width original_height
                        original_rotation rest part board
      end
  end.

Definition try_place_part `{StdSort} (self : t) (ptr : nat) (part : Part.t)
    (board : Board.t) : bool * Part.t * Board.t :=
  let original_width := Part.width part in
  let original_height := Part.height part in
  let original_rotation := Part.rotation part in
  try_rotations self ptr original_width original_height original_rotation
                (Part.allowed_rotations part) part board.

(** The comparator of the sort in [nest_parts]. *)
Definition area_greater (a b : Part.t) : bool := Part.area b <? Part.area a.

(** The variables of [nest_parts] that one pass over the queue changes.
    [current_board] is [boards.back()]; it is kept apart from [boards]
    here and joins them when the pass ends with a part on it. *)
Record pass_state : Type := mkPass {
  ps_parts : list Part.t;
  ps_current_board : Board.t;
  ps_parts_for_next_board : list nat;
  ps_placed_count : nat;
  ps_cout : list Message
}.

(** The body of [for (Part* part : remaining_parts)]: [part] is the
    object behind [ptr]. *)
Definition place_step `{StdSort} (self : t) (board_count : Z) (total_parts : nat)
    (ptr : nat) (part : Part.t) (st : pass_state) : pass_state :=
  let '(placed, part, board) :=
    try_place_part self ptr part (ps_current_board st) in
  let parts := <[ptr := part]> (ps_parts st) in
  if placed
  then
    let placed_count := S (ps_placed_count st) in
    let cout :=
      if (placed_count mod 10 =? 0)%nat || (placed_count =? total_parts)%nat
      then ps_cout st ++ [MsgProgress placed_count total_parts board_count]
      else ps_cout st in
    mkPass parts board (ps_parts_for_next_board st) placed_count cout
  else
    mkPass parts board (ps_parts_for_next_board st ++ [ptr])
           (ps_placed_count st) (ps_cout st).

(** [for (Part* part : remaining_parts)].  A pointer outside the vector
    is passed over; the queue never holds one. *)
Fixpoint place_pass `{StdSort} (self : t) (board_count : Z) (total_parts : nat)
    (remaining_parts : list nat) (st : pass_state) : pass_state :=
  match remaining_parts with
  | [] => st
  | ptr :: rest =>
      match ps_parts st !! ptr with
      | None => place_pass self board_count total_parts rest st
      | Some part =>
          place_pass self board_count total_parts rest
                     (place_step self board_count total_parts ptr part st)
      end
  end.

(** The variables of [nest_parts] across the [while] loop. *)
Record state : Type := mkState {
  parts : list Part.t;
  boards : list Board.t;
  remaining_parts : list nat;
  board_count : Z;
  placed_count : nat;
  cout : list Message;
  cerr : list Message
}.

(** One turn of the [while] loop up to the end of its [for] loop: a board
    is opened under the next number and the queue is passed over it. *)
Definition board_pass `{StdSort} (self : t) (material : string)
    (board_width board_height : Q) (total_parts : nat) (st : state)
    : pass_state :=
  let board_count := (board_count st + 1)%Z in
  let current_board :=
    Board.new board_count material board_width board_height in
  place_pass self board_count total_parts (remaining_parts st)
             (mkPass (parts st) current_board [] (placed_count st) (cout st)).

(** [while (!remaining_parts.empty())], with [fuel] bounding the number
    of passes; [None] only when the fuel runs out. *)
Fixpoint nest_loop `{StdSort} (self : t) (material : string)
    (board_width board_height : Q) (total_parts : nat)
    (fuel : nat) (st : state) : option state :=
  match remaining_parts st with
  | [] => Some st
  | problem_ptr :: _ =>
      match fuel with
      | O => None
      | S fuel =>
          let board_count := (board_count st + 1)%Z in
          let ps :=
            board_pass self material board_width board_height total_parts st in
          if bool_decide (Board.placed_parts (ps_current_board ps) = [])
          then
            (* remaining_parts is not empty here *)
            let cerr :=
              match ps_parts ps !! problem_ptr with
              | Some problem_part =>
                  cerr st ++ [MsgUnplaceable (Part.id problem_part)
                                             (Part.width problem_part)
                                             (Part.height problem_part)
                                             board_width board_height material]
              | None => cerr st
              end in
            (* boards.pop_back(); break *)
            Some (mkState (ps_parts ps) (boards st) (remaining_parts st)
                          board_count (ps_placed_count ps) (ps_cout ps) cerr)
          else
            nest_loop self material board_width board_height total_parts fuel
                      (mkState (ps_parts ps) (boards st ++ [ps_current_board ps])
                               (ps_parts_for_next_board ps) board_count
                               (ps_placed_count ps) (ps_cout ps) (cerr st))
      end
  end.

(** What a call of [nest_parts] leaves behind: the boards it returns, the
    caller's vector of parts, which it sorts and writes the placements
    into, and the two output streams. *)
Record result : Type := mkResult {
  res_boards : list Board.t;
  res_parts : list Part.t;
  res_cout : list Message;
  res_cerr : list Message
}.

Definition nest_parts `{StdSort} (self : t) (parts : list Part.t)
    (material : string) (board_width board_height : Q) : option result :=
  let parts := std_sort area_greater parts in
  let remaining_parts := seq 0 (length parts) in
  let total_parts := length parts in
  let cout := [MsgStarting total_parts material] in
  match nest_loop self material board_width board_height total_parts
                  (length remaining_parts)
                  (mkState parts [] remaining_parts 0 0 cout []) with
  | None => None
  | Some st =>
      let cout :=
        Nester.cout st ++
        [MsgComplete (placed_count st) total_parts (length (boards st))] in
      Some (mkResult (boards st) (Nester.parts st) cout (cerr st))
  end.
End Nester.

(** Insertion sort meets the contract of [std::sort]. *)
#[export] Instance insertion_StdSort : StdSort.
Proof.
  refine {| std_sort := @insertion_sort |}.
  - intros A lt l.
    assert (Hins : ∀ a k, Permutation (insert_sorted lt a k) (a :: k)).
    { intros a k. induction k as [|b k IH]; simpl; [reflexivity|].
      destruct (lt b a); [|reflexivity].
      rewrite IH. apply perm_swap. }
    induction l as [|a l IH]; simpl; [reflexivity|].
    rewrite Hins. now apply perm_skip.
  - intros A lt l [Hirr Htr Hinc].
    assert (Hperm : ∀ a k, Permutation (insert_sorted lt a k) (a :: k)).
    { intros a k. induction k as [|b k IH]; simpl; [reflexivity|].
      destruct (lt b a); [|reflexivity].
      rewrite IH. apply perm_swap. }
    assert (Hasym : ∀ a b, lt a b = true → lt b a = false).
    { intros a b Hab. destruct (lt b a) eqn:Hba; [|reflexivity].
      rewrite <- (Hirr a). symmetry. now apply Htr with b. }
    assert (Hins : ∀ a k, StronglySorted (λ a b, lt b a = false) k →
                          StronglySorted (λ a b, lt b a = false) (insert_sorted lt a k)).
    { intros a k Hk. induction Hk as [|b k Hk IH Hb]; simpl.
      - repeat constructor.
      - destruct (lt b a) eqn:Hba.
        + constructor; [assumption|].
          rewrite Hperm. constructor; [now apply Hasym | assumption].
        + constructor; [constructor; assumption|].
          constructor; [assumption|].
          rewrite List.Forall_forall in Hb |- *. intros c Hc.
          specialize (Hb c Hc). simpl in Hb.
          destruct (lt c a) eqn:Hca; [|reflexivity].
          destruct (lt a b) eqn:Hab.
          { rewrite <- Hb. symmetry. now apply Htr with a. }
          destruct (lt b c) eqn:Hbc.
          { rewrite <- Hba. symmetry. now apply Htr with c. }
          destruct (Hinc a b c Hab Hba Hbc Hb) as [_ Hca'].
          now rewrite <- Hca'. }
    induction l as [|a l IH]; simpl; [constructor|].
    apply Hins, IH.
Defined.

(** ** Notions used to state the properties of the geometry *)

(** The intersection box of two rectangles, by its corners, as
    [subtract_rect] computes it. *)
Module Box.
Record t : Type := mk { x1 : Q; y1 : Q; x2 : Q; y2 : Q }.
Definition area (b : t) : Q := (x2 b - x1 b) * (y2 b - y1 b).
End Box.

Definition intersection (r1 r2 : Rect.t) : Box.t :=
  Box.mk (dmax (Rect.x r1) (Rect.x r2))
         (dmax (Rect.y r1) (Rect.y r2))
         (dmin (Rect.right r1) (Rect.right r2))
         (dmin (Rect.bottom r1) (Rect.bottom r2)).

(** The four residual pieces around the intersection, in the words of the
    specification: left and right of it over the full height of the
    original, below and above it over the x-range of the intersection. *)
Definition left_piece (original cut : Rect.t) : Rect.t :=
  let i := intersection original cut in
  Rect.mk (Rect.x original) (Rect.y original)
          (Box.x1 i - Rect.x original) (Rect.height original).

Definition right_piece (original cut : Rect.t) : Rect.t :=
  let i := intersection original cut in
  Rect.mk (Box.x2 i) (Rect.y original)
          (Rect.right original - Box.x2 i) (Rect.height original).

Definition bottom_piece (original cut : Rect.t) : Rect.t :=
  let i := intersection original cut in
  Rect.mk (Box.x1 i) (Rect.y original)
          (Box.x2 i - Box.x1 i) (Box.y1 i - Rect.y original).

Definition top_piece (original cut : Rect.t) : Rect.t :=
  let i := intersection original cut in
  Rect.mk (Box.x1 i) (Box.y2 i)
          (Box.x2 i - Box.x1 i) (Rect.bottom original - Box.y2 i).

Definition positive_area (r : Rect.t) : bool := 0 <? Rect.area r.

(** [subtract_rect] in the words of the specification. *)
Definition subtract_rect_spec (original cut : Rect.t) : list Rect.t :=
  if intersects original cut
  then List.filter positive_area
         [left_piece original cut; right_piece original cut;
          bottom_piece original cut; top_piece original cut]
  else [original].

Definition pairwise_disjoint (l : list Rect.t) : Prop :=
  ForallOrdPairs (λ a b, intersects a b = false) l.

(** [inner] lies within [outer]. *)
Definition inside (outer inner : Rect.t) : Prop :=
  Rect.x outer <= Rect.x inner ∧ Rect.right inner <= Rect.right outer ∧
  Rect.y outer <= Rect.y inner ∧ Rect.bottom inner <= Rect.bottom outer.


(** ** Notions used to state the properties of the board and the nester *)

(** The full-sheet case of [find_best_position]: nothing is placed yet and
    the dimensions are the board's, within a tenth of a unit. *)
Definition full_sheet (b : Board.t) (w h : Q) : Prop :=
  Board.placed_parts b = [] ∧
  Qabs (w - Board.width b) < 1 # 10 ∧ Qabs (h - Board.height b) < 1 # 10.

(** A free rectangle takes a part of the effective size [ew] by [eh]: the
    size fits in it, and placed at its corner the part stays on the board. *)
Definition qualifies (b : Board.t) (ew eh : Q) (rect : Rect.t) : Prop :=
  ew <= Rect.width rect ∧ eh <= Rect.height rect ∧
  Rect.x rect + ew <= Board.width b ∧ Rect.y rect + eh <= Board.height b.

(** The position [try_place_part] gets for a part under a rotation. *)
Definition position_for (self : Nester.t) (board : Board.t) (part : Part.t)
    (rotation : Z) : option (Q * Q) :=
  let '(w, h) := Part.get_rotated_dimensions part rotation in
  Board.find_best_position board w h (kerf_width (Nester.settings_ self)).

(** The fields of a part that are not placement results. *)
Definition frame (p : Part.t) : string * string * Q * Q * string * list Z :=
  (Part.id p, Part.material p, Part.width p, Part.height p,
   Part.grain_direction p, Part.allowed_rotations p).

(** The kerf-expanded rectangle of a placed part: at its recorded position,
    with its rotated width and height, each grown by the kerf. *)
Definition kerf_rect (kerf : Q) (p : Part.t) : Rect.t :=
  Rect.mk (Part.x p) (Part.y p)
          ((Part.get_rotated_dimensions p (Part.rotation p)).1 + kerf)
          ((Part.get_rotated_dimensions p (Part.rotation p)).2 + kerf).

(** The bounds of a board. *)
Definition board_rect (b : Board.t) : Rect.t :=
  Rect.mk 0 0 (Board.width b) (Board.height b).








(** ** Further notions: what fits an empty board, and the bookkeeping of
    [nest_parts] *)

(** Dimensions [w] by [h] fit a board of [bw] by [bh] without parts: by
    the full-sheet rule, or with the kerf added. *)
Definition fits_empty (kerf bw bh w h : Q) : Prop :=
  (Qabs (w - bw) < 1 # 10 ∧ Qabs (h - bh) < 1 # 10) ∨
  (w + kerf <= bw ∧ h + kerf <= bh).

(** A part fits a board without parts under one of its allowed rotations. *)
Definition part_fits (kerf bw bh : Q) (p : Part.t) : Prop :=
  ∃ rot, rot ∈ Part.allowed_rotations p ∧
         fits_empty kerf bw bh (Part.get_rotated_dimensions p rot).1
                    (Part.get_rotated_dimensions p rot).2.

(** The pointers of all parts placed on a list of boards. *)
Definition placed_all (boards : list Board.t) : list nat :=
  concat (Board.placed_parts <$> boards).

(** The parts on a board carry the id of the board, and a rotation that is
    among their allowed rotations. *)
Definition placed_well (parts : list Part.t) (b : Board.t) : Prop :=
  Forall (λ ptr, ∃ p, parts !! ptr = Some p ∧
                      Part.board_id p = Board.id b ∧
                      Part.rotation p ∈ Part.allowed_rotations p)
         (Board.placed_parts b).

(** The bookkeeping of the [for] loop of [nest_parts], with [parts0] the
    sorted parts as the loop over boards found them, [done] the boards
    completed before and [queue] the pointers not yet tried: every pointer
    is on one board or queued, once; the queued parts are as they were;
    the placed parts carry their board's id and an allowed rotation; and
    the counter of placed parts counts them. *)
Definition pass_book (parts0 : list Part.t) (done : list Board.t)
    (queue : list nat) (st : Nester.pass_state) : Prop :=
  Permutation (placed_all done ++
               Board.placed_parts (Nester.ps_current_board st) ++
               Nester.ps_parts_for_next_board st ++ queue)
              (seq 0 (length parts0)) ∧
  length (Nester.ps_parts st) = length parts0 ∧
  Forall (λ ptr, Nester.ps_parts st !! ptr = parts0 !! ptr)
         (Nester.ps_parts_for_next_board st ++ queue) ∧
  Forall (placed_well (Nester.ps_parts st)) done ∧
  placed_well (Nester.ps_parts st) (Nester.ps_current_board st) ∧
  Nester.ps_placed_count st =
  length (placed_all done ++ Board.placed_parts (Nester.ps_current_board st)).

(** The bookkeeping of the [while] loop of [nest_parts]: the same, and the
    boards are numbered from 1 in their order, have the material and the
    dimensions of the call, and nothing was written to [std::cerr]. *)
Definition nest_book (parts0 : list Part.t) (material : string)
    (board_width board_height : Q) (st : Nester.state) : Prop :=
  Permutation (placed_all (Nester.boards st) ++ Nester.remaining_parts st)
              (seq 0 (length parts0)) ∧
  length (Nester.parts st) = length parts0 ∧
  Forall (λ ptr, Nester.parts st !! ptr = parts0 !! ptr)
         (Nester.remaining_parts st) ∧
  Forall (placed_well (Nester.parts st)) (Nester.boards st) ∧
  Nester.placed_count st = length (placed_all (Nester.boards st)) ∧
  Nester.board_count st = Z.of_nat (length (Nester.boards st)) ∧
  Board.id <$> Nester.boards st =
  Z.of_nat <$> seq 1 (length (Nester.boards st)) ∧
  Forall (λ b, Board.material b = material ∧
               Board.width b = board_width ∧ Board.height b = board_height)
         (Nester.boards st) ∧
  Nester.cerr st = [].



(** * main.cpp

    The driver: a small JSON reader and the reading of settings, boards
    and parts from its values.  A C++ [char] is an [ascii], a
    [std::string] a [string]. *)

(** [std::stod] is used through a parameter: [None] where it throws. *)
Class StdStod : Type := { stod : string → option Q }.

(** The characters the source names. *)
Definition quote_char : ascii := "034".
Definition backslash_char : ascii := "\".
Definition newline_char : ascii := "010".
Definition return_char : ascii := "013".
Definition tab_char : ascii := "009".
Definition nul_char : ascii := "000".

(** [std::isspace], [std::isdigit] and [::tolower] in the "C" locale (a
    byte above 127 is neither a space nor a digit, and has no lower case). *)
Definition isspace (c : ascii) : bool :=
  let n := nat_of_ascii c in
  (n =? 32)%nat || ((9 <=? n)%nat && (n <=? 13)%nat).

Definition isdigit (c : ascii) : bool :=
  let n := nat_of_ascii c in (48 <=? n)%nat && (n <=? 57)%nat.

Definition tolower (c : ascii) : ascii :=
  let n := nat_of_ascii c in
  if (65 <=? n)%nat && (n <=? 90)%nat then ascii_of_nat (n + 32) else c.

(** [json[pos]]: the terminating NUL at and past the end. *)
Definition char_at (json : string) (pos : nat) : ascii :=
  match String.get pos json with
  | Some c => c
  | None => nul_char
  end.

Module SimpleJSON.
(** [escape_string]: the text appended for one character. *)
Definition escape_char (c : ascii) : string :=
  if Ascii.eqb c quote_char then String backslash_char (String quote_char "")
  else if Ascii.eqb c backslash_char
       then String backslash_char (String backslash_char "")
  else if Ascii.eqb c newline_char then String backslash_char (String "n" "")
  else if Ascii.eqb c return_char then String backslash_char (String "r" "")
  else if Ascii.eqb c tab_char then String backslash_char (String "t" "")
  else String c "".

Fixpoint escape_loop (str result : string) : string :=
  match str with
  | EmptyString => result
  | String c rest => escape_loop rest (String.append result (escape_char c))
  end.

Definition escape_string (str : string) : string := escape_loop str "".

(** class Value *)
Inductive Type_ : Type := NULL_TYPE | BOOL | NUMBER | STRING | ARRAY | OBJECT.

#[warnings="-register-all"]
Inductive Value : Type := mkValue {
  type : Type_;
  bool_val : bool;
  num_val : Q;
  str_val : string;
  array_val : list Value;
  object_val : gmap string Value
}.

(** A default-constructed value; also the [static Value null_value] of
    the two [operator[]]. *)
Definition null_value : Value := mkValue NULL_TYPE false 0 "" [] ∅.

Definition is_null (v : Value) : bool :=
  match type v with NULL_TYPE => true | _ => false end.
Definition is_bool (v : Value) : bool :=
  match type v with BOOL => true | _ => false end.
Definition is_number (v : Value) : bool :=
  match type v with NUMBER => true | _ => false end.
Definition is_string (v : Value) : bool :=
  match type v with STRING => true | _ => false end.
Definition is_array (v : Value) : bool :=
  match type v with ARRAY => true | _ => false end.
Definition is_object (v : Value) : bool :=
  match type v with OBJECT => true | _ => false end.

Definition as_bool (v : Value) : bool := bool_val v.
Definition as_number (v : Value) : Q := num_val v.
Definition as_string (v : Value) : string := str_val v.

(** [operator[](const std::string&)] and [operator[](size_t)]. *)
Definition at_key (v : Value) (key : string) : Value :=
  match object_val v !! key with
  | Some found => found
  | None => null_value
  end.

Definition at_index (v : Value) (index : nat) : Value :=
  match array_val v !! index with
  | Some found => found
  | None => null_value
  end.

Definition size (v : Value) : nat :=
  if is_array v then length (array_val v)
  else if is_object v then base.size (object_val v)
  else 0%nat.

(** class Parser: [json] is fixed during a parse; every member function
    takes the position and returns the new one. *)

Fixpoint skip_whitespace_loop (fuel : nat) (json : string) (pos : nat) : nat :=
  match fuel with
  | O => pos
  | S fuel =>
      if (pos <? String.length json)%nat && isspace (char_at json pos)
      then skip_whitespace_loop fuel json (S pos)
      else pos
  end.

(** The loop ends by its condition: it runs at most to the end. *)
Definition skip_whitespace (json : string) (pos : nat) : nat :=
  skip_whitespace_loop (String.length json - pos) json pos.

Definition peek (json : string) (pos : nat) : ascii * nat :=
  let pos := skip_whitespace json pos in
  (if (pos <? String.length json)%nat then char_at json pos else nul_char, pos).

Definition consume (json : string) (pos : nat) : ascii * nat :=
  let pos := skip_whitespace json pos in
  if (pos <? String.length json)%nat
  then (char_at json pos, S pos)
  else (nul_char, pos).

Definition match_ (json : string) (pos : nat) (c : ascii) : bool * nat :=
  let '(p, pos) := peek json pos in
  if Ascii.eqb p c
  then let '(_, pos) := consume json pos in (true, pos)
  else (false, pos).

(** The loop of [parse_string]. *)
Fixpoint parse_string_loop (fuel : nat) (json : string) (pos : nat)
    (result : string) : string * nat :=
  match fuel with
  | O => (result, pos)
  | S fuel =>
      if (pos <? String.length json)%nat &&
         negb (Ascii.eqb (char_at json pos) quote_char)
      then
        let '(result, pos) :=
          if Ascii.eqb (char_at json pos) backslash_char &&
             (pos + 1 <? String.length json)%nat
          then
            let pos := S pos in
            let c := char_at json pos in
            (String.append result
               (String (if Ascii.eqb c "n" then newline_char
                        else if Ascii.eqb c "r" then return_char
                        else if Ascii.eqb c "t" then tab_char
                        else c) ""),
             pos)
          else (String.append result (String (char_at json pos) ""), pos) in
        parse_string_loop fuel json (S pos) result
      else (result, pos)
  end.

Definition parse_string (json : string) (pos : nat) : string * nat :=
  let '(c, pos) := consume json pos in
  if negb (Ascii.eqb c quote_char) then ("", pos)
  else
    let '(result, pos) :=
      parse_string_loop (String.length json - pos) json pos "" in
    let pos := if (pos <? String.length json)%nat then S pos else pos in
    (result, pos).

(** The loop of [parse_number]. *)
Fixpoint parse_number_loop (fuel : nat) (json : string) (pos : nat) : nat :=
  match fuel with
  | O => pos
  | S fuel =>
      if (pos <? String.length json)%nat &&
         (isdigit (char_at json pos) || Ascii.eqb (char_at json pos) ".")
      then parse_number_loop fuel json (S pos)
      else pos
  end.

Definition parse_number `{StdStod} (json : string) (pos : nat)
    : option Q * nat :=
  let start := pos in
  let pos := if Ascii.eqb (char_at json pos) "-" then S pos else pos in
  let pos := parse_number_loop (String.length json - pos) json pos in
  (stod (String.substring start (pos - start) json), pos).

(** What a call of [parse_value] comes to: a value and the position
    after it, the exception of [std::stod], or the end of the fuel. *)
Inductive parsed : Type :=
| Parsed (val : Value) (pos : nat)
| Thrown
| OutOfFuel.

Definition set_object (val : Value) (key : string) (v : Value) : Value :=
  mkValue (type val) (bool_val val) (num_val val) (str_val val)
          (array_val val) (<[key := v]> (object_val val)).

Definition push_back (val : Value) (v : Value) : Value :=
  mkValue (type val) (bool_val val) (num_val val) (str_val val)
          (array_val val ++ [v]) (object_val val).

(** [parse_value] and its two [while] loops; [fuel] bounds the depth of
    the calls. *)
Fixpoint parse_value `{StdStod} (fuel : nat) (json : string) (pos : nat)
    : parsed :=
  match fuel with
  | O => OutOfFuel
  | S fuel =>
      let '(c, pos) := peek json pos in
      if Ascii.eqb c quote_char then
        let '(s, pos) := parse_string json pos in
        Parsed (mkValue STRING false 0 s [] ∅) pos
      else if Ascii.eqb c "{" then
        let '(_, pos) := consume json pos in
        match parse_members fuel json pos (mkValue OBJECT false 0 "" [] ∅) with
        | Parsed val pos => let '(_, pos) := match_ json pos "}" in Parsed val pos
        | other => other
        end
      else if Ascii.eqb c "[" then
        let '(_, pos) := consume json pos in
        match parse_elements fuel json pos (mkValue ARRAY false 0 "" [] ∅) with
        | Parsed val pos => let '(_, pos) := match_ json pos "]" in Parsed val pos
        | other => other
        end
      else if Ascii.eqb c "t" || Ascii.eqb c "f" then
        Parsed (mkValue BOOL (Ascii.eqb c "t") 0 "" [] ∅)
               (pos + (if Ascii.eqb c "t" then 4 else 5))
      else if Ascii.eqb c "n" then
        Parsed (mkValue NULL_TYPE false 0 "" [] ∅) (pos + 4)
      else if Ascii.eqb c "-" || isdigit c then
        match parse_number json pos with
        | (Some num, pos) => Parsed (mkValue NUMBER false num "" [] ∅) pos
        | (None, _) => Thrown
        end
      else Parsed null_value pos
  end
with parse_members `{StdStod} (fuel : nat) (json : string) (pos : nat)
    (val : Value) : parsed :=
  match fuel with
  | O => OutOfFuel
  | S fuel =>
      let '(c, pos) := peek json pos in
      if Ascii.eqb c "}" then Parsed val pos
      else
        let '(key, pos) := parse_string json pos in
        let '(colon, pos) := match_ json pos ":" in
        if negb colon then Parsed val pos
        else
          match parse_value fuel json pos with
          | Parsed v pos =>
              let val := set_object val key v in
              let '(comma, pos) := match_ json pos "," in
              if negb comma then Parsed val pos
              else parse_members fuel json pos val
          | other => other
          end
  end
with parse_elements `{StdStod} (fuel : nat) (json : string) (pos : nat)
    (val : Value) : parsed :=
  match fuel with
  | O => OutOfFuel
  | S fuel =>
      let '(c, pos) := peek json pos in
      if Ascii.eqb c "]" then Parsed val pos
      else
        match parse_value fuel json pos with
        | Parsed v pos =>
            let val := push_back val v in
            let '(comma, pos) := match_ json pos "," in
            if negb comma then Parsed val pos
            else parse_elements fuel json pos val
        | other => other
        end
  end.

(** [Parser::parse]: from position 0, with fuel for the longest chain of
    calls a text of this length can cause (two calls for every character:
    [parse_value] and the loop it enters). *)
Definition parse `{StdStod} (json_str : string) : parsed :=
  parse_value (2 * String.length json_str + 1) json_str 0.
End SimpleJSON.

(** A value as [parse_value] builds it: of the members, the one of its
    type alone is set; and so for the elements of an array and the members
    of an object. *)
#[warnings="-register-all"]
Inductive well_formed : SimpleJSON.Value → Prop :=
| well_formed_value (v : SimpleJSON.Value) :
    (SimpleJSON.type v ≠ SimpleJSON.BOOL → SimpleJSON.bool_val v = false) →
    (SimpleJSON.type v ≠ SimpleJSON.NUMBER → SimpleJSON.num_val v = 0) →
    (SimpleJSON.type v ≠ SimpleJSON.STRING → SimpleJSON.str_val v = ""%string) →
    (SimpleJSON.type v ≠ SimpleJSON.ARRAY → SimpleJSON.array_val v = []) →
    (SimpleJSON.type v ≠ SimpleJSON.OBJECT → SimpleJSON.object_val v = ∅) →
    Forall well_formed (SimpleJSON.array_val v) →
    (∀ key member,
       SimpleJSON.object_val v !! key = Some member → well_formed member) →
    well_formed v.

(** ** main.cpp: [parse_grain_direction] *)

(** [std::transform] over a string, in place. *)
Fixpoint transform (f : ascii → ascii) (s : string) : string :=
  match s with
  | EmptyString => EmptyString
  | String c s => String (f c) (transform f s)
  end.

Definition parse_grain_direction (grain : string) : list Z :=
  let lower := transform tolower grain in
  if String.eqb lower "fixed" || String.eqb lower "vertical" ||
     String.eqb lower "horizontal"
  then [0%Z]
  else [0%Z; 90%Z].

(** ** main.cpp: [main], from the text of the input file on

    The opening of the two files, the lines that [main] writes to
    [std::cout] and the layout of the output text are left out; of the
    output, the values of the array [placements] are kept.

    [board_sizes] is only looked up by key: a [gmap].  [parts_by_material]
    is walked through in the order of its keys: the list of its entries in
    ascending order of the keys. *)

(** [m[key].push_back(a)] on a [std::map<std::string, std::vector<A>>]. *)
Fixpoint map_push_back {A : Type} (key : string) (a : A)
    (m : list (string * list A)) : list (string * list A) :=
  match m with
  | [] => [(key, [a])]
  | (k, v) :: rest =>
      if String.ltb key k then (key, [a]) :: m
      else if String.eqb key k then (k, v ++ [a]) :: rest
      else (k, v) :: map_push_back key a rest
  end.

Module Main.
(** [Settings settings;] and the settings of the input over it. *)
Definition read_settings (root : SimpleJSON.Value) : Settings :=
  let settings := mkSettings 3 true 60000 in
  let settings_obj := SimpleJSON.at_key root "settings" in
  if SimpleJSON.is_object settings_obj then
    let settings :=
      if SimpleJSON.is_number (SimpleJSON.at_key settings_obj "kerf")
      then mkSettings
             (SimpleJSON.as_number (SimpleJSON.at_key settings_obj "kerf"))
             (allow_rotation settings) (timeout_ms settings)
      else settings in
    if SimpleJSON.is_bool (SimpleJSON.at_key settings_obj "allow_rotation")
    then mkSettings
           (kerf_width settings)
           (SimpleJSON.as_bool (SimpleJSON.at_key settings_obj "allow_rotation"))
           (timeout_ms settings)
    else settings
  else settings.

(** The body of the loop over the boards of the input. *)
Definition read_board (boards_array : SimpleJSON.Value)
    (board_sizes : gmap string (Q * Q)) (i : nat) : gmap string (Q * Q) :=
  let board := SimpleJSON.at_index boards_array i in
  let material := SimpleJSON.as_string (SimpleJSON.at_key board "material") in
  let width := SimpleJSON.as_number (SimpleJSON.at_key board "width") in
  let height := SimpleJSON.as_number (SimpleJSON.at_key board "height") in
  <[material := (width, height)]> board_sizes.

Definition read_boards (root : SimpleJSON.Value) : gmap string (Q * Q) :=
  let boards_array := SimpleJSON.at_key root "boards" in
  if SimpleJSON.is_array boards_array
  then foldl (read_board boards_array) ∅
             (seq 0 (SimpleJSON.size boards_array))
  else ∅.

(** The part that the loop over the parts of the input builds. *)
Definition read_part (settings : Settings) (parts_array : SimpleJSON.Value)
    (i : nat) : Part.t :=
  let part_obj := SimpleJSON.at_index parts_array i in
  let grain :=
    SimpleJSON.as_string (SimpleJSON.at_key part_obj "grain_direction") in
  let grain := match grain with EmptyString => "any"%string | _ => grain end in
  Part.mk (SimpleJSON.as_string (SimpleJSON.at_key part_obj "id"))
          (SimpleJSON.as_string (SimpleJSON.at_key part_obj "material"))
          (SimpleJSON.as_number (SimpleJSON.at_key part_obj "width"))
          (SimpleJSON.as_number (SimpleJSON.at_key part_obj "height"))
          grain
          (if allow_rotation settings
           then parse_grain_direction grain
           else [0%Z])
          0 0 0 (-1).

Definition read_parts (settings : Settings) (root : SimpleJSON.Value)
    : list (string * list Part.t) :=
  let parts_array := SimpleJSON.at_key root "parts" in
  if SimpleJSON.is_array parts_array
  then foldl (λ parts_by_material i,
                let part := read_part settings parts_array i in
                map_push_back (Part.material part) part parts_by_material)
             []
             (seq 0 (SimpleJSON.size parts_array))
  else [].

(** The dimensions of the boards of a material. *)
Definition board_size (board_sizes : gmap string (Q * Q)) (material : string)
    : Q * Q :=
  match board_sizes !! material with
  | Some size => size
  | None => (2440, 1220)
  end.

(** The loop over the materials: every entry with what its call of
    [nest_parts] leaves (the vector of the entry is the one the call
    updates, and the one the pointers of its boards point into). *)
Fixpoint nest_materials `{StdSort} (nester : Nester.t)
    (board_sizes : gmap string (Q * Q))
    (parts_by_material : list (string * list Part.t))
    : option (list (string * Nester.result)) :=
  match parts_by_material with
  | [] => Some []
  | (material, parts) :: rest =>
      match Nester.nest_parts nester parts material
              (board_size board_sizes material).1
              (board_size board_sizes material).2 with
      | None => None
      | Some r =>
          match nest_materials nester board_sizes rest with
          | None => None
          | Some results => Some ((material, r) :: results)
          end
      end
  end.






(** How [main] ends once the input file is read. *)
Inductive outcome : Type :=
| InvalidJSON
| Uncaught
| Nested (settings : Settings) (board_sizes : gmap string (Q * Q))
         (results : list (string * Nester.result)).

(** [main] from the parsed input to the data it writes; [InvalidJSON] is
    the return with 1 when the root is no object. *)
Definition nest_root `{StdSort} (root : SimpleJSON.Value) : option outcome :=
  if negb (SimpleJSON.is_object root) then Some InvalidJSON
  else
    let settings := read_settings root in
    let board_sizes := read_boards root in
    let parts_by_material := read_parts settings root in
    match nest_materials (Nester.mk settings) board_sizes
                         parts_by_material with
    | None => None
    | Some results => Some (Nested settings board_sizes results)
    end.

(** [main] from the text of the input file on; [Uncaught] is the
    exception of [std::stod] leaving [main]. *)
Definition run `{StdSort} `{StdStod} (json_str : string) : option outcome :=
  match SimpleJSON.parse json_str with
  | SimpleJSON.OutOfFuel => None
  | SimpleJSON.Thrown => Some Uncaught
  | SimpleJSON.Parsed root _ => nest_root root
  end.
End Main.

(** A [std::stod] for the texts [parse_number] hands over: an optional
    minus sign, digits, and at most one point read as the decimal point;
    the conversion ends at a second point.  It throws when there is no
    digit. *)
Definition digit_value (c : ascii) : Z := Z.of_nat (nat_of_ascii c - 48).

Fixpoint stod_digits (s : string) (seen_point : bool) (mantissa : Z)
    (scale : positive) (digits : nat) : Z * positive * nat :=
  match s with
  | EmptyString => (mantissa, scale, digits)
  | String c rest =>
      if isdigit c
      then stod_digits rest seen_point (10 * mantissa + digit_value c)
                       (if seen_point then (10 * scale)%positive else scale)
                       (S digits)
      else if Ascii.eqb c "." && negb seen_point
      then stod_digits rest true mantissa scale digits
      else (mantissa, scale, digits)
  end.

Definition decimal_stod (s : string) : option Q :=
  let '(negative, body) :=
    match s with
    | String "-" rest => (true, rest)
    | _ => (false, s)
    end in
  let '(mantissa, scale, digits) := stod_digits body false 0 1 0 in
  if (digits =? 0)%nat then None
  else Some (Qmake (if negative then - mantissa else mantissa) scale).

#[export] Instance decimal_StdStod : StdStod := {| stod := decimal_stod |}.

(** ** What [main] reads, for the statements about it *)

(** The parts of the input in the order of its array, as the loop of
    [main] builds them; and the materials and dimensions of its boards. *)
Definition input_parts (settings : Settings) (root : SimpleJSON.Value)
    : list Part.t :=
  let parts_array := SimpleJSON.at_key root "parts" in
  if SimpleJSON.is_array parts_array
  then Main.read_part settings parts_array <$>
       seq 0 (SimpleJSON.size parts_array)
  else [].

Definition input_boards (root : SimpleJSON.Value) : list (string * (Q * Q)) :=
  let boards_array := SimpleJSON.at_key root "boards" in
  if SimpleJSON.is_array boards_array
  then (λ board,
          (SimpleJSON.as_string (SimpleJSON.at_key board "material"),
           (SimpleJSON.as_number (SimpleJSON.at_key board "width"),
            SimpleJSON.as_number (SimpleJSON.at_key board "height")))) <$>
       SimpleJSON.array_val boards_array
  else [].

(** The order of the keys of a [std::map<std::string, ...>]. *)
Definition string_lt (s1 s2 : string) : Prop := String.ltb s1 s2 = true.






(** * Geometry *)

Lemma Qlt_bool_iff a b : (a <? b) = true ↔ a < b.
Proof.
  unfold Qlt_bool. rewrite negb_true_iff, <- not_true_iff_false, Qle_bool_iff.
  split; [apply Qnot_le_lt | apply Qlt_not_le].
Qed.

Lemma Qlt_bool_false a b : (a <? b) = false ↔ b <= a.
Proof.
  unfold Qlt_bool. rewrite negb_false_iff. apply Qle_bool_iff.
Qed.

Lemma Qle_bool_false a b : (a <=? b) = false ↔ b < a.
Proof.
  rewrite <- not_true_iff_false, Qle_bool_iff.
  split; [apply Qnot_le_lt | apply Qlt_not_le].
Qed.

(** Turns the boolean comparisons among the hypotheses into propositions. *)
Ltac qprop :=
  repeat match goal with
  | H : (_ && _) = true |- _ => apply andb_true_iff in H; destruct H
  | H : (_ || _) = false |- _ => apply orb_false_iff in H; destruct H
  | H : negb _ = true |- _ => apply negb_true_iff in H
  | H : negb _ = false |- _ => apply negb_false_iff in H
  | H : (_ <? _) = true |- _ => apply Qlt_bool_iff in H
  | H : (_ <? _) = false |- _ => apply Qlt_bool_false in H
  | H : (_ <=? _) = true |- _ => apply Qle_bool_iff in H
  | H : (_ <=? _) = false |- _ => apply Qle_bool_false in H
  end.

Lemma dmax_spec a b : (a < b ∧ dmax a b = b) ∨ (b <= a ∧ dmax a b = a).
Proof.
  unfold dmax. destruct (a <? b) eqn:E; qprop; auto.
Qed.

Lemma dmin_spec a b : (b < a ∧ dmin a b = b) ∨ (a <= b ∧ dmin a b = a).
Proof.
  unfold dmin. destruct (b <? a) eqn:E; qprop; auto.
Qed.

Lemma dmax_bounds a b : a <= dmax a b ∧ b <= dmax a b.
Proof. destruct (dmax_spec a b) as [[? ->]|[? ->]]; lra. Qed.

Lemma dmin_bounds a b : dmin a b <= a ∧ dmin a b <= b.
Proof. destruct (dmin_spec a b) as [[? ->]|[? ->]]; lra. Qed.

Lemma is_valid_iff r :
  Rect.is_valid r = true ↔ 0 < Rect.width r ∧ 0 < Rect.height r.
Proof.
  unfold Rect.is_valid. rewrite andb_true_iff, !Qlt_bool_iff. tauto.
Qed.

Lemma intersects_true_iff r1 r2 :
  intersects r1 r2 = true ↔
  Rect.x r2 < Rect.right r1 ∧ Rect.x r1 < Rect.right r2 ∧
  Rect.y r2 < Rect.bottom r1 ∧ Rect.y r1 < Rect.bottom r2.
Proof.
  unfold intersects.
  rewrite negb_true_iff, !orb_false_iff, !Qle_bool_false. tauto.
Qed.

Lemma intersects_false_iff r1 r2 :
  intersects r1 r2 = false ↔
  Rect.right r1 <= Rect.x r2 ∨ Rect.right r2 <= Rect.x r1 ∨
  Rect.bottom r1 <= Rect.y r2 ∨ Rect.bottom r2 <= Rect.y r1.
Proof.
  unfold intersects.
  rewrite negb_false_iff, !orb_true_iff, !Qle_bool_iff. tauto.
Qed.


(** C6: [intersects] is half-open: rectangles that meet only along an edge
    or at a corner, one's right edge on the other's x or one's bottom edge
    on the other's y, do not intersect; so [Rect(0,0,10,10)] and
    [Rect(10,0,10,10)] do not. *)
Theorem intersects_half_open :
  (∀ r1 r2 : Rect.t,
     Rect.right r1 == Rect.x r2 ∨ Rect.right r2 == Rect.x r1 ∨
     Rect.bottom r1 == Rect.y r2 ∨ Rect.bottom r2 == Rect.y r1 →
     intersects r1 r2 = false) ∧
  intersects (Rect.mk 0 0 10 10) (Rect.mk 10 0 10 10) = false.
Proof.
  split; [|reflexivity].
  intros r1 r2 H. apply intersects_false_iff. lra.
Qed.

Lemma intersects_half_open_witness :
  intersects (Rect.mk 0 0 5 5) (Rect.mk 5 5 2 2) = false.
Proof.
  apply (proj1 intersects_half_open). left. reflexivity.
Defined.

(** The intersection box of two valid rectangles that intersect is not
    empty, and it lies within both. *)
Lemma intersection_box original cut :
  Rect.is_valid original = true → Rect.is_valid cut = true →
  intersects original cut = true →
  let i := intersection original cut in
  Rect.x original <= Box.x1 i ∧ Rect.x cut <= Box.x1 i ∧
  Box.x2 i <= Rect.right original ∧ Box.x2 i <= Rect.right cut ∧
  Rect.y original <= Box.y1 i ∧ Rect.y cut <= Box.y1 i ∧
  Box.y2 i <= Rect.bottom original ∧ Box.y2 i <= Rect.bottom cut ∧
  Box.x1 i < Box.x2 i ∧ Box.y1 i < Box.y2 i.
Proof.
  intros Hv Hc Hi. apply is_valid_iff in Hv, Hc. apply intersects_true_iff in Hi.
  unfold intersection, Rect.right, Rect.bottom in *. simpl.
  destruct (dmax_spec (Rect.x original) (Rect.x cut)) as [[? ->]|[? ->]],
           (dmax_spec (Rect.y original) (Rect.y cut)) as [[? ->]|[? ->]],
           (dmin_spec (Rect.x original + Rect.width original)
                      (Rect.x cut + Rect.width cut)) as [[? ->]|[? ->]],
           (dmin_spec (Rect.y original + Rect.height original)
                      (Rect.y cut + Rect.height cut)) as [[? ->]|[? ->]];
    lra.
Qed.


(** [subtract_rect] written with the intersection box and the four pieces. *)
Lemma subtract_rect_unfold original cut :
  subtract_rect original cut =
  let i := intersection original cut in
  if (Box.x2 i <=? Box.x1 i) || (Box.y2 i <=? Box.y1 i)
  then [original]
  else
    (if Rect.x original <? Box.x1 i then [left_piece original cut] else []) ++
    (if Box.x2 i <? Rect.right original then [right_piece original cut] else []) ++
    (if Rect.y original <? Box.y1 i then [bottom_piece original cut] else []) ++
    (if Box.y2 i <? Rect.bottom original then [top_piece original cut] else []).
Proof.
  unfold subtract_rect, left_piece, right_piece, bottom_piece, top_piece,
    intersection. simpl.
  destruct (_ || _); [reflexivity|].
  repeat match goal with |- context [if ?c then _ else _] => destruct c end;
    reflexivity.
Qed.

(** Without an intersection the original comes back alone. *)
Lemma subtract_rect_disjoint original cut :
  intersects original cut = false → subtract_rect original cut = [original].
Proof.
  intros Hi. apply intersects_false_iff in Hi.
  rewrite subtract_rect_unfold. unfold intersection. simpl.
  destruct (_ || _) eqn:E; [reflexivity|]. exfalso. qprop.
  pose proof (dmax_bounds (Rect.x original) (Rect.x cut)).
  pose proof (dmax_bounds (Rect.y original) (Rect.y cut)).
  pose proof (dmin_bounds (Rect.right original) (Rect.right cut)).
  pose proof (dmin_bounds (Rect.bottom original) (Rect.bottom cut)).
  lra.
Qed.

Lemma positive_product_l a b : 0 <= a → 0 < b → (0 <? a * b) = (0 <? a).
Proof.
  intros Ha Hb. destruct (0 <? a) eqn:E1, (0 <? a * b) eqn:E2;
    qprop; try reflexivity; exfalso; nra.
Qed.

Lemma positive_product_r a b : 0 < a → 0 <= b → (0 <? a * b) = (0 <? b).
Proof.
  intros Ha Hb. destruct (0 <? b) eqn:E1, (0 <? a * b) eqn:E2;
    qprop; try reflexivity; exfalso; nra.
Qed.

Lemma positive_difference a b : (0 <? b - a) = (a <? b).
Proof.
  destruct (0 <? b - a) eqn:E1, (a <? b) eqn:E2;
    qprop; try reflexivity; exfalso; lra.
Qed.

(** With an intersection, the pieces the code keeps are the pieces of
    positive area. *)
Lemma subtract_rect_overlap original cut :
  Rect.is_valid original = true → Rect.is_valid cut = true →
  intersects original cut = true →
  subtract_rect original cut =
  List.filter positive_area
    [left_piece original cut; right_piece original cut;
     bottom_piece original cut; top_piece original cut].
Proof.
  intros Hv Hc Hi. rewrite subtract_rect_unfold.
  pose proof (intersection_box original cut Hv Hc Hi) as Hb.
  apply is_valid_iff in Hv. cbv zeta in *.
  unfold left_piece, right_piece, bottom_piece, top_piece.
  unfold Rect.right, Rect.bottom in *.
  set (i := intersection original cut) in *. clearbody i.
  destruct (_ || _) eqn:E.
  { exfalso. apply orb_true_iff in E. rewrite !Qle_bool_iff in E. lra. }
  clear E. simpl. unfold positive_area, Rect.area. simpl.
  rewrite !positive_product_l, !positive_product_r, !positive_difference by lra.
  repeat match goal with |- context [if ?c then _ else _] => destruct c end;
    reflexivity.
Qed.

(** C2: for valid rectangles, [subtract_rect] returns the original alone
    when the two do not intersect; when they do, it returns the pieces of
    positive area among the left, right, bottom and top piece, in this
    order: at most four rectangles, each of positive area. *)
Theorem subtract_rect_pieces (original cut : Rect.t) :
  Rect.is_valid original = true → Rect.is_valid cut = true →
  subtract_rect original cut = subtract_rect_spec original cut ∧
  (intersects original cut = false → subtract_rect original cut = [original]) ∧
  (intersects original cut = true →
     subtract_rect original cut =
       List.filter positive_area
         [left_piece original cut; right_piece original cut;
          bottom_piece original cut; top_piece original cut] ∧
     (length (subtract_rect original cut) <= 4)%nat ∧
     Forall (λ r, 0 < Rect.area r) (subtract_rect original cut)).
Proof.
  intros Hv Hc. split; [|split].
  - unfold subtract_rect_spec. destruct (intersects original cut) eqn:Hi.
    + now apply subtract_rect_overlap.
    + now apply subtract_rect_disjoint.
  - apply subtract_rect_disjoint.
  - intros Hi. rewrite (subtract_rect_overlap _ _ Hv Hc Hi).
    split; [reflexivity|]. split.
    + etransitivity; [apply List.filter_length_le|]. reflexivity.
    + apply List.Forall_forall. intros r Hr.
      apply List.filter_In in Hr. destruct Hr as [_ Hr].
      now apply Qlt_bool_iff in Hr.
Qed.

Lemma subtract_rect_pieces_witness :
  Rect.is_valid (Rect.mk 0 0 200 100) = true ∧
  Rect.is_valid (Rect.mk 50 20 30 30) = true ∧
  subtract_rect (Rect.mk 0 0 200 100) (Rect.mk 50 20 30 30) =
  [Rect.mk 0 0 (50 - 0) 100; Rect.mk (50 + 30) 0 (0 + 200 - (50 + 30)) 100;
   Rect.mk 50 0 (50 + 30 - 50) (20 - 0);
   Rect.mk 50 (20 + 30) (50 + 30 - 50) (0 + 100 - (20 + 30))].
Proof.
  split; [reflexivity|]. split; [reflexivity|].
  destruct (subtract_rect_pieces (Rect.mk 0 0 200 100) (Rect.mk 50 20 30 30))
    as (_ & _ & H); [reflexivity | reflexivity |].
  destruct H as (-> & _); reflexivity.
Defined.






(** * The board: [find_best_position] *)

Lemma full_sheet_iff b w h :
  bool_decide (Board.placed_parts b = []) &&
    (Qabs (w - Board.width b) <? 1 # 10) &&
    (Qabs (h - Board.height b) <? 1 # 10) = true ↔ full_sheet b w h.
Proof.
  unfold full_sheet.
  rewrite !andb_true_iff, bool_decide_eq_true, !Qlt_bool_iff. tauto.
Qed.

Lemma qualifies_iff b ew eh rect :
  (ew <=? Rect.width rect) && (eh <=? Rect.height rect) = true ∧
  (Rect.x rect + ew <=? Board.width b) &&
    (Rect.y rect + eh <=? Board.height b) = true ↔ qualifies b ew eh rect.
Proof.
  unfold qualifies. rewrite !andb_true_iff, !Qle_bool_iff. tauto.
Qed.

Lemma first_fit_here b ew eh rect rest :
  qualifies b ew eh rect →
  Board.first_fit (Board.width b) (Board.height b) ew eh (rect :: rest) =
  Some (Rect.x rect, Rect.y rect).
Proof.
  intros Hq. apply qualifies_iff in Hq. destruct Hq as [H1 H2].
  simpl. now rewrite H1, H2.
Qed.

Lemma first_fit_skip b ew eh rect rest :
  ¬ qualifies b ew eh rect →
  Board.first_fit (Board.width b) (Board.height b) ew eh (rect :: rest) =
  Board.first_fit (Board.width b) (Board.height b) ew eh rest.
Proof.
  intros Hq. rewrite <- qualifies_iff in Hq. simpl.
  destruct ((ew <=? Rect.width rect) && (eh <=? Rect.height rect));
    [|reflexivity].
  destruct ((Rect.x rect + ew <=? Board.width b) &&
            (Rect.y rect + eh <=? Board.height b)); [|reflexivity].
  exfalso. apply Hq. split; reflexivity.
Qed.


Lemma first_fit_none b ew eh rects :
  Forall (λ r, ¬ qualifies b ew eh r) rects →
  Board.first_fit (Board.width b) (Board.height b) ew eh rects = None.
Proof.
  induction 1 as [|r rects Hr Hb IH]; [reflexivity|].
  now rewrite first_fit_skip.
Qed.

(** What [first_fit] returns is the corner of the first rectangle that
    qualifies. *)
Lemma first_fit_some b ew eh rects x y :
  Board.first_fit (Board.width b) (Board.height b) ew eh rects = Some (x, y) →
  ∃ before rect after,
    rects = before ++ rect :: after ∧
    Forall (λ r, ¬ qualifies b ew eh r) before ∧ qualifies b ew eh rect ∧
    x = Rect.x rect ∧ y = Rect.y rect.
Proof.
  induction rects as [|r rects IH]; [discriminate|].
  intros H.
  assert (Hdec : qualifies b ew eh r ∨ ¬ qualifies b ew eh r).
  { rewrite <- qualifies_iff.
    destruct ((ew <=? Rect.width r) && (eh <=? Rect.height r)),
             ((Rect.x r + ew <=? Board.width b) &&
              (Rect.y r + eh <=? Board.height b)); intuition congruence. }
  destruct Hdec as [Hq|Hq].
  - rewrite first_fit_here in H by assumption. injection H as <- <-.
    exists [], r, rects. split; [reflexivity|]. split; [constructor|]. auto.
  - rewrite first_fit_skip in H by assumption.
    destruct (IH H) as (before & rect & after & -> & Hb & Hr & -> & ->).
    exists (r :: before), rect, after.
    split; [reflexivity|]. split; [now constructor|]. auto.
Qed.

Lemma find_best_position_full b w h kerf :
  full_sheet b w h → Board.find_best_position b w h kerf = Some (0, 0).
Proof.
  intros Hf. apply full_sheet_iff in Hf.
  unfold Board.find_best_position. now rewrite Hf.
Qed.

Lemma find_best_position_scan b w h kerf :
  ¬ full_sheet b w h →
  Board.find_best_position b w h kerf =
  Board.first_fit (Board.width b) (Board.height b) (w + kerf) (h + kerf)
                  (Board.free_rectangles b).
Proof.
  intros Hf. rewrite <- full_sheet_iff in Hf.
  unfold Board.find_best_position.
  destruct (_ && _); [now destruct Hf | reflexivity].
Qed.




(** * The nester: [try_place_part] *)

Section TryPlacePart.
Context `{StdSort}.
Variables (self : Nester.t) (ptr : nat).

Lemma set_rotation_same (part : Part.t) :
  Part.set_rotation part (Part.rotation part) = part.
Proof. now destruct part. Qed.

(** The assignments after the loop give back the part as it was. *)
Lemma restore_original (part : Part.t) (r : Z) :
  Part.set_rotation
    (Part.set_height
       (Part.set_width (Part.set_rotation part r) (Part.width part))
       (Part.height part))
    (Part.rotation part) = part.
Proof. now destruct part. Qed.

(** The loop fails only by running out of rotations, and then the part
    and the board are as before the call. *)
Lemma try_rotations_false (part : Part.t) (board : Board.t) rotations r part' board' :
  Nester.try_rotations self ptr (Part.width part) (Part.height part)
    (Part.rotation part) rotations (Part.set_rotation part r) board =
    (false, part', board') →
  part' = part ∧ board' = board.
Proof.
  revert r. induction rotations as [|rotation rest IH]; intros r; simpl.
  - rewrite restore_original. now intros [= <- <-].
  - destruct (Part.get_rotated_dimensions _ rotation) as [w h].
    destruct (Board.find_best_position board w h _) as [[x y]|].
    + destruct (Board.add_part _ _ _ _ _ _). discriminate.
    + apply IH.
Qed.

Lemma try_rotations_none (part : Part.t) (board : Board.t) rotations r :
  Forall (λ rot, position_for self board part rot = None) rotations →
  Nester.try_rotations self ptr (Part.width part) (Part.height part)
    (Part.rotation part) rotations (Part.set_rotation part r) board =
    (false, part, board).
Proof.
  intros Hn. revert r. induction Hn as [|rotation rest Hr Hn IH]; intros r; simpl.
  - now rewrite restore_original.
  - unfold position_for in Hr.
    change (Part.get_rotated_dimensions
              (Part.set_rotation (Part.set_rotation part r) rotation) rotation)
      with (Part.get_rotated_dimensions part rotation).
    destruct (Part.get_rotated_dimensions part rotation) as [w h].
    rewrite Hr. apply IH.
Qed.

Lemma try_rotations_first (part : Part.t) (board : Board.t)
    before rotation after r x y :
  Forall (λ rot, position_for self board part rot = None) before →
  position_for self board part rotation = Some (x, y) →
  Nester.try_rotations self ptr (Part.width part) (Part.height part)
    (Part.rotation part) (before ++ rotation :: after)
    (Part.set_rotation part r) board =
    (true,
     (Board.add_part board ptr (Part.set_rotation part rotation) x y
        (kerf_width (Nester.settings_ self))).1,
     (Board.add_part board ptr (Part.set_rotation part rotation) x y
        (kerf_width (Nester.settings_ self))).2).
Proof.
  intros Hn Hp. revert r. induction Hn as [|rot rest Hr Hn IH]; intros r; simpl.
  - unfold position_for in Hp.
    change (Part.get_rotated_dimensions
              (Part.set_rotation (Part.set_rotation part r) rotation) rotation)
      with (Part.get_rotated_dimensions part rotation).
    destruct (Part.get_rotated_dimensions part rotation) as [w h].
    rewrite Hp.
    change (Part.set_rotation (Part.set_rotation part r) rotation)
      with (Part.set_rotation part rotation).
    now destruct (Board.add_part _ _ _ _ _ _).
  - unfold position_for in Hr.
    change (Part.get_rotated_dimensions
              (Part.set_rotation (Part.set_rotation part r) rot) rot)
      with (Part.get_rotated_dimensions part rot).
    destruct (Part.get_rotated_dimensions part rot) as [w h].
    rewrite Hr. apply IH.
Qed.

Lemma try_place_part_unfold (part : Part.t) (board : Board.t) :
  Nester.try_place_part self ptr part board =
  Nester.try_rotations self ptr (Part.width part) (Part.height part)
    (Part.rotation part) (Part.allowed_rotations part)
    (Part.set_rotation part (Part.rotation part)) board.
Proof. now rewrite set_rotation_same. Qed.

(** C5: [try_place_part] takes the allowed rotations in their order and
    commits the first that yields a position (so 0 before 90 when both
    are allowed); 90 and 270 swap width and height for the fit test; if
    no rotation yields a position the call reports failure, and whenever
    it reports failure the part is, in every field, as it was before the
    call, and so is the board. *)
Theorem try_place_part_rotations (part : Part.t) (board : Board.t) :
  (∀ before rotation after x y,
     Part.allowed_rotations part = before ++ rotation :: after →
     Forall (λ rot, position_for self board part rot = None) before →
     position_for self board part rotation = Some (x, y) →
     Nester.try_place_part self ptr part board =
     (true,
      (Board.add_part board ptr (Part.set_rotation part rotation) x y
         (kerf_width (Nester.settings_ self))).1,
      (Board.add_part board ptr (Part.set_rotation part rotation) x y
         (kerf_width (Nester.settings_ self))).2)) ∧
  (Forall (λ rot, position_for self board part rot = None)
          (Part.allowed_rotations part) →
   Nester.try_place_part self ptr part board = (false, part, board)) ∧
  (∀ part' board',
     Nester.try_place_part self ptr part board = (false, part', board') →
     part' = part ∧ board' = board) ∧
  (∀ rot, rot = 90%Z ∨ rot = 270%Z →
     Part.get_rotated_dimensions part rot = (Part.height part, Part.width part)) ∧
  (∀ rot, rot ≠ 90%Z → rot ≠ 270%Z →
     Part.get_rotated_dimensions part rot = (Part.width part, Part.height part)).
Proof.
  split; [|split; [|split; [|split]]].
  - intros before rotation after x y E Hn Hp.
    rewrite try_place_part_unfold, E. now apply try_rotations_first.
  - intros Hn. rewrite try_place_part_unfold. now apply try_rotations_none.
  - intros part' board' E. rewrite try_place_part_unfold in E.
    now apply try_rotations_false in E.
  - intros rot [-> | ->]; reflexivity.
  - intros rot H90 H270. unfold Part.get_rotated_dimensions.
    apply Z.eqb_neq in H90, H270. now rewrite H90, H270.
Qed.

(** The two ways a call ends. *)
Lemma try_rotations_outcome (part : Part.t) (board : Board.t) rotations r :
  Nester.try_rotations self ptr (Part.width part) (Part.height part)
    (Part.rotation part) rotations (Part.set_rotation part r) board =
    (false, part, board) ∨
  ∃ rotation x y,
    rotation ∈ rotations ∧
    position_for self board part rotation = Some (x, y) ∧
    Nester.try_rotations self ptr (Part.width part) (Part.height part)
      (Part.rotation part) rotations (Part.set_rotation part r) board =
    (true,
     (Board.add_part board ptr (Part.set_rotation part rotation) x y
        (kerf_width (Nester.settings_ self))).1,
     (Board.add_part board ptr (Part.set_rotation part rotation) x y
        (kerf_width (Nester.settings_ self))).2).
Proof.
  revert r. induction rotations as [|rotation rest IH]; intros r.
  - left. simpl. now rewrite restore_original.
  - destruct (position_for self board part rotation) as [[x y]|] eqn:Hp.
    + right. exists rotation, x, y. split; [left|]. split; [exact Hp|].
      now apply (try_rotations_first part board [] rotation rest r x y).
    + assert (Estep :
        Nester.try_rotations self ptr (Part.width part) (Part.height part)
          (Part.rotation part) (rotation :: rest) (Part.set_rotation part r) board =
        Nester.try_rotations self ptr (Part.width part) (Part.height part)
          (Part.rotation part) rest (Part.set_rotation part rotation) board).
      { simpl. unfold position_for in Hp.
        change (Part.get_rotated_dimensions
                  (Part.set_rotation (Part.set_rotation part r) rotation) rotation)
          with (Part.get_rotated_dimensions part rotation).
        destruct (Part.get_rotated_dimensions part rotation) as [w h].
        now rewrite Hp. }
      rewrite Estep.
      destruct (IH rotation) as [E | (rot & x & y & Hin & Hq & E)];
        [left; exact E|].
      right. exists rot, x, y. split; [now right|]. split; assumption.
Qed.
End TryPlacePart.

(** C5 at two inputs: a part of 150 by 50 that fits a board of 60 by 200
    only when turned, and a part of 300 by 300 that does not fit at all. *)
Lemma try_place_part_rotations_witness :
  let self := Nester.mk (mkSettings 0 true 60000) in
  let part := Part.mk "a" "ply" 150 50 "any" [0; 90]%Z 0 0 0 (-1) in
  let big := Part.mk "b" "ply" 300 300 "any" [0; 90]%Z 0 0 0 (-1) in
  let board := Board.new 1 "ply" 60 200 in
  (Nester.try_place_part self 0 part board).1.2 =
    Part.mk "a" "ply" 150 50 "any" [0; 90]%Z 0 0 90 1 ∧
  Nester.try_place_part self 0 big board = (false, big, board).
Proof.
  intros self part big board. split.
  - rewrite (proj1 (try_place_part_rotations self 0%nat part board)
               [0%Z] 90%Z [] 0 0); [reflexivity | reflexivity | | reflexivity].
    constructor; [reflexivity | constructor].
  - apply (proj1 (proj2 (try_place_part_rotations self 0%nat big board))).
    constructor; [reflexivity|]. constructor; [reflexivity | constructor].
Defined.

Section Passes.
Context `{StdSort}.
Variable self : Nester.t.

Lemma try_place_part_outcome (ptr : nat) (part : Part.t) (board : Board.t) :
  Nester.try_place_part self ptr part board = (false, part, board) ∨
  ∃ rotation x y,
    rotation ∈ Part.allowed_rotations part ∧
    position_for self board part rotation = Some (x, y) ∧
    Nester.try_place_part self ptr part board =
    (true,
     (Board.add_part board ptr (Part.set_rotation part rotation) x y
        (kerf_width (Nester.settings_ self))).1,
     (Board.add_part board ptr (Part.set_rotation part rotation) x y
        (kerf_width (Nester.settings_ self))).2).
Proof.
  rewrite try_place_part_unfold. apply try_rotations_outcome.
Qed.

Lemma add_part_unfold (b : Board.t) (ptr : nat) (part : Part.t) (x y kerf : Q) :
  let part' := Part.set_board_id (Part.set_y (Part.set_x part x) y) (Board.id b) in
  Board.add_part b ptr part x y kerf =
  (part',
   Board.mk (Board.id b) (Board.material b) (Board.width b) (Board.height b)
     (std_sort Board.rect_less
        (Board.update_free (kerf_rect kerf part') (Board.free_rectangles b) []))
     (Board.placed_parts b ++ [ptr])).
Proof.
  unfold Board.add_part, kerf_rect. simpl.
  now destruct (Part.get_rotated_dimensions _ _).
Qed.

Variables (board_count : Z) (total_parts : nat).

(** The two ways a step ends: the part stays queued and nothing else
    changes, or it is placed on the current board. *)
Lemma place_step_outcome (ptr : nat) (part : Part.t) (st : Nester.pass_state) :
  Nester.ps_parts st !! ptr = Some part →
  let step := Nester.place_step self board_count total_parts ptr part st in
  let board := Nester.ps_current_board st in
  (step = Nester.mkPass (Nester.ps_parts st) board
            (Nester.ps_parts_for_next_board st ++ [ptr])
            (Nester.ps_placed_count st) (Nester.ps_cout st)) ∨
  (∃ rotation x y,
     rotation ∈ Part.allowed_rotations part ∧
     position_for self board part rotation = Some (x, y) ∧
     let part' :=
       Part.set_board_id (Part.set_y (Part.set_x (Part.set_rotation part rotation) x) y)
                         (Board.id board) in
     Nester.ps_parts step = <[ptr := part']> (Nester.ps_parts st) ∧
     Nester.ps_current_board step =
       Board.mk (Board.id board) (Board.material board)
         (Board.width board) (Board.height board)
         (std_sort Board.rect_less
            (Board.update_free
               (kerf_rect (kerf_width (Nester.settings_ self)) part')
               (Board.free_rectangles board) []))
         (Board.placed_parts board ++ [ptr]) ∧
     Nester.ps_parts_for_next_board step = Nester.ps_parts_for_next_board st ∧
     Nester.ps_placed_count step = S (Nester.ps_placed_count st)).
Proof.
  intros Hl step board. subst step. unfold Nester.place_step. fold board.
  destruct (try_place_part_outcome ptr part board)
    as [E | (rotation & x & y & Hin & Hp & E)]; rewrite E.
  - left. now rewrite list_insert_id.
  - right. exists rotation, x, y. split; [exact Hin|]. split; [exact Hp|].
    rewrite add_part_unfold. simpl. auto.
Qed.

(** Induction over the pass. *)
Lemma place_pass_ind (P : list nat → Nester.pass_state → Prop) :
  (∀ ptr rest st, P (ptr :: rest) st → Nester.ps_parts st !! ptr = None → P rest st) →
  (∀ ptr rest st part,
     P (ptr :: rest) st → Nester.ps_parts st !! ptr = Some part →
     P rest (Nester.place_step self board_count total_parts ptr part st)) →
  ∀ remaining st,
    P remaining st →
    P [] (Nester.place_pass self board_count total_parts remaining st).
Proof.
  intros Hnone Hsome remaining.
  induction remaining as [|ptr rest IH]; intros st HP; simpl; [exact HP|].
  destruct (Nester.ps_parts st !! ptr) as [part|] eqn:E.
  - apply IH. now apply Hsome.
  - apply IH. now apply Hnone with ptr.
Qed.

Lemma place_step_frames (ptr : nat) (part : Part.t) (st : Nester.pass_state) :
  Nester.ps_parts st !! ptr = Some part →
  frame <$> Nester.ps_parts
              (Nester.place_step self board_count total_parts ptr part st) =
  frame <$> Nester.ps_parts st.
Proof.
  intros Hl.
  destruct (place_step_outcome ptr part st Hl)
    as [-> | (rotation & x & y & _ & _ & -> & _)]; [reflexivity|].
  rewrite list_fmap_insert. apply list_insert_id.
  rewrite list_lookup_fmap, Hl. reflexivity.
Qed.

Lemma place_pass_frames (remaining : list nat) (st : Nester.pass_state) :
  frame <$> Nester.ps_parts
              (Nester.place_pass self board_count total_parts remaining st) =
  frame <$> Nester.ps_parts st.
Proof.
  apply (place_pass_ind
           (λ _ st', frame <$> Nester.ps_parts st' = frame <$> Nester.ps_parts st));
    [auto | | reflexivity].
  intros ptr rest st' part HP Hl. now rewrite place_step_frames.
Qed.

(** Every pointer of the queue ends on the board or in the next queue. *)
Lemma place_pass_count (remaining : list nat) (st : Nester.pass_state) :
  let ps := Nester.place_pass self board_count total_parts remaining st in
  (length (Nester.ps_parts_for_next_board ps) +
   length (Board.placed_parts (Nester.ps_current_board ps)) <=
   length (Nester.ps_parts_for_next_board st) +
   length (Board.placed_parts (Nester.ps_current_board st)) +
   length remaining)%nat.
Proof.
  set (P := λ (rem : list nat) st',
              (length (Nester.ps_parts_for_next_board st') +
               length (Board.placed_parts (Nester.ps_current_board st')) +
               length rem <=
               length (Nester.ps_parts_for_next_board st) +
               length (Board.placed_parts (Nester.ps_current_board st)) +
               length remaining)%nat).
  enough (HP : P [] (Nester.place_pass self board_count total_parts remaining st))
    by (unfold P in HP; simpl in *; lia).
  apply place_pass_ind; unfold P.
  - intros ptr rest st' HP _. simpl in HP. lia.
  - intros ptr rest st' part HP Hl. simpl in HP.
    destruct (place_step_outcome ptr part st' Hl)
      as [-> | (rotation & x & y & _ & _ & _ & -> & -> & _)]; simpl.
    + rewrite length_app. simpl. lia.
    + rewrite length_app. simpl. lia.
  - lia.
Qed.

(** A pass that leaves the board without parts has changed nothing but
    the queue for the next board, which is the queue it was given. *)
Lemma place_pass_nothing (remaining : list nat) (st : Nester.pass_state) :
  Forall (λ ptr, is_Some (Nester.ps_parts st !! ptr)) remaining →
  let ps := Nester.place_pass self board_count total_parts remaining st in
  Board.placed_parts (Nester.ps_current_board ps) = [] →
  ps = Nester.mkPass (Nester.ps_parts st) (Nester.ps_current_board st)
         (Nester.ps_parts_for_next_board st ++ remaining)
         (Nester.ps_placed_count st) (Nester.ps_cout st).
Proof.
  intros Hv.
  set (P := λ (rem : list nat) st',
              Forall (λ ptr, is_Some (Nester.ps_parts st !! ptr)) rem ∧
              (Board.placed_parts (Nester.ps_current_board st') = [] →
               ∃ done,
                 remaining = done ++ rem ∧
                 st' = Nester.mkPass (Nester.ps_parts st)
                         (Nester.ps_current_board st)
                         (Nester.ps_parts_for_next_board st ++ done)
                         (Nester.ps_placed_count st) (Nester.ps_cout st))).
  enough (HP : P [] (Nester.place_pass self board_count total_parts remaining st)).
  { intros ps He. destruct HP as [_ HP].
    destruct (HP He) as (done & Hd & E). rewrite app_nil_r in Hd.
    subst done. exact E. }
  apply place_pass_ind; unfold P.
  - intros ptr rest st' [Hr HP] Hl. split; [now inversion Hr|].
    intros He. destruct (HP He) as (done & -> & ->). simpl in Hl.
    apply Forall_cons in Hr. destruct Hr as [[part Hr] _]. congruence.
  - intros ptr rest st' part [Hr HP] Hl. split; [now inversion Hr|].
    destruct (place_step_outcome ptr part st' Hl)
      as [-> | (rotation & x & y & _ & _ & _ & -> & _)]; simpl.
    + intros He. destruct (HP He) as (done & -> & ->). simpl.
      exists (done ++ [ptr]). rewrite <- !app_assoc. auto.
    + intros He. now apply app_nil in He.
  - split; [exact Hv|]. intros _. exists []. rewrite app_nil_r.
    now destruct st.
Qed.
End Passes.

(** * The nester: the loop over boards *)

Section NestLoop.
Context `{StdSort}.
Variables (self : Nester.t) (material : string) (board_width board_height : Q).
Variable total_parts : nat.

Lemma nest_loop_done (fuel : nat) (st : Nester.state) :
  Nester.remaining_parts st = [] →
  Nester.nest_loop self material board_width board_height total_parts fuel st =
  Some st.
Proof. intros E. destruct fuel; simpl; now rewrite E. Qed.

(** The pass placed nothing: the diagnostic, and the loop is left. *)
Lemma nest_loop_break (fuel : nat) (st : Nester.state) ptr rest :
  Nester.remaining_parts st = ptr :: rest →
  Board.placed_parts (Nester.ps_current_board (Nester.board_pass self material board_width board_height
       total_parts st)) = [] →
  Nester.nest_loop self material board_width board_height total_parts (S fuel) st =
  Some (Nester.mkState (Nester.ps_parts (Nester.board_pass self material board_width board_height
       total_parts st)) (Nester.boards st)
          (Nester.remaining_parts st) (Nester.board_count st + 1)%Z
          (Nester.ps_placed_count (Nester.board_pass self material board_width board_height
       total_parts st)) (Nester.ps_cout (Nester.board_pass self material board_width board_height
       total_parts st))
          (match Nester.ps_parts (Nester.board_pass self material board_width board_height
       total_parts st) !! ptr with
           | Some problem_part =>
               Nester.cerr st ++
               [MsgUnplaceable (Part.id problem_part) (Part.width problem_part)
                  (Part.height problem_part) board_width board_height material]
           | None => Nester.cerr st
           end)).
Proof.
  intros E He. simpl. rewrite E, <- E. now rewrite bool_decide_eq_true_2.
Qed.

(** The pass placed a part: the board is kept and the loop goes on with
    the parts that are left. *)
Lemma nest_loop_continue (fuel : nat) (st : Nester.state) :
  Nester.remaining_parts st ≠ [] →
  Board.placed_parts (Nester.ps_current_board (Nester.board_pass self material board_width board_height
       total_parts st)) ≠ [] →
  Nester.nest_loop self material board_width board_height total_parts (S fuel) st =
  Nester.nest_loop self material board_width board_height total_parts fuel
    (Nester.mkState (Nester.ps_parts (Nester.board_pass self material board_width board_height
       total_parts st))
       (Nester.boards st ++ [Nester.ps_current_board (Nester.board_pass self material board_width board_height
       total_parts st)])
       (Nester.ps_parts_for_next_board (Nester.board_pass self material board_width board_height
       total_parts st))
       (Nester.board_count st + 1)%Z
       (Nester.ps_placed_count (Nester.board_pass self material board_width board_height
       total_parts st)) (Nester.ps_cout (Nester.board_pass self material board_width board_height
       total_parts st))
       (Nester.cerr st)).
Proof.
  intros E He. simpl. destruct (Nester.remaining_parts st) eqn:Er; [done|].
  rewrite <- Er. now rewrite bool_decide_eq_false_2.
Qed.

(** A pass that places a part leaves fewer parts than it was given. *)
Lemma pass_progress (st : Nester.state) :
  Board.placed_parts
    (Nester.ps_current_board
       (Nester.board_pass self material board_width board_height total_parts st)) =
  [] ∨
  (length (Nester.ps_parts_for_next_board
             (Nester.board_pass self material board_width board_height
                total_parts st)) <
   length (Nester.remaining_parts st))%nat.
Proof.
  unfold Nester.board_pass.
  pose proof (place_pass_count self (Nester.board_count st + 1)%Z total_parts
                (Nester.remaining_parts st)
                (Nester.mkPass (Nester.parts st)
                   (Board.new (Nester.board_count st + 1)%Z material
                      board_width board_height)
                   [] (Nester.placed_count st) (Nester.cout st))) as Hc.
  cbv zeta in Hc. simpl in Hc.
  destruct (Board.placed_parts _); [now left | right]. simpl in Hc. lia.
Qed.

Lemma nest_loop_terminates (fuel : nat) (st : Nester.state) :
  (length (Nester.remaining_parts st) <= fuel)%nat →
  ∃ st',
    Nester.nest_loop self material board_width board_height total_parts fuel st =
    Some st' ∧
    (Nester.board_count st <= Nester.board_count st' <=
     Nester.board_count st + Z.of_nat (length (Nester.remaining_parts st)))%Z.
Proof.
  revert st. induction fuel as [|fuel IH]; intros st Hf.
  - destruct (Nester.remaining_parts st) eqn:E; [|simpl in Hf; lia].
    exists st. rewrite nest_loop_done by assumption. split; [reflexivity | lia].
  - destruct (Nester.remaining_parts st) as [|ptr rest] eqn:E.
    { exists st. rewrite nest_loop_done by assumption. split; [reflexivity | lia]. }
    destruct (decide (Board.placed_parts
                        (Nester.ps_current_board (Nester.board_pass self material board_width board_height
       total_parts st)) = [])) as [He|He].
    { rewrite (nest_loop_break fuel st ptr rest E He).
      eexists. split; [reflexivity|].
      cbn [Nester.board_count length]. lia. }
    destruct (pass_progress st) as [He' | Hlt]; [done|].
    rewrite nest_loop_continue by (rewrite ?E; done).
    rewrite E in Hlt. cbn [length] in Hf, Hlt.
    edestruct IH as (st' & -> & Hb); [|exists st'; split; [reflexivity|]].
    + cbn [Nester.remaining_parts]. lia.
    + cbn [Nester.remaining_parts Nester.board_count length] in *. lia.
Qed.

Lemma nest_loop_frames (fuel : nat) (st st' : Nester.state) :
  Nester.nest_loop self material board_width board_height total_parts fuel st =
  Some st' →
  frame <$> Nester.parts st' = frame <$> Nester.parts st.
Proof.
  revert st. induction fuel as [|fuel IH]; intros st.
  - simpl. destruct (Nester.remaining_parts st); [|discriminate].
    now intros [= ->].
  - destruct (Nester.remaining_parts st) as [|ptr rest] eqn:E.
    { rewrite nest_loop_done by assumption. now intros [= ->]. }
    destruct (decide (Board.placed_parts
                        (Nester.ps_current_board (Nester.board_pass self material board_width board_height
       total_parts st)) = [])) as [He|He].
    + rewrite (nest_loop_break fuel st ptr rest E He). intros [= <-]. simpl.
      apply place_pass_frames.
    + rewrite nest_loop_continue by (rewrite ?E; done).
      intros E'. apply IH in E'. simpl in E'. rewrite E'.
      apply place_pass_frames.
Qed.

End NestLoop.


(** * The free rectangles under [add_part] *)

Lemma inside_refl r : inside r r.
Proof. unfold inside. lra. Qed.


Lemma inside_trans a b c : inside a b → inside b c → inside a c.
Proof. unfold inside. lra. Qed.

(** The pieces of a subtraction are pairwise disjoint and within the
    original, whatever the two rectangles. *)
Lemma subtract_rect_always original cut :
  pairwise_disjoint (subtract_rect original cut) ∧
  Forall (inside original) (subtract_rect original cut).
Proof.
  rewrite subtract_rect_unfold. cbv zeta.
  pose proof (dmax_bounds (Rect.x original) (Rect.x cut)) as Hx1.
  pose proof (dmax_bounds (Rect.y original) (Rect.y cut)) as Hy1.
  pose proof (dmin_bounds (Rect.right original) (Rect.right cut)) as Hx2.
  pose proof (dmin_bounds (Rect.bottom original) (Rect.bottom cut)) as Hy2.
  unfold left_piece, right_piece, bottom_piece, top_piece.
  change (dmax (Rect.x original) (Rect.x cut))
    with (Box.x1 (intersection original cut)) in Hx1.
  change (dmax (Rect.y original) (Rect.y cut))
    with (Box.y1 (intersection original cut)) in Hy1.
  change (dmin (Rect.right original) (Rect.right cut))
    with (Box.x2 (intersection original cut)) in Hx2.
  change (dmin (Rect.bottom original) (Rect.bottom cut))
    with (Box.y2 (intersection original cut)) in Hy2.
  set (i := intersection original cut) in *. clearbody i.
  unfold pairwise_disjoint.
  destruct (_ || _) eqn:E.
  { split; [repeat constructor|]. constructor; [apply inside_refl | constructor]. }
  qprop.
  destruct (Rect.x original <? Box.x1 i) eqn:E1,
           (Box.x2 i <? Rect.right original) eqn:E2,
           (Rect.y original <? Box.y1 i) eqn:E3,
           (Box.y2 i <? Rect.bottom original) eqn:E4; qprop; simpl;
    split;
    repeat first [ apply FOP_nil | apply FOP_cons | apply Forall_nil
                 | apply Forall_cons_2 ];
    try (apply intersects_false_iff); unfold inside, Rect.right, Rect.bottom in *;
    simpl; lra.
Qed.




(** What one free rectangle becomes when [placed_rect] is placed. *)
Lemma update_free_flat placed_rect free_rects updated :
  Board.update_free placed_rect free_rects updated =
  updated ++
  flat_map (λ free_rect,
              if intersects free_rect placed_rect
              then List.filter Rect.is_valid (subtract_rect free_rect placed_rect)
              else [free_rect])
           free_rects.
Proof.
  revert updated. induction free_rects as [|f rest IH]; intros updated; simpl.
  - now rewrite app_nil_r.
  - rewrite IH. destruct (intersects f placed_rect); now rewrite <- app_assoc.
Qed.





(** * The invariant of a board under a placement *)



Lemma Forall_perm_rects (P : Rect.t → Prop) l l' :
  Permutation l l' → Forall P l → Forall P l'.
Proof. intros Hp. now rewrite Hp. Qed.





Section Placement.
Context `{StdSort}.
Variable self : Nester.t.

(** Where [try_place_part] puts a part: on a board without parts by the
    full-sheet rule, or at the corner of a free rectangle, within that
    rectangle and within the board. *)
Lemma position_for_place (b : Board.t) (part : Part.t) (rotation : Z) (x y : Q) :
  Forall (inside (board_rect b)) (Board.free_rectangles b) →
  position_for self b part rotation = Some (x, y) →
  let part' :=
    Part.set_board_id (Part.set_y (Part.set_x (Part.set_rotation part rotation) x) y)
                      (Board.id b) in
  let k := kerf_rect (kerf_width (Nester.settings_ self)) part' in
  (Board.placed_parts b = [] ∧ x = 0 ∧ y = 0 ∧
   Qabs ((Part.get_rotated_dimensions part' (Part.rotation part')).1 -
         Board.width b) < 1 # 10 ∧
   Qabs ((Part.get_rotated_dimensions part' (Part.rotation part')).2 -
         Board.height b) < 1 # 10) ∨
  (∃ f, f ∈ Board.free_rectangles b ∧ inside f k ∧ inside (board_rect b) k).
Proof.
  intros Hin Hp part' k. unfold position_for in Hp.
  assert (Ed : Part.get_rotated_dimensions part' (Part.rotation part') =
               Part.get_rotated_dimensions part rotation) by reflexivity.
  subst k. unfold kerf_rect. rewrite Ed.
  destruct (Part.get_rotated_dimensions part rotation) as [w h].
  set (kerf := kerf_width (Nester.settings_ self)) in *.
  destruct (bool_decide (Board.placed_parts b = []) &&
            (Qabs (w - Board.width b) <? 1 # 10) &&
            (Qabs (h - Board.height b) <? 1 # 10)) eqn:Ef.
  - left. apply full_sheet_iff in Ef. destruct Ef as (He & Hw & Hh).
    rewrite find_best_position_full in Hp by (split; auto).
    injection Hp as <- <-. simpl. auto.
  - right. rewrite find_best_position_scan in Hp
      by (rewrite <- full_sheet_iff; congruence).
    apply first_fit_some in Hp.
    destruct Hp as (before & f & after & E & _ & Hq & -> & ->).
    assert (Hf : f ∈ Board.free_rectangles b).
    { rewrite E. apply elem_of_app. right. left. }
    exists f. split; [exact Hf|].
    rewrite Forall_forall in Hin. specialize (Hin f Hf).
    unfold inside, qualifies, board_rect, Rect.right, Rect.bottom in *.
    simpl in *. lra.
Qed.

End Placement.


(** * The invariant of the boards through [nest_parts] *)

Section Invariant.
Context `{StdSort}.
Variables (self : Nester.t) (material : string) (board_width board_height : Q).
Variable total_parts : nat.
Hypothesis kerf_nonneg : 0 <= kerf_width (Nester.settings_ self).
Hypothesis board_width_pos : 0 < board_width.
Hypothesis board_height_pos : 0 < board_height.



End Invariant.


(** * [nest_parts] *)

Section NestParts.
Context `{StdSort}.
Variables (self : Nester.t) (material : string) (board_width board_height : Q).

(** The state in which [nest_parts] enters its loop. *)
Lemma nest_parts_run (parts : list Part.t) :
  let sorted := std_sort Nester.area_greater parts in
  let init :=
    Nester.mkState sorted [] (seq 0 (length sorted)) 0 0
      [MsgStarting (length sorted) material] [] in
  ∃ st,
    Nester.nest_loop self material board_width board_height (length sorted)
      (length sorted) init = Some st ∧
    (0 <= Nester.board_count st <= Z.of_nat (length parts))%Z ∧
    Nester.nest_parts self parts material board_width board_height =
    Some (Nester.mkResult (Nester.boards st) (Nester.parts st)
            (Nester.cout st ++
             [MsgComplete (Nester.placed_count st) (length sorted)
                (length (Nester.boards st))])
            (Nester.cerr st)).
Proof.
  intros sorted init.
  destruct (nest_loop_terminates self material board_width board_height
              (length sorted) (length sorted) init) as (st & Hrun & Hb).
  { subst init. cbn [Nester.remaining_parts]. now rewrite length_seq. }
  exists st. split; [exact Hrun|]. split.
  - subst init. cbn [Nester.remaining_parts Nester.board_count] in Hb.
    rewrite length_seq in Hb.
    assert (Hlen : length sorted = length parts)
      by apply Permutation_length, std_sort_perm.
    rewrite Hlen in Hb. lia.
  - unfold Nester.nest_parts. fold sorted. rewrite length_seq.
    fold init. now rewrite Hrun.
Qed.

(** C9: [nest_parts] returns for every list of parts.  A turn of its loop
    either ends with no part on the board, which leaves the loop, or
    hands a strictly shorter queue to the next turn; so with as much fuel
    as there are parts queued the loop ends, after at most that many
    turns (the board counter counts them). *)
Theorem nest_parts_terminates :
  (∀ parts : list Part.t,
     ∃ r, Nester.nest_parts self parts material board_width board_height = Some r) ∧
  (∀ (total_parts : nat) (st : Nester.state),
     Board.placed_parts
       (Nester.ps_current_board
          (Nester.board_pass self material board_width board_height
             total_parts st)) = [] ∨
     (length (Nester.ps_parts_for_next_board
                (Nester.board_pass self material board_width board_height
                   total_parts st)) <
      length (Nester.remaining_parts st))%nat) ∧
  (∀ (total_parts fuel : nat) (st : Nester.state),
     (length (Nester.remaining_parts st) <= fuel)%nat →
     ∃ st',
       Nester.nest_loop self material board_width board_height total_parts
         fuel st = Some st' ∧
       (Nester.board_count st <= Nester.board_count st' <=
        Nester.board_count st + Z.of_nat (length (Nester.remaining_parts st)))%Z) ∧
  (∀ parts : list Part.t,
     ∃ st,
       Nester.nest_loop self material board_width board_height (length parts)
         (length parts)
         (Nester.mkState (std_sort Nester.area_greater parts) []
            (seq 0 (length parts)) 0 0 [MsgStarting (length parts) material] []) =
       Some st ∧
       (0 <= Nester.board_count st <= Z.of_nat (length parts))%Z).
Proof.
  split; [|split; [|split]].
  - intros parts. destruct (nest_parts_run parts) as (st & _ & _ & E). eauto.
  - intros total_parts st. apply pass_progress.
  - intros total_parts fuel st. apply nest_loop_terminates.
  - intros parts. destruct (nest_parts_run parts) as (st & Hrun & Hb & _).
    assert (Hlen : length (std_sort Nester.area_greater parts) = length parts)
      by apply Permutation_length, std_sort_perm.
    rewrite Hlen in Hrun. eauto.
Qed.

(** C8: [nest_parts] leaves the caller's parts in the order of the sort,
    each with its id, material, width, height, grain direction and
    allowed rotations as before the call; only x, y, rotation and
    board_id may differ. *)
Theorem nest_parts_frame (parts : list Part.t) :
  ∃ r,
    Nester.nest_parts self parts material board_width board_height = Some r ∧
    frame <$> Nester.res_parts r = frame <$> std_sort Nester.area_greater parts ∧
    Permutation (frame <$> Nester.res_parts r) (frame <$> parts) ∧
    length (Nester.res_parts r) = length parts.
Proof.
  destruct (nest_parts_run parts) as (st & Hrun & _ & E).
  eexists. split; [exact E|]. cbn [Nester.res_parts].
  apply nest_loop_frames in Hrun. cbn [Nester.parts] in Hrun.
  split; [exact Hrun|].
  assert (Hp : Permutation (frame <$> Nester.parts st) (frame <$> parts)).
  { rewrite Hrun. apply fmap_Permutation, std_sort_perm. }
  split; [exact Hp|].
  apply Permutation_length in Hp. now rewrite !length_fmap in Hp.
Qed.
End NestParts.

Section Unplaceable.
Context `{StdSort}.
Variables (self : Nester.t) (material : string) (board_width board_height : Q).


(** A turn of the loop that places nothing: the diagnostic for the first
    part of the queue, the boards as they were, and the loop is left. *)
Lemma nest_loop_unplaceable (total_parts fuel : nat) (st : Nester.state)
    (ptr : nat) (rest : list nat) (part : Part.t) :
  Nester.remaining_parts st = ptr :: rest →
  Forall (λ q, is_Some (Nester.parts st !! q)) (Nester.remaining_parts st) →
  Nester.parts st !! ptr = Some part →
  Board.placed_parts
    (Nester.ps_current_board
       (Nester.board_pass self material board_width board_height
          total_parts st)) = [] →
  Nester.nest_loop self material board_width board_height total_parts
    (S fuel) st =
  Some (Nester.mkState (Nester.parts st) (Nester.boards st)
          (Nester.remaining_parts st) (Nester.board_count st + 1)%Z
          (Nester.placed_count st) (Nester.cout st)
          (Nester.cerr st ++
           [MsgUnplaceable (Part.id part) (Part.width part) (Part.height part)
              board_width board_height material])).
Proof.
  intros E Hv Hl He.
  rewrite (nest_loop_break _ _ _ _ _ fuel st ptr rest E He).
  unfold Nester.board_pass in *.
  rewrite (place_pass_nothing self _ total_parts (Nester.remaining_parts st)
             (Nester.mkPass (Nester.parts st)
                (Board.new (Nester.board_count st + 1)%Z material
                   board_width board_height)
                [] (Nester.placed_count st) (Nester.cout st)) Hv He).
  cbn [Nester.ps_parts Nester.ps_placed_count Nester.ps_cout]. now rewrite Hl.
Qed.


End Unplaceable.

(** C9 and C4 at a part of 300 by 300 and a board of 200 by 100. *)
Lemma nest_parts_terminates_witness :
  ∃ st',
    Nester.nest_loop (Nester.mk (mkSettings 0 true 60000)) "ply" 200 100 1 1
      (Nester.mkState [Part.mk "b" "ply" 300 300 "any" [0; 90]%Z 0 0 0 (-1)] []
         [0%nat] 0 0 [] []) = Some st' ∧
    (0 <= Nester.board_count st' <= 0 + Z.of_nat 1)%Z.
Proof.
  apply (proj1 (proj2 (proj2
           (nest_parts_terminates (Nester.mk (mkSettings 0 true 60000))
              "ply" 200 100))) 1%nat 1%nat
           (Nester.mkState [Part.mk "b" "ply" 300 300 "any" [0; 90]%Z 0 0 0 (-1)]
              [] [0%nat] 0 0 [] [])).
  simpl. lia.
Defined.



(** * Two parts of 100 by 100 on a board of 200 by 100 *)

Section TwoParts.
Context `{StdSort}.

Lemma std_sort_nil {A : Type} (lt : A → A → bool) : std_sort lt [] = [].
Proof. apply Permutation_nil. symmetry. apply std_sort_perm. Qed.

Lemma std_sort_singleton {A : Type} (lt : A → A → bool) (a : A) :
  std_sort lt [a] = [a].
Proof. apply Permutation_length_1_inv. symmetry. apply std_sort_perm. Qed.

Lemma std_sort_pair {A : Type} (lt : A → A → bool) (a b : A) :
  std_sort lt [a; b] = [a; b] ∨ std_sort lt [a; b] = [b; a].
Proof. apply Permutation_length_2_inv. symmetry. apply std_sort_perm. Qed.

Variables (allow : bool) (timeout : Z) (material : string).

Lemma square_dimensions (p : Part.t) (rot : Z) :
  Part.width p = 100 → Part.height p = 100 →
  Part.get_rotated_dimensions p rot = (100, 100).
Proof.
  intros Hw Hh. unfold Part.get_rotated_dimensions.
  rewrite Hw, Hh. now destruct (_ || _).
Qed.

(** The first rotation of a square part is taken when it yields a
    position. *)
Lemma try_place_part_head (self : Nester.t) (ptr : nat) (part : Part.t)
    (board : Board.t) rotation rest x y :
  Part.allowed_rotations part = rotation :: rest →
  position_for self board part rotation = Some (x, y) →
  Nester.try_place_part self ptr part board =
  (true,
   Part.set_board_id (Part.set_y (Part.set_x (Part.set_rotation part rotation) x) y)
     (Board.id board),
   Board.mk (Board.id board) (Board.material board) (Board.width board)
     (Board.height board)
     (std_sort Board.rect_less
        (Board.update_free
           (kerf_rect (kerf_width (Nester.settings_ self))
              (Part.set_board_id
                 (Part.set_y (Part.set_x (Part.set_rotation part rotation) x) y)
                 (Board.id board)))
           (Board.free_rectangles board) []))
     (Board.placed_parts board ++ [ptr])).
Proof.
  intros E Hp. rewrite try_place_part_unfold, E.
  rewrite (try_rotations_first self ptr part board [] rotation rest _ x y);
    [|constructor | exact Hp].
  now rewrite add_part_unfold.
Qed.

(** A step that places the part under its first rotation. *)
Lemma place_step_head (self : Nester.t) (board_count : Z) (total_parts : nat)
    (ptr : nat) (part : Part.t) (st : Nester.pass_state) rotation rest x y :
  Part.allowed_rotations part = rotation :: rest →
  position_for self (Nester.ps_current_board st) part rotation = Some (x, y) →
  Nester.place_step self board_count total_parts ptr part st =
  let board := Nester.ps_current_board st in
  let part' :=
    Part.set_board_id (Part.set_y (Part.set_x (Part.set_rotation part rotation) x) y)
      (Board.id board) in
  Nester.mkPass (<[ptr := part']> (Nester.ps_parts st))
    (Board.mk (Board.id board) (Board.material board) (Board.width board)
       (Board.height board)
       (std_sort Board.rect_less
          (Board.update_free (kerf_rect (kerf_width (Nester.settings_ self)) part')
             (Board.free_rectangles board) []))
       (Board.placed_parts board ++ [ptr]))
    (Nester.ps_parts_for_next_board st) (S (Nester.ps_placed_count st))
    (if (S (Nester.ps_placed_count st) mod 10 =? 0)%nat ||
        (S (Nester.ps_placed_count st) =? total_parts)%nat
     then Nester.ps_cout st ++
          [MsgProgress (S (Nester.ps_placed_count st)) total_parts board_count]
     else Nester.ps_cout st).
Proof.
  intros E Hp. unfold Nester.place_step.
  now rewrite (try_place_part_head self ptr part _ rotation rest x y E Hp).
Qed.

Lemma square_kerf_rect (p : Part.t) :
  Part.width p = 100 → Part.height p = 100 →
  kerf_rect 0 p = Rect.mk (Part.x p) (Part.y p) (100 + 0) (100 + 0).
Proof.
  intros Hw Hh. unfold kerf_rect. now rewrite square_dimensions.
Qed.

Lemma two_squares_run (q1 q2 : Part.t) (c : list Message) :
  Part.width q1 = 100 → Part.height q1 = 100 →
  Part.width q2 = 100 → Part.height q2 = 100 →
  Part.allowed_rotations q1 ≠ [] → Part.allowed_rotations q2 ≠ [] →
  ∃ q1' q2' c',
    Nester.nest_loop (Nester.mk (mkSettings 0 allow timeout)) material 200 100
      2 2 (Nester.mkState [q1; q2] [] [0; 1]%nat 0 0 c []) =
    Some (Nester.mkState [q1'; q2']
            [Board.mk 1 material 200 100 [] [0; 1]%nat] [] 1 2 c' []) ∧
    frame q1' = frame q1 ∧ frame q2' = frame q2 ∧
    Part.x q1' = 0 ∧ Part.y q1' = 0 ∧ Part.board_id q1' = 1%Z ∧
    Part.x q2' = 100 ∧ Part.y q2' = 0 ∧ Part.board_id q2' = 1%Z.
Proof.
  intros Hw1 Hh1 Hw2 Hh2 Hr1 Hr2.
  destruct (Part.allowed_rotations q1) as [|r1 rs1] eqn:E1; [done|].
  destruct (Part.allowed_rotations q2) as [|r2 rs2] eqn:E2; [done|].
  set (self := Nester.mk (mkSettings 0 allow timeout)).
  set (q1' := Part.set_board_id
                (Part.set_y (Part.set_x (Part.set_rotation q1 r1) 0) 0) 1).
  set (q2' := Part.set_board_id
                (Part.set_y (Part.set_x (Part.set_rotation q2 r2) 100) 0) 1).
  set (b0 := Board.new 1 material 200 100).
  set (b1 := Board.mk 1 material 200 100 [Rect.mk 100 0 100 100] [0%nat]).
  set (b2 := Board.mk 1 material 200 100 [] [0; 1]%nat).
  assert (Estep1 :
    Nester.place_step self 1 2 0 q1 (Nester.mkPass [q1; q2] b0 [] 0 c) =
    Nester.mkPass [q1'; q2] b1 [] 1 c).
  { rewrite (place_step_head self 1 2 0 q1 _ r1 rs1 0 0 E1).
    2:{ unfold position_for. rewrite square_dimensions by assumption.
        reflexivity. }
    cbv zeta. cbn [Nester.ps_current_board Nester.ps_parts
      Nester.ps_parts_for_next_board Nester.ps_placed_count Nester.ps_cout
      Board.id Board.material Board.width Board.height Board.free_rectangles
      Board.placed_parts b0 Board.new self Nester.settings_ kerf_width].
    fold q1'. rewrite (square_kerf_rect q1' Hw1 Hh1).
    change (Board.update_free (Rect.mk (Part.x q1') (Part.y q1') (100 + 0) (100 + 0))
              [Rect.mk 0 0 200 100] [])
      with [Rect.mk 100 0 100 100].
    now rewrite std_sort_singleton. }
  assert (Estep2 :
    Nester.place_step self 1 2 1 q2 (Nester.mkPass [q1'; q2] b1 [] 1 c) =
    Nester.mkPass [q1'; q2'] b2 [] 2 (c ++ [MsgProgress 2 2 1])).
  { rewrite (place_step_head self 1 2 1 q2 _ r2 rs2 100 0 E2).
    2:{ unfold position_for. rewrite square_dimensions by assumption.
        reflexivity. }
    cbv zeta. cbn [Nester.ps_current_board Nester.ps_parts
      Nester.ps_parts_for_next_board Nester.ps_placed_count Nester.ps_cout
      Board.id Board.material Board.width Board.height Board.free_rectangles
      Board.placed_parts b1 self Nester.settings_ kerf_width].
    fold q2'. rewrite (square_kerf_rect q2' Hw2 Hh2).
    change (Board.update_free (Rect.mk (Part.x q2') (Part.y q2') (100 + 0) (100 + 0))
              [Rect.mk 100 0 100 100] [])
      with (@nil Rect.t).
    now rewrite std_sort_nil. }
  assert (Epass :
    Nester.board_pass self material 200 100 2
      (Nester.mkState [q1; q2] [] [0; 1]%nat 0 0 c []) =
    Nester.mkPass [q1'; q2'] b2 [] 2 (c ++ [MsgProgress 2 2 1])).
  { unfold Nester.board_pass. cbn [Nester.board_count Nester.remaining_parts
      Nester.parts Nester.placed_count Nester.cout].
    change (0 + 1)%Z with 1%Z. fold b0.
    cbn [Nester.place_pass Nester.ps_parts lookup list_lookup].
    rewrite Estep1. cbn [Nester.ps_parts lookup list_lookup].
    now rewrite Estep2. }
  exists q1', q2', (c ++ [MsgProgress 2 2 1]).
  split; [|repeat split; reflexivity].
  rewrite nest_loop_continue.
  - rewrite Epass. now apply nest_loop_done.
  - done.
  - now rewrite Epass.
Qed.

(** C7: a board of 200 by 100, kerf 0, two parts of 100 by 100, each
    with a rotation allowed: [nest_parts] returns one board with both
    parts on it, the first of the sorted parts at (0, 0) and the second at
    (100, 0), and the waste of the board is 0. *)
Theorem two_squares_one_board (p1 p2 : Part.t) :
  Part.width p1 = 100 → Part.height p1 = 100 →
  Part.width p2 = 100 → Part.height p2 = 100 →
  Part.allowed_rotations p1 ≠ [] → Part.allowed_rotations p2 ≠ [] →
  ∃ r b q1 q2,
    Nester.nest_parts (Nester.mk (mkSettings 0 allow timeout)) [p1; p2]
      material 200 100 = Some r ∧
    Nester.res_boards r = [b] ∧
    Board.placed_parts b = [0; 1]%nat ∧
    Nester.res_parts r = [q1; q2] ∧
    Permutation [frame q1; frame q2] [frame p1; frame p2] ∧
    Part.x q1 = 0 ∧ Part.y q1 = 0 ∧ Part.board_id q1 = Board.id b ∧
    Part.x q2 = 100 ∧ Part.y q2 = 0 ∧ Part.board_id q2 = Board.id b ∧
    Board.waste_percentage (Nester.res_parts r) b == 0 ∧
    Nester.res_cerr r = [].
Proof.
  intros Hw1 Hh1 Hw2 Hh2 Hr1 Hr2.
  assert (Hrun : ∃ s1 s2 q1 q2 c',
    (s1 = p1 ∧ s2 = p2 ∨ s1 = p2 ∧ s2 = p1) ∧
    Nester.nest_parts (Nester.mk (mkSettings 0 allow timeout)) [p1; p2]
      material 200 100 =
    Some (Nester.mkResult [Board.mk 1 material 200 100 [] [0; 1]%nat]
            [q1; q2] c' []) ∧
    frame q1 = frame s1 ∧ frame q2 = frame s2 ∧
    Part.x q1 = 0 ∧ Part.y q1 = 0 ∧ Part.board_id q1 = 1%Z ∧
    Part.x q2 = 100 ∧ Part.y q2 = 0 ∧ Part.board_id q2 = 1%Z).
  { unfold Nester.nest_parts.
    destruct (std_sort_pair Nester.area_greater p1 p2) as [-> | ->];
      cbn [length seq].
    - destruct (two_squares_run p1 p2 [MsgStarting 2 material])
        as (q1 & q2 & c' & -> & Hrest); try assumption.
      exists p1, p2, q1, q2. eexists. split; [now left|].
      split; [reflexivity | exact Hrest].
    - destruct (two_squares_run p2 p1 [MsgStarting 2 material])
        as (q1 & q2 & c' & -> & Hrest); try assumption.
      exists p2, p1, q1, q2. eexists. split; [now right|].
      split; [reflexivity | exact Hrest]. }
  destruct Hrun as (s1 & s2 & q1 & q2 & c' & Hs & -> & Hf1 & Hf2 & Hpos).
  eexists. exists (Board.mk 1 material 200 100 [] [0; 1]%nat), q1, q2.
  split; [reflexivity|]. cbn [Nester.res_boards Nester.res_parts Nester.res_cerr
    Board.placed_parts Board.id].
  split; [reflexivity|]. split; [reflexivity|]. split; [reflexivity|].
  split.
  { rewrite Hf1, Hf2. destruct Hs as [[-> ->] | [-> ->]];
      [reflexivity | apply perm_swap]. }
  assert (Hd : Part.width q1 = 100 ∧ Part.height q1 = 100 ∧
               Part.width q2 = 100 ∧ Part.height q2 = 100).
  { unfold frame in Hf1, Hf2. injection Hf1 as _ _ -> -> _ _.
    injection Hf2 as _ _ -> -> _ _.
    destruct Hs as [[-> ->] | [-> ->]]; auto. }
  destruct Hd as (Hq1w & Hq1h & Hq2w & Hq2h).
  repeat (split; [tauto|]). split; [|reflexivity].
  unfold Board.waste_percentage, Board.used_area.
  cbn [Board.placed_parts Board.width Board.height fold_left lookup list_lookup].
  unfold Part.area. rewrite Hq1w, Hq1h, Hq2w, Hq2h. reflexivity.
Qed.
End TwoParts.

Lemma two_squares_one_board_witness :
  ∃ r,
    Nester.nest_parts (Nester.mk (mkSettings 0 true 60000))
      [Part.mk "a" "ply" 100 100 "any" [0; 90]%Z 0 0 0 (-1);
       Part.mk "b" "ply" 100 100 "fixed" [0]%Z 0 0 0 (-1)] "ply" 200 100 = Some r ∧
    length (Nester.res_boards r) = 1%nat.
Proof.
  destruct (two_squares_one_board true 60000 "ply"
              (Part.mk "a" "ply" 100 100 "any" [0; 90]%Z 0 0 0 (-1))
              (Part.mk "b" "ply" 100 100 "fixed" [0]%Z 0 0 0 (-1)))
    as (r & b & q1 & q2 & Hrun & Hb & _); try reflexivity; try discriminate.
  exists r. split; [exact Hrun|]. now rewrite Hb.
Defined.


(** * The boards that [nest_parts] returns *)

Section Boards.
Context `{StdSort}.


End Boards.




(** * More on the geometry *)











(** * More on the board *)

Lemma find_best_position_new (id_ : Z) (mat : string) (bw bh w h kerf : Q) :
  (fits_empty kerf bw bh w h →
   Board.find_best_position (Board.new id_ mat bw bh) w h kerf = Some (0, 0)) ∧
  (¬ fits_empty kerf bw bh w h →
   Board.find_best_position (Board.new id_ mat bw bh) w h kerf = None).
Proof.
  set (b := Board.new id_ mat bw bh).
  assert (Hq : qualifies b (w + kerf) (h + kerf) (Rect.mk 0 0 bw bh) ↔
               w + kerf <= bw ∧ h + kerf <= bh).
  { unfold qualifies. simpl. split; [tauto|]. intros [H1 H2].
    repeat split; try assumption; lra. }
  assert (Hdec : full_sheet b w h ∨ ¬ full_sheet b w h).
  { rewrite <- full_sheet_iff. destruct (_ && _); [now left | right; congruence]. }
  split.
  - intros Hfit. destruct Hdec as [Hf | Hf]; [now apply find_best_position_full|].
    destruct Hfit as [[H1 H2] | Hfit].
    { exfalso. apply Hf. split; [reflexivity | split; assumption]. }
    rewrite find_best_position_scan by assumption.
    change (Board.free_rectangles b) with [Rect.mk 0 0 bw bh].
    now rewrite (first_fit_here b _ _ (Rect.mk 0 0 bw bh) []) by (now apply Hq).
  - intros Hfit. destruct Hdec as [Hf | Hf].
    { exfalso. apply Hfit. left. apply Hf. }
    rewrite find_best_position_scan by assumption.
    apply first_fit_none. constructor; [|constructor].
    intros Hq'. apply Hfit. right. now apply Hq.
Qed.



Section AddPart.
Context `{StdSort}.

End AddPart.



(** * The bookkeeping of [nest_parts] *)

Section Cases.
Context `{StdSort}.
Variable self : Nester.t.

(** A call that fails has found no position under any rotation. *)
Lemma try_rotations_false_none (ptr : nat) (part : Part.t) (board : Board.t)
    rotations r part' board' :
  Nester.try_rotations self ptr (Part.width part) (Part.height part)
    (Part.rotation part) rotations (Part.set_rotation part r) board =
    (false, part', board') →
  Forall (λ rot, position_for self board part rot = None) rotations.
Proof.
  revert r. induction rotations as [|rotation rest IH]; intros r; [constructor|].
  destruct (position_for self board part rotation) as [[x y]|] eqn:Hp.
  - rewrite (try_rotations_first self ptr part board [] rotation rest r x y);
      [discriminate | constructor | exact Hp].
  - intros E. constructor; [exact Hp|]. apply (IH rotation).
    rewrite <- E. simpl. unfold position_for in Hp.
    change (Part.get_rotated_dimensions
              (Part.set_rotation (Part.set_rotation part r) rotation) rotation)
      with (Part.get_rotated_dimensions part rotation).
    destruct (Part.get_rotated_dimensions part rotation) as [w h].
    now rewrite Hp.
Qed.

(** The two ways a step of the pass ends, in full. *)
Lemma place_step_cases (board_count : Z) (total_parts : nat) (ptr : nat)
    (part : Part.t) (st : Nester.pass_state) :
  Nester.ps_parts st !! ptr = Some part →
  let board := Nester.ps_current_board st in
  (Forall (λ rot, position_for self board part rot = None)
          (Part.allowed_rotations part) ∧
   Nester.place_step self board_count total_parts ptr part st =
   Nester.mkPass (Nester.ps_parts st) board
     (Nester.ps_parts_for_next_board st ++ [ptr])
     (Nester.ps_placed_count st) (Nester.ps_cout st)) ∨
  (∃ rotation x y,
     rotation ∈ Part.allowed_rotations part ∧
     position_for self board part rotation = Some (x, y) ∧
     let part' :=
       Part.set_board_id
         (Part.set_y (Part.set_x (Part.set_rotation part rotation) x) y)
         (Board.id board) in
     Nester.place_step self board_count total_parts ptr part st =
     Nester.mkPass (<[ptr := part']> (Nester.ps_parts st))
       (Board.mk (Board.id board) (Board.material board)
          (Board.width board) (Board.height board)
          (std_sort Board.rect_less
             (Board.update_free
                (kerf_rect (kerf_width (Nester.settings_ self)) part')
                (Board.free_rectangles board) []))
          (Board.placed_parts board ++ [ptr]))
       (Nester.ps_parts_for_next_board st) (S (Nester.ps_placed_count st))
       (if (S (Nester.ps_placed_count st) mod 10 =? 0)%nat ||
           (S (Nester.ps_placed_count st) =? total_parts)%nat
        then Nester.ps_cout st ++
             [MsgProgress (S (Nester.ps_placed_count st)) total_parts board_count]
        else Nester.ps_cout st)).
Proof.
  intros Hl board. unfold Nester.place_step. fold board.
  destruct (try_place_part_outcome self ptr part board)
    as [E | (rotation & x & y & Hin & Hp & E)].
  - left. split.
    + rewrite try_place_part_unfold in E.
      now apply try_rotations_false_none in E.
    + rewrite E. now rewrite list_insert_id.
  - right. exists rotation, x, y. split; [exact Hin|]. split; [exact Hp|].
    rewrite E, add_part_unfold. reflexivity.
Qed.

(** The pass leaves the id, the material and the dimensions of the
    current board. *)
Lemma place_pass_board_fields (board_count : Z) (total_parts : nat)
    (queue : list nat) (st : Nester.pass_state) :
  let b := Nester.ps_current_board st in
  let b' := Nester.ps_current_board
              (Nester.place_pass self board_count total_parts queue st) in
  Board.id b' = Board.id b ∧ Board.material b' = Board.material b ∧
  Board.width b' = Board.width b ∧ Board.height b' = Board.height b.
Proof.
  intros b b'. subst b b'.
  set (P := λ (_ : list nat) (st' : Nester.pass_state),
              Board.id (Nester.ps_current_board st') =
              Board.id (Nester.ps_current_board st) ∧
              Board.material (Nester.ps_current_board st') =
              Board.material (Nester.ps_current_board st) ∧
              Board.width (Nester.ps_current_board st') =
              Board.width (Nester.ps_current_board st) ∧
              Board.height (Nester.ps_current_board st') =
              Board.height (Nester.ps_current_board st)).
  enough (HP : P [] (Nester.place_pass self board_count total_parts queue st))
    by exact HP.
  apply place_pass_ind; unfold P; [auto | | auto].
  intros ptr rest st' part HP Hl.
  destruct (place_step_cases board_count total_parts ptr part st' Hl)
    as [[_ ->] | (rotation & x & y & _ & _ & ->)]; simpl; exact HP.
Qed.

(** Once a part is on the current board, the pass ends with a part on
    it. *)
Lemma place_pass_placed (board_count : Z) (total_parts : nat)
    (queue : list nat) (st : Nester.pass_state) :
  Board.placed_parts (Nester.ps_current_board st) ≠ [] →
  Board.placed_parts
    (Nester.ps_current_board
       (Nester.place_pass self board_count total_parts queue st)) ≠ [].
Proof.
  set (P := λ (_ : list nat) (st' : Nester.pass_state),
              Board.placed_parts (Nester.ps_current_board st') ≠ []).
  intros Hne.
  enough (HP : P [] (Nester.place_pass self board_count total_parts queue st))
    by exact HP.
  apply place_pass_ind; unfold P; [auto | | auto].
  intros ptr rest st' part HP Hl.
  destruct (place_step_cases board_count total_parts ptr part st' Hl)
    as [[_ ->] | (rotation & x & y & _ & _ & ->)]; simpl; [exact HP|].
  intros E. now apply app_nil in E.
Qed.
End Cases.

Section Book.
Context `{StdSort}.
Variable self : Nester.t.
Variable parts0 : list Part.t.

Lemma placed_well_insert (parts : list Part.t) (b : Board.t) ptr p :
  ptr ∉ Board.placed_parts b →
  placed_well parts b → placed_well (<[ptr := p]> parts) b.
Proof.
  unfold placed_well. intros Hn Hw.
  rewrite Forall_forall in Hw |- *. intros q Hq.
  destruct (Hw q Hq) as (p' & Hl & Hrest). exists p'.
  split; [|exact Hrest]. rewrite list_lookup_insert_ne; [exact Hl|].
  intros ->. now apply Hn.
Qed.

Lemma placed_all_elem (boards : list Board.t) (b : Board.t) ptr :
  b ∈ boards → ptr ∈ Board.placed_parts b → ptr ∈ placed_all boards.
Proof.
  intros Hb Hp. unfold placed_all.
  induction Hb as [b boards | b b' boards Hb IH]; simpl;
    apply elem_of_app; [now left | right; now apply IH].
Qed.

(** The pointers of the queue are good. *)
Lemma pass_book_lookup (done : list Board.t) (ptr : nat) (rest : list nat)
    (st' : Nester.pass_state) :
  pass_book parts0 done (ptr :: rest) st' →
  Nester.ps_parts st' !! ptr = None → False.
Proof.
  intros (Hperm & Hlen & _) Hl. exfalso.
  assert (Hin : ptr ∈ seq 0 (length parts0)).
  { rewrite <- Hperm. rewrite !elem_of_app. right. right. right. left. }
  apply elem_of_seq in Hin. apply lookup_ge_None in Hl. lia.
Qed.

(** A step of the pass keeps the bookkeeping. *)
Lemma pass_book_step (board_count : Z) (total_parts : nat)
    (done : list Board.t) (ptr : nat) (rest : list nat)
    (st' : Nester.pass_state) (part : Part.t) :
  pass_book parts0 done (ptr :: rest) st' →
  Nester.ps_parts st' !! ptr = Some part →
  pass_book parts0 done rest
    (Nester.place_step self board_count total_parts ptr part st').
Proof.
  intros (Hperm & Hlen & Hq & Hd & Hc & Hn) Hl.
  assert (Hnd : NoDup (ptr :: placed_all done ++
                       Board.placed_parts (Nester.ps_current_board st') ++
                       Nester.ps_parts_for_next_board st' ++ rest)).
  { assert (Hp' : Permutation
              (ptr :: placed_all done ++
               Board.placed_parts (Nester.ps_current_board st') ++
               Nester.ps_parts_for_next_board st' ++ rest)
              (seq 0 (length parts0))).
    { rewrite <- Hperm. rewrite !app_assoc. apply Permutation_middle. }
    rewrite Hp'. apply NoDup_seq. }
  apply NoDup_cons in Hnd. destruct Hnd as [Hfresh Hnd].
  rewrite !elem_of_app in Hfresh.
  destruct (place_step_cases self board_count total_parts ptr part st' Hl)
    as [[_ ->] | (rotation & x & y & Hrot & _ & ->)].
  + unfold pass_book. simpl. rewrite <- app_assoc. simpl. tauto.
  + unfold pass_book. cbv zeta.
    cbn [Nester.ps_parts Nester.ps_current_board
         Nester.ps_parts_for_next_board Nester.ps_placed_count
         Board.placed_parts Board.id].
    split; [|split; [|split; [|split; [|split]]]].
    * rewrite <- Hperm. rewrite <- !app_assoc.
      apply Permutation_app_head, Permutation_app_head. simpl.
      apply Permutation_middle.
    * now rewrite length_insert.
    * rewrite <- Permutation_middle in Hq. apply Forall_cons in Hq.
      destruct Hq as [_ Hq]. rewrite Forall_forall in Hq |- *.
      intros q Hqin. rewrite list_lookup_insert_ne; [now apply Hq|].
      intros ->. apply Hfresh. right. right. now apply elem_of_app.
    * rewrite Forall_forall in Hd |- *. intros b Hb.
      apply placed_well_insert; [|now apply Hd].
      intros Hp. apply Hfresh. left. now apply placed_all_elem with b.
    * unfold placed_well. cbn [Board.placed_parts Board.id].
      apply Forall_app. split.
      -- apply (placed_well_insert _ (Nester.ps_current_board st'));
           [tauto | exact Hc].
      -- constructor; [|constructor]. eexists. split.
         ++ apply list_lookup_insert_eq. now apply lookup_lt_Some with part.
         ++ split; [reflexivity | exact Hrot].
    * rewrite Hn, !length_app. simpl. lia.
Qed.

Lemma place_pass_book (board_count : Z) (total_parts : nat)
    (done : list Board.t) (queue : list nat) (st : Nester.pass_state) :
  pass_book parts0 done queue st →
  pass_book parts0 done []
    (Nester.place_pass self board_count total_parts queue st).
Proof.
  apply (place_pass_ind self board_count total_parts (pass_book parts0 done)).
  - intros ptr rest st' Hb Hl. exfalso. exact (pass_book_lookup done ptr rest st' Hb Hl).
  - intros ptr rest st' part. apply pass_book_step.
Qed.
End Book.

Section LoopBook.
Context `{StdSort}.
Variables (self : Nester.t) (material : string) (board_width board_height : Q).
Variable total_parts : nat.

(** How the loop ends: from a state of the invariant, with an empty
    queue or through the turn that placed nothing. *)
Lemma nest_loop_exit (I : Nester.state → Prop) :
  (∀ st,
     I st → Nester.remaining_parts st ≠ [] →
     Board.placed_parts
       (Nester.ps_current_board
          (Nester.board_pass self material board_width board_height
             total_parts st)) ≠ [] →
     I (Nester.mkState
          (Nester.ps_parts
             (Nester.board_pass self material board_width board_height
                total_parts st))
          (Nester.boards st ++
           [Nester.ps_current_board
              (Nester.board_pass self material board_width board_height
                 total_parts st)])
          (Nester.ps_parts_for_next_board
             (Nester.board_pass self material board_width board_height
                total_parts st))
          (Nester.board_count st + 1)%Z
          (Nester.ps_placed_count
             (Nester.board_pass self material board_width board_height
                total_parts st))
          (Nester.ps_cout
             (Nester.board_pass self material board_width board_height
                total_parts st))
          (Nester.cerr st))) →
  ∀ fuel st st',
    Nester.nest_loop self material board_width board_height total_parts
      fuel st = Some st' →
    I st →
    ∃ st0,
      I st0 ∧
      ((Nester.remaining_parts st0 = [] ∧ st' = st0) ∨
       (∃ ptr rest,
          Nester.remaining_parts st0 = ptr :: rest ∧
          Board.placed_parts
            (Nester.ps_current_board
               (Nester.board_pass self material board_width board_height
                  total_parts st0)) = [] ∧
          Nester.nest_loop self material board_width board_height
            total_parts 1 st0 = Some st')).
Proof.
  intros Hstep fuel. induction fuel as [|fuel IH]; intros st st' Hrun HI.
  - simpl in Hrun. destruct (Nester.remaining_parts st) eqn:E; [|discriminate].
    injection Hrun as <-. exists st. split; [exact HI | now left].
  - destruct (Nester.remaining_parts st) as [|ptr rest] eqn:E.
    { rewrite nest_loop_done in Hrun by assumption. injection Hrun as <-.
      exists st. split; [exact HI | now left]. }
    destruct (decide (Board.placed_parts
                        (Nester.ps_current_board
                           (Nester.board_pass self material board_width
                              board_height total_parts st)) = [])) as [He|He].
    + exists st. split; [exact HI|]. right. exists ptr, rest.
      split; [exact E|]. split; [exact He|].
      rewrite (nest_loop_break _ _ _ _ _ fuel st ptr rest E He) in Hrun.
      now rewrite (nest_loop_break _ _ _ _ _ 0 st ptr rest E He).
    + rewrite nest_loop_continue in Hrun by (rewrite ?E; done).
      apply IH in Hrun; [exact Hrun|]. apply Hstep; [exact HI | | exact He].
      now rewrite E.
Qed.

Lemma placed_all_snoc (boards : list Board.t) (b : Board.t) :
  placed_all (boards ++ [b]) = placed_all boards ++ Board.placed_parts b.
Proof.
  unfold placed_all. rewrite fmap_app, concat_app. simpl.
  now rewrite app_nil_r.
Qed.

Variable parts0 : list Part.t.

(** The pass of a turn started under the bookkeeping of the loop. *)
Lemma board_pass_book (st : Nester.state) :
  nest_book parts0 material board_width board_height st →
  let ps := Nester.board_pass self material board_width board_height
              total_parts st in
  pass_book parts0 (Nester.boards st) [] ps ∧
  Board.id (Nester.ps_current_board ps) = (Nester.board_count st + 1)%Z ∧
  Board.material (Nester.ps_current_board ps) = material ∧
  Board.width (Nester.ps_current_board ps) = board_width ∧
  Board.height (Nester.ps_current_board ps) = board_height.
Proof.
  intros (Hperm & Hlen & Hq & Hw & Hn & _) ps. subst ps.
  unfold Nester.board_pass. split.
  - apply place_pass_book. unfold pass_book. simpl.
    split; [exact Hperm|]. split; [exact Hlen|]. split; [exact Hq|].
    split; [exact Hw|]. split; [constructor|]. now rewrite app_nil_r.
  - apply (place_pass_board_fields self).
Qed.

Lemma nest_book_step (st : Nester.state) :
  nest_book parts0 material board_width board_height st →
  Nester.remaining_parts st ≠ [] →
  Board.placed_parts
    (Nester.ps_current_board
       (Nester.board_pass self material board_width board_height
          total_parts st)) ≠ [] →
  nest_book parts0 material board_width board_height
    (Nester.mkState
       (Nester.ps_parts
          (Nester.board_pass self material board_width board_height
             total_parts st))
       (Nester.boards st ++
        [Nester.ps_current_board
           (Nester.board_pass self material board_width board_height
              total_parts st)])
       (Nester.ps_parts_for_next_board
          (Nester.board_pass self material board_width board_height
             total_parts st))
       (Nester.board_count st + 1)%Z
       (Nester.ps_placed_count
          (Nester.board_pass self material board_width board_height
             total_parts st))
       (Nester.ps_cout
          (Nester.board_pass self material board_width board_height
             total_parts st))
       (Nester.cerr st)).
Proof.
  intros Hbook _ _.
  destruct (board_pass_book st Hbook)
    as ((Hperm & Hlen & Hq & Hw & Hc & Hn) & Hid & Hmat & Hbw & Hbh).
  destruct Hbook as (_ & _ & _ & _ & _ & Hbc & Hids & Hattr & Hcerr).
  set (ps := Nester.board_pass self material board_width board_height
               total_parts st) in *.
  unfold nest_book. cbn [Nester.parts Nester.boards Nester.remaining_parts
    Nester.board_count Nester.placed_count Nester.cerr].
  rewrite placed_all_snoc, app_nil_r in *.
  split; [now rewrite <- app_assoc|]. split; [exact Hlen|]. split; [exact Hq|].
  split; [apply Forall_app; split; [exact Hw | now constructor]|].
  split; [exact Hn|].
  rewrite length_app. simpl.
  split; [lia|]. split.
  - rewrite fmap_app, Hids, Nat.add_1_r, seq_S, fmap_app. simpl.
    f_equal. f_equal. rewrite Hid. lia.
  - split; [|exact Hcerr]. apply Forall_app. split; [exact Hattr|].
    now constructor.
Qed.

(** The state in which the loop ends, against the last state of the
    invariant: boards, parts and queue are its own; the queue is empty
    and there is no diagnostic, or the pass over a fresh board placed
    nothing and the diagnostic is for the first part of the queue. *)
Lemma nest_book_final (fuel : nat) (st st' : Nester.state) :
  Nester.nest_loop self material board_width board_height total_parts
    fuel st = Some st' →
  nest_book parts0 material board_width board_height st →
  ∃ st0,
    nest_book parts0 material board_width board_height st0 ∧
    Nester.boards st' = Nester.boards st0 ∧
    Nester.parts st' = Nester.parts st0 ∧
    Nester.remaining_parts st' = Nester.remaining_parts st0 ∧
    Nester.placed_count st' = Nester.placed_count st0 ∧
    ((Nester.remaining_parts st0 = [] ∧ Nester.cerr st' = []) ∨
     (∃ ptr rest part,
        Nester.remaining_parts st0 = ptr :: rest ∧
        Nester.parts st0 !! ptr = Some part ∧
        Board.placed_parts
          (Nester.ps_current_board
             (Nester.board_pass self material board_width board_height
                total_parts st0)) = [] ∧
        Nester.cerr st' =
        [MsgUnplaceable (Part.id part) (Part.width part) (Part.height part)
           board_width board_height material])).
Proof.
  intros Hrun Hbook.
  destruct (nest_loop_exit (nest_book parts0 material board_width board_height)
              nest_book_step fuel st st' Hrun Hbook)
    as (st0 & Hb0 & [[He ->] | (ptr & rest & E & He & Hrun1)]).
  - exists st0. split; [exact Hb0|]. repeat (split; [reflexivity|]).
    left. split; [exact He | apply Hb0].
  - exists st0. split; [exact Hb0|].
    assert (Hv : Forall (λ q, is_Some (Nester.parts st0 !! q))
                        (Nester.remaining_parts st0)).
    { destruct Hb0 as (Hperm & Hlen & _). apply Forall_forall. intros q Hq.
      apply lookup_lt_is_Some. rewrite Hlen.
      assert (Hin : q ∈ seq 0 (length parts0)).
      { rewrite <- Hperm. apply elem_of_app. now right. }
      apply elem_of_seq in Hin. lia. }
    assert (Hl : is_Some (Nester.parts st0 !! ptr)).
    { rewrite Forall_forall in Hv. apply Hv. rewrite E. left. }
    destruct Hl as [part Hl].
    rewrite (nest_loop_unplaceable self material board_width board_height
               total_parts 0 st0 ptr rest part E Hv Hl He) in Hrun1.
    injection Hrun1 as <-.
    cbn [Nester.boards Nester.parts Nester.remaining_parts
         Nester.placed_count Nester.cerr].
    repeat (split; [reflexivity|]). right. exists ptr, rest, part.
    split; [exact E|]. split; [exact Hl|]. split; [exact He|].
    destruct Hb0 as (_ & _ & _ & _ & _ & _ & _ & _ & ->). reflexivity.
Qed.
End LoopBook.


(** * What [nest_parts] returns *)

Section Returns.
Context `{StdSort}.
Variables (self : Nester.t) (material : string) (board_width board_height : Q).

(** The call against the last state of the bookkeeping. *)
Lemma nest_parts_book (parts : list Part.t) :
  let sorted := std_sort Nester.area_greater parts in
  ∃ st0 r,
    Nester.nest_parts self parts material board_width board_height = Some r ∧
    nest_book sorted material board_width board_height st0 ∧
    length sorted = length parts ∧
    Nester.res_boards r = Nester.boards st0 ∧
    Nester.res_parts r = Nester.parts st0 ∧
    last (Nester.res_cout r) =
    Some (MsgComplete (Nester.placed_count st0) (length parts)
            (length (Nester.boards st0))) ∧
    ((Nester.remaining_parts st0 = [] ∧ Nester.res_cerr r = []) ∨
     (∃ ptr rest part,
        Nester.remaining_parts st0 = ptr :: rest ∧
        Nester.parts st0 !! ptr = Some part ∧
        Board.placed_parts
          (Nester.ps_current_board
             (Nester.board_pass self material board_width board_height
                (length sorted) st0)) = [] ∧
        Nester.res_cerr r =
        [MsgUnplaceable (Part.id part) (Part.width part) (Part.height part)
           board_width board_height material])).
Proof.
  intros sorted.
  destruct (nest_parts_run self material board_width board_height parts)
    as (st & Hrun & _ & E). fold sorted in Hrun, E.
  assert (Hlen : length sorted = length parts)
    by apply Permutation_length, std_sort_perm.
  destruct (nest_book_final self material board_width board_height
              (length sorted) sorted _ _ _ Hrun)
    as (st0 & Hb0 & Eb & Ep & Er & Ec & Hend).
  { unfold nest_book. simpl. split; [reflexivity|]. split; [reflexivity|].
    split; [now apply Forall_forall|]. split; [constructor|].
    split; [reflexivity|]. split; [reflexivity|]. split; [reflexivity|].
    split; [constructor | reflexivity]. }
  exists st0. eexists. split; [exact E|]. split; [exact Hb0|].
  split; [exact Hlen|].
  cbn [Nester.res_boards Nester.res_parts Nester.res_cout Nester.res_cerr].
  split; [exact Eb|]. split; [exact Ep|]. split; [|exact Hend].
  now rewrite last_snoc, Eb, Ec, Hlen.
Qed.

(** X6: the boards that [nest_parts] returns are numbered 1, 2, 3, ... in
    their order, and each has the material and the dimensions given to
    the call. *)
Theorem nest_parts_board_ids (parts : list Part.t) :
  ∃ r,
    Nester.nest_parts self parts material board_width board_height = Some r ∧
    Board.id <$> Nester.res_boards r =
    Z.of_nat <$> seq 1 (length (Nester.res_boards r)) ∧
    Forall (λ b, Board.material b = material ∧
                 Board.width b = board_width ∧ Board.height b = board_height)
           (Nester.res_boards r).
Proof.
  destruct (nest_parts_book parts) as (st0 & r & E & Hb & _ & Eb & _).
  exists r. split; [exact E|]. rewrite Eb. split; apply Hb.
Qed.

(** X7: no part is placed twice: the pointers on the returned boards are
    distinct and within the caller's vector; and [nest_parts] writes no
    diagnostic exactly when every part is on a board. *)
Theorem nest_parts_partition (parts : list Part.t) :
  ∃ r,
    Nester.nest_parts self parts material board_width board_height = Some r ∧
    NoDup (placed_all (Nester.res_boards r)) ∧
    Forall (λ ptr, (ptr < length parts)%nat) (placed_all (Nester.res_boards r)) ∧
    (Nester.res_cerr r = [] ↔
     Permutation (placed_all (Nester.res_boards r)) (seq 0 (length parts))).
Proof.
  destruct (nest_parts_book parts)
    as (st0 & r & E & Hb & Hlen & Eb & _ & _ & Hend).
  destruct Hb as (Hperm & _). rewrite Hlen in Hperm.
  exists r. split; [exact E|]. rewrite Eb.
  assert (Hnd : NoDup (placed_all (Nester.boards st0) ++
                       Nester.remaining_parts st0)).
  { rewrite Hperm. apply NoDup_seq. }
  split; [now apply NoDup_app in Hnd|]. split.
  - apply Forall_forall. intros q Hq.
    assert (Hin : q ∈ seq 0 (length parts)).
    { rewrite <- Hperm. apply elem_of_app. now left. }
    apply elem_of_seq in Hin. lia.
  - destruct Hend as [[He Ec] | (ptr & rest & part & He & _ & _ & Ec)];
      rewrite Ec.
    + rewrite He, app_nil_r in Hperm. split; [now intros _ | reflexivity].
    + split; [discriminate|]. intros Hp. exfalso.
      apply Permutation_length in Hperm, Hp.
      rewrite length_app, He in Hperm. simpl in Hperm. lia.
Qed.

(** X8: every part on a returned board carries the id of that board and
    a rotation from its allowed rotations; and a part that is on no board
    is in the caller's vector as the sort left it, with its x, y,
    rotation and board_id as they were. *)
Theorem nest_parts_placements (parts : list Part.t) :
  ∃ r,
    Nester.nest_parts self parts material board_width board_height = Some r ∧
    Forall (placed_well (Nester.res_parts r)) (Nester.res_boards r) ∧
    (∀ ptr, ptr ∉ placed_all (Nester.res_boards r) →
            Nester.res_parts r !! ptr =
            std_sort Nester.area_greater parts !! ptr).
Proof.
  destruct (nest_parts_book parts)
    as (st0 & r & E & Hb & Hlen & Eb & Ep & _ & _).
  destruct Hb as (Hperm & Hlen' & Hq & Hw & _).
  exists r. split; [exact E|]. rewrite Eb, Ep. split; [exact Hw|].
  intros ptr Hn.
  destruct (decide (ptr < length parts)%nat) as [Hlt | Hge].
  - assert (Hin : ptr ∈ placed_all (Nester.boards st0) ++
                        Nester.remaining_parts st0).
    { rewrite Hperm. apply elem_of_seq. lia. }
    apply elem_of_app in Hin. destruct Hin as [Hin | Hin]; [done|].
    rewrite Forall_forall in Hq. now apply Hq.
  - rewrite !lookup_ge_None_2; [reflexivity | lia | lia].
Qed.

(** X9: the last line [nest_parts] writes to [std::cout] reports the
    number of parts that are on the returned boards, the number of parts
    given, and the number of boards returned. *)
Theorem nest_parts_report (parts : list Part.t) :
  ∃ r,
    Nester.nest_parts self parts material board_width board_height = Some r ∧
    last (Nester.res_cout r) =
    Some (MsgComplete (length (placed_all (Nester.res_boards r)))
            (length parts) (length (Nester.res_boards r))).
Proof.
  destruct (nest_parts_book parts)
    as (st0 & r & E & Hb & _ & Eb & _ & Hlast & _).
  exists r. split; [exact E|]. rewrite Hlast, Eb.
  destruct Hb as (_ & _ & _ & _ & -> & _). reflexivity.
Qed.

(** The position of a part on a board without parts. *)
Lemma position_for_new (id_ : Z) (part : Part.t) (rot : Z) :
  (fits_empty (kerf_width (Nester.settings_ self)) board_width board_height
     (Part.get_rotated_dimensions part rot).1
     (Part.get_rotated_dimensions part rot).2 →
   position_for self (Board.new id_ material board_width board_height) part rot =
   Some (0, 0)) ∧
  (¬ fits_empty (kerf_width (Nester.settings_ self)) board_width board_height
       (Part.get_rotated_dimensions part rot).1
       (Part.get_rotated_dimensions part rot).2 →
   position_for self (Board.new id_ material board_width board_height) part rot =
   None).
Proof.
  unfold position_for.
  destruct (Part.get_rotated_dimensions part rot) as [w h].
  apply find_best_position_new.
Qed.

(** The first part of the queue meets the board without parts: if the
    pass places nothing, no allowed rotation of it fits the board. *)
Lemma board_pass_first (total_parts : nat) (st : Nester.state) ptr rest part :
  Nester.remaining_parts st = ptr :: rest →
  Nester.parts st !! ptr = Some part →
  Board.placed_parts
    (Nester.ps_current_board
       (Nester.board_pass self material board_width board_height
          total_parts st)) = [] →
  ¬ part_fits (kerf_width (Nester.settings_ self)) board_width board_height part.
Proof.
  intros E Hl. unfold Nester.board_pass. rewrite E.
  cbn [Nester.place_pass Nester.ps_parts]. rewrite Hl.
  set (init := Nester.mkPass _ _ _ _ _).
  destruct (place_step_cases self (Nester.board_count st + 1)%Z total_parts
              ptr part init Hl)
    as [[Hnone Estep] | (rotation & x & y & Hrot & Hp & Estep)];
    cbv zeta in *.
  - intros _ (rot & Hin & Hfit).
    rewrite Forall_forall in Hnone. specialize (Hnone rot Hin).
    cbn [Nester.ps_current_board init] in Hnone.
    rewrite (proj1 (position_for_new _ part rot) Hfit) in Hnone.
    discriminate.
  - intros He. exfalso. revert He. apply place_pass_placed.
    rewrite Estep. cbn [Nester.ps_current_board Board.placed_parts].
    intros Happ. now apply app_nil in Happ.
Qed.
End Returns.


(** * Which parts [nest_parts] places *)

(** Every free rectangle after the update lies within one of the free
    rectangles before it, whatever the rectangles. *)
Lemma update_free_inside placed_rect free_rects r :
  r ∈ Board.update_free placed_rect free_rects [] →
  ∃ f, f ∈ free_rects ∧ inside f r.
Proof.
  rewrite update_free_flat. simpl.
  rewrite list_elem_of_In, in_flat_map. intros (f & Hf & Hr).
  apply list_elem_of_In in Hf. exists f. split; [exact Hf|].
  destruct (intersects f placed_rect).
  - apply List.filter_In in Hr. destruct Hr as [Hr _].
    destruct (subtract_rect_always f placed_rect) as [_ Hin].
    rewrite Forall_forall in Hin. apply Hin. now apply list_elem_of_In.
  - destruct Hr as [<- | []]. apply inside_refl.
Qed.

Section Fit.
Context `{StdSort}.
Variables (self : Nester.t) (material : string) (board_width board_height : Q).
Variable parts0 : list Part.t.

(** A position on a board whose free rectangles lie within it is a
    position for dimensions that fit the board without parts. *)
Lemma position_for_fits (b : Board.t) (part : Part.t) (rotation : Z) (x y : Q) :
  Forall (inside (board_rect b)) (Board.free_rectangles b) →
  position_for self b part rotation = Some (x, y) →
  fits_empty (kerf_width (Nester.settings_ self)) (Board.width b) (Board.height b)
    (Part.get_rotated_dimensions part rotation).1
    (Part.get_rotated_dimensions part rotation).2.
Proof.
  intros Hin Hp.
  destruct (position_for_place self b part rotation x y Hin Hp)
    as [(_ & _ & _ & Hw & Hh) | (f & _ & _ & Hk)]; cbv zeta in *.
  - left. split; [exact Hw | exact Hh].
  - right. unfold inside, kerf_rect, board_rect, Rect.right, Rect.bottom in Hk.
    cbn [Rect.x Rect.y Rect.width Rect.height] in Hk.
    change (Part.get_rotated_dimensions
              (Part.set_board_id
                 (Part.set_y (Part.set_x (Part.set_rotation part rotation) x) y)
                 (Board.id b))
              (Part.rotation
                 (Part.set_board_id
                    (Part.set_y (Part.set_x (Part.set_rotation part rotation) x) y)
                    (Board.id b))))
      with (Part.get_rotated_dimensions part rotation) in Hk.
    cbn [Part.x Part.y Part.set_board_id Part.set_y Part.set_x] in Hk.
    lra.
Qed.

(** The pass places only parts that fit the board without parts, and
    keeps the free rectangles within the board. *)
Lemma place_pass_fit (board_count : Z) (total_parts : nat)
    (done : list Board.t) (queue : list nat) (st : Nester.pass_state) :
  pass_book parts0 done queue st →
  Forall (inside (board_rect (Nester.ps_current_board st)))
         (Board.free_rectangles (Nester.ps_current_board st)) →
  Forall (λ ptr, ∃ p, parts0 !! ptr = Some p ∧
                      part_fits (kerf_width (Nester.settings_ self))
                        (Board.width (Nester.ps_current_board st))
                        (Board.height (Nester.ps_current_board st)) p)
         (Board.placed_parts (Nester.ps_current_board st)) →
  Forall (λ ptr, ∃ p, parts0 !! ptr = Some p ∧
                      part_fits (kerf_width (Nester.settings_ self))
                        (Board.width (Nester.ps_current_board st))
                        (Board.height (Nester.ps_current_board st)) p)
         (Board.placed_parts
            (Nester.ps_current_board
               (Nester.place_pass self board_count total_parts queue st))).
Proof.
  intros Hbook Hin Hfit.
  set (bw := Board.width (Nester.ps_current_board st)) in *.
  set (bh := Board.height (Nester.ps_current_board st)) in *.
  set (P := λ (q : list nat) (st' : Nester.pass_state),
              pass_book parts0 done q st' ∧
              Forall (inside (board_rect (Nester.ps_current_board st')))
                     (Board.free_rectangles (Nester.ps_current_board st')) ∧
              Board.width (Nester.ps_current_board st') = bw ∧
              Board.height (Nester.ps_current_board st') = bh ∧
              Forall (λ ptr, ∃ p, parts0 !! ptr = Some p ∧
                                  part_fits (kerf_width (Nester.settings_ self))
                                    bw bh p)
                     (Board.placed_parts (Nester.ps_current_board st'))).
  enough (HP : P [] (Nester.place_pass self board_count total_parts queue st))
    by apply HP.
  apply place_pass_ind; unfold P; [| |auto].
  - intros ptr rest st' (Hb & _) Hl. exfalso.
    exact (pass_book_lookup parts0 done ptr rest st' Hb Hl).
  - intros ptr rest st' part (Hb & Hi & Hw & Hh & Hf) Hl.
    split; [now apply pass_book_step|].
    assert (Hsame : parts0 !! ptr = Some part).
    { destruct Hb as (_ & _ & Hq & _). rewrite <- Hl.
      rewrite Forall_forall in Hq. symmetry. apply Hq.
      apply elem_of_app. right. left. }
    destruct (place_step_cases self board_count total_parts ptr part st' Hl)
      as [[_ ->] | (rotation & x & y & Hrot & Hp & ->)]; cbv zeta;
      cbn [Nester.ps_current_board Board.free_rectangles Board.width
           Board.height Board.placed_parts]; [auto|].
    split; [|split; [exact Hw|split; [exact Hh|]]].
    + pose proof (std_sort_perm Board.rect_less
        (Board.update_free
           (kerf_rect (kerf_width (Nester.settings_ self))
              (Part.set_board_id
                 (Part.set_y (Part.set_x (Part.set_rotation part rotation) x) y)
                 (Board.id (Nester.ps_current_board st'))))
           (Board.free_rectangles (Nester.ps_current_board st')) [])) as Hperm.
      eapply Forall_perm_rects; [symmetry; exact Hperm|].
      apply Forall_forall. intros r Hr.
      apply update_free_inside in Hr. destruct Hr as (f & Hfin & Hfr).
      rewrite Forall_forall in Hi.
      exact (inside_trans _ f r (Hi f Hfin) Hfr).
    + apply Forall_app. split; [exact Hf|]. constructor; [|constructor].
      exists part. split; [exact Hsame|]. exists rotation.
      split; [exact Hrot|]. rewrite <- Hw, <- Hh.
      now apply position_for_fits with x y.
Qed.

Variable total_parts : nat.

(** The loop keeps, with its bookkeeping, that every part on a board fits
    the board without parts. *)
Lemma nest_loop_fit (fuel : nat) (st st' : Nester.state) :
  Nester.nest_loop self material board_width board_height total_parts
    fuel st = Some st' →
  nest_book parts0 material board_width board_height st →
  Forall (λ ptr, ∃ p, parts0 !! ptr = Some p ∧
                      part_fits (kerf_width (Nester.settings_ self))
                        board_width board_height p)
         (placed_all (Nester.boards st)) →
  Forall (λ ptr, ∃ p, parts0 !! ptr = Some p ∧
                      part_fits (kerf_width (Nester.settings_ self))
                        board_width board_height p)
         (placed_all (Nester.boards st')).
Proof.
  intros Hrun Hbook Hfit.
  set (I := λ s : Nester.state,
              nest_book parts0 material board_width board_height s ∧
              Forall (λ ptr, ∃ p, parts0 !! ptr = Some p ∧
                                  part_fits (kerf_width (Nester.settings_ self))
                                    board_width board_height p)
                     (placed_all (Nester.boards s))).
  destruct (nest_loop_exit self material board_width board_height total_parts I)
    with (fuel := fuel) (st := st) (st' := st')
    as (st0 & [Hb0 Hf0] & [[_ ->] | (ptr & rest & E & He & Hrun1)]);
    [| exact Hrun | split; assumption | exact Hf0 |].
  - intros s [Hb Hf] Hne Hpl. split; [now apply nest_book_step|].
    cbn [Nester.boards]. rewrite placed_all_snoc. apply Forall_app.
    split; [exact Hf|].
    destruct Hb as (Hperm & Hlen & Hq & Hw & Hn & _).
    apply (place_pass_fit (Nester.board_count s + 1)%Z total_parts
             (Nester.boards s) (Nester.remaining_parts s)
             (Nester.mkPass (Nester.parts s)
                (Board.new (Nester.board_count s + 1)%Z material
                   board_width board_height)
                [] (Nester.placed_count s) (Nester.cout s))).
    + unfold pass_book. simpl. split; [exact Hperm|]. split; [exact Hlen|].
      split; [exact Hq|]. split; [exact Hw|]. split; [constructor|].
      now rewrite app_nil_r.
    + constructor; [apply inside_refl | constructor].
    + constructor.
  - rewrite (nest_loop_break _ _ _ _ _ 0 st0 ptr rest E He) in Hrun1.
    injection Hrun1 as <-. exact Hf0.
Qed.

(** The part that the diagnostic of a turn names fits no board without
    parts, and is a part of [parts0], untouched. *)
Lemma nest_book_unfit (st : Nester.state) ptr rest part :
  nest_book parts0 material board_width board_height st →
  Nester.remaining_parts st = ptr :: rest →
  Nester.parts st !! ptr = Some part →
  Board.placed_parts
    (Nester.ps_current_board
       (Nester.board_pass self material board_width board_height
          total_parts st)) = [] →
  part ∈ parts0 ∧
  ¬ part_fits (kerf_width (Nester.settings_ self)) board_width board_height part.
Proof.
  intros (_ & _ & Hq & _) E Hl He. split.
  - rewrite Forall_forall in Hq. rewrite Hq in Hl by (rewrite E; left).
    now apply list_elem_of_lookup_2 with ptr.
  - now apply (board_pass_first self material board_width board_height
                 total_parts st ptr rest part E Hl).
Qed.
End Fit.

Section Diagnostic.
Context `{StdSort}.
Variables (self : Nester.t) (material : string) (board_width board_height : Q).

(** The end of a call: every part on a board fits the board without
    parts; and there is no diagnostic and every part is on a board, or
    the diagnostic names a part of the input that does not fit. *)
Lemma nest_parts_end (parts : list Part.t) :
  ∃ r,
    Nester.nest_parts self parts material board_width board_height = Some r ∧
    Forall (λ ptr, ∃ p, std_sort Nester.area_greater parts !! ptr = Some p ∧
                        part_fits (kerf_width (Nester.settings_ self))
                          board_width board_height p)
           (placed_all (Nester.res_boards r)) ∧
    ((Nester.res_cerr r = [] ∧
      Permutation (placed_all (Nester.res_boards r)) (seq 0 (length parts))) ∨
     (∃ part,
        part ∈ parts ∧
        Nester.res_cerr r =
        [MsgUnplaceable (Part.id part) (Part.width part) (Part.height part)
           board_width board_height material] ∧
        ¬ part_fits (kerf_width (Nester.settings_ self))
            board_width board_height part)).
Proof.
  destruct (nest_parts_book self material board_width board_height parts)
    as (st0 & r & E & Hb & Hlen & Eb & Ep & _ & Hend). cbv zeta in *.
  exists r. split; [exact E|]. split.
  - destruct (nest_parts_run self material board_width board_height parts)
      as (st & Hrun & _ & E'). cbv zeta in *.
    rewrite E in E'. injection E' as ->.
    cbn [Nester.res_boards].
    apply (nest_loop_fit self material board_width board_height
             (std_sort Nester.area_greater parts) _ _ _ _ Hrun).
    + unfold nest_book. simpl. split; [reflexivity|]. split; [reflexivity|].
      split; [now apply Forall_forall|]. split; [constructor|].
      split; [reflexivity|]. split; [reflexivity|]. split; [reflexivity|].
      split; [constructor | reflexivity].
    + constructor.
  - destruct Hend as [[He Ec] | (ptr & rest & part & He & Hl & Hpl & Ec)].
    + left. split; [exact Ec|]. rewrite Eb.
      destruct Hb as (Hperm & _). now rewrite He, app_nil_r, Hlen in Hperm.
    + right. exists part.
      destruct (nest_book_unfit self material board_width board_height
                  _ _ st0 ptr rest part Hb He Hl Hpl) as [Hin Hnf].
      split; [now rewrite std_sort_perm in Hin|]. split; [exact Ec | exact Hnf].
Qed.


End Diagnostic.



(** * The two comparators *)

(** The comparator of the sort in [nest_parts] is a strict weak ordering. *)
Lemma area_greater_order : strict_weak_order Nester.area_greater.
Proof.
  unfold Nester.area_greater. split.
  - intros a. apply Qlt_bool_false. lra.
  - intros a b c. rewrite !Qlt_bool_iff. lra.
  - intros a b c. rewrite !Qlt_bool_false. lra.
Qed.

Lemma frame_area (a b : Part.t) : frame a = frame b → Part.area a = Part.area b.
Proof.
  unfold frame, Part.area. intros E. injection E as _ _ -> -> _ _. reflexivity.
Qed.

Lemma sorted_frames (l l' : list Part.t) :
  frame <$> l = frame <$> l' →
  StronglySorted (λ a b, Part.area b <= Part.area a) l →
  StronglySorted (λ a b, Part.area b <= Part.area a) l'.
Proof.
  revert l'. induction l as [|a l IH]; intros [|a' l'] E Hs;
    try discriminate; [constructor|].
  assert (Ea : frame a = frame a') by (cbn [fmap list_fmap] in E; congruence).
  assert (El : frame <$> l = frame <$> l') by (cbn [fmap list_fmap] in E; congruence).
  clear E. inversion Hs as [|? ? Hs' Ha]; subst.
  constructor; [now apply IH|].
  rewrite <- (frame_area a a' Ea).
  clear -Ha El. revert l' El.
  induction Ha as [|b l Hb Ha IH]; intros [|b' l'] El; try discriminate;
    [constructor|].
  assert (Eb : frame b = frame b') by (cbn [fmap list_fmap] in El; congruence).
  assert (El' : frame <$> l = frame <$> l') by (cbn [fmap list_fmap] in El; congruence).
  constructor; [|now apply IH].
  now rewrite <- (frame_area b b' Eb).
Qed.

Lemma strongly_sorted_impl {A : Type} (R R' : A → A → Prop) (l : list A) :
  (∀ a b, R a b → R' a b) → StronglySorted R l → StronglySorted R' l.
Proof.
  intros Himp. induction 1 as [|a l Hs IH Ha]; constructor; [exact IH|].
  eapply Forall_impl; [exact Ha|]. intros b. apply Himp.
Qed.

Section Sorted.
Context `{StdSort}.
Variables (self : Nester.t) (material : string) (board_width board_height : Q).

(** X12: [nest_parts] leaves the caller's vector in descending order of
    area: no part has a larger area than a part before it. *)
Theorem nest_parts_sorted (parts : list Part.t) :
  ∃ r,
    Nester.nest_parts self parts material board_width board_height = Some r ∧
    StronglySorted (λ a b, Part.area b <= Part.area a) (Nester.res_parts r).
Proof.
  destruct (nest_parts_run self material board_width board_height parts)
    as (st & Hrun & _ & E). cbv zeta in *.
  eexists. split; [exact E|]. cbn [Nester.res_parts].
  apply nest_loop_frames in Hrun. cbn [Nester.parts] in Hrun.
  apply (sorted_frames (std_sort Nester.area_greater parts)); [now symmetry|].
  pose proof (std_sort_sorted Nester.area_greater parts area_greater_order) as Hs.
  eapply strongly_sorted_impl; [|exact Hs].
  intros a b Hab. simpl in Hab. unfold Nester.area_greater in Hab.
  now apply Qlt_bool_false in Hab.
Qed.
End Sorted.

(** X13: the comparator of the sort in [add_part] is irreflexive and
    asymmetric, but it is not a strict weak ordering: with the tolerance of
    0.01 on y, rectangles at y = 0 and y = 0.006 are equivalent, and so are
    those at y = 0.006 and y = 0.012, while the one at y = 0 comes before
    the one at y = 0.012. *)
Theorem rect_less_not_weak_order :
  (∀ a, Board.rect_less a a = false) ∧
  (∀ a b, Board.rect_less a b = true → Board.rect_less b a = false) ∧
  ¬ strict_weak_order Board.rect_less.
Proof.
  split; [|split].
  - intros a. unfold Board.rect_less.
    destruct (_ <? _); apply Qlt_bool_false; lra.
  - intros a b. unfold Board.rect_less.
    rewrite (Qabs_Qminus (Rect.y b) (Rect.y a)).
    destruct (Qabs (Rect.y a - Rect.y b) <? 1 # 100);
      rewrite Qlt_bool_iff, Qlt_bool_false; lra.
  - intros [_ _ Hinc].
    destruct (Hinc (Rect.mk 0 0 10 10) (Rect.mk 0 (6 # 1000) 10 10)
                (Rect.mk 0 (12 # 1000) 10 10)) as [Hac _];
      try reflexivity. discriminate Hac.
Qed.


(** * The account of the area of a board *)














Section PlacementArea.
Context `{StdSort}.
Variable self : Nester.t.

End PlacementArea.

Section AreaInvariant.
Context `{StdSort}.
Variables (self : Nester.t) (material : string) (board_width board_height : Q).
Variable total_parts : nat.
Hypothesis kerf_nonneg : 0 <= kerf_width (Nester.settings_ self).
Hypothesis board_width_pos : 0 < board_width.
Hypothesis board_height_pos : 0 < board_height.



End AreaInvariant.





Section Account.
Context `{StdSort}.
Variables (self : Nester.t) (material : string) (board_width board_height : Q).
Hypothesis kerf_nonneg : 0 <= kerf_width (Nester.settings_ self).
Hypothesis board_width_pos : 0 < board_width.
Hypothesis board_height_pos : 0 < board_height.

End Account.






(** * main.cpp: the JSON reader *)

(** ** Strings and positions *)

Lemma append_cons (c : ascii) (s1 s2 : string) :
  String.append (String c s1) s2 = String c (String.append s1 s2).
Proof. reflexivity. Qed.

Lemma append_nil (s : string) : String.append "" s = s.
Proof. reflexivity. Qed.

Lemma string_length_append (s1 s2 : string) :
  String.length (String.append s1 s2) = (String.length s1 + String.length s2)%nat.
Proof.
  induction s1 as [|c s1 IH]; [reflexivity|].
  rewrite append_cons. simpl. now rewrite IH.
Qed.

Lemma string_append_assoc (s1 s2 s3 : string) :
  String.append (String.append s1 s2) s3 = String.append s1 (String.append s2 s3).
Proof.
  induction s1 as [|c s1 IH]; [reflexivity|].
  rewrite !append_cons. now rewrite IH.
Qed.

Lemma string_append_empty (s : string) : String.append s "" = s.
Proof.
  induction s as [|c s IH]; [reflexivity|]. rewrite append_cons. now rewrite IH.
Qed.

(** The character at the end of a prefix. *)
Lemma char_at_prefix (pre : string) (c : ascii) (rest : string) :
  char_at (String.append pre (String c rest)) (String.length pre) = c.
Proof.
  unfold char_at. induction pre as [|d pre IH]; [reflexivity|].
  rewrite append_cons. simpl. exact IH.
Qed.

Lemma char_at_past (json : string) (pos : nat) :
  (String.length json <= pos)%nat → char_at json pos = nul_char.
Proof.
  unfold char_at. revert pos. induction json as [|c json IH]; intros pos Hle.
  - now destruct pos.
  - destruct pos as [|pos]; simpl in *; [lia|]. apply IH. lia.
Qed.

Lemma isspace_nul : isspace nul_char = false.
Proof. reflexivity. Qed.

(** ** [skip_whitespace], [peek], [consume], [match] *)

Section Positions.
Variable json : string.

Lemma skip_whitespace_loop_ge (fuel pos : nat) :
  (pos <= SimpleJSON.skip_whitespace_loop fuel json pos)%nat.
Proof.
  revert pos. induction fuel as [|fuel IH]; intros pos; simpl; [lia|].
  destruct (_ && _); [|lia]. specialize (IH (S pos)). lia.
Qed.

(** Where a character that is no space stands, nothing is skipped. *)
Lemma skip_whitespace_loop_stay (fuel pos : nat) :
  isspace (char_at json pos) = false →
  SimpleJSON.skip_whitespace_loop fuel json pos = pos.
Proof.
  intros Hs. destruct fuel; simpl; [reflexivity|].
  now rewrite Hs, andb_false_r.
Qed.

(** With the fuel of [skip_whitespace] the loop ends by its condition:
    at the end of the text or at a character that is no space. *)
Lemma skip_whitespace_loop_end (fuel pos : nat) :
  (String.length json - pos <= fuel)%nat →
  isspace (char_at json (SimpleJSON.skip_whitespace_loop fuel json pos)) = false.
Proof.
  revert pos. induction fuel as [|fuel IH]; intros pos Hf; simpl.
  - rewrite char_at_past by lia. reflexivity.
  - destruct (pos <? String.length json)%nat eqn:Hlt; simpl.
    + destruct (isspace (char_at json pos)) eqn:Hs; [|exact Hs].
      apply IH. lia.
    + apply Nat.ltb_ge in Hlt. rewrite char_at_past by lia. reflexivity.
Qed.

Lemma skip_whitespace_ge (pos : nat) :
  (pos <= SimpleJSON.skip_whitespace json pos)%nat.
Proof. apply skip_whitespace_loop_ge. Qed.

Lemma skip_whitespace_end (pos : nat) :
  isspace (char_at json (SimpleJSON.skip_whitespace json pos)) = false.
Proof. now apply skip_whitespace_loop_end. Qed.

Lemma skip_whitespace_stay (pos : nat) :
  isspace (char_at json pos) = false → SimpleJSON.skip_whitespace json pos = pos.
Proof. apply skip_whitespace_loop_stay. Qed.

Lemma skip_whitespace_twice (pos : nat) :
  SimpleJSON.skip_whitespace json (SimpleJSON.skip_whitespace json pos) =
  SimpleJSON.skip_whitespace json pos.
Proof. apply skip_whitespace_stay, skip_whitespace_end. Qed.

(** [peek] moves forward only; a character other than NUL is in the
    text; and a [consume] after it takes that character. *)
Lemma peek_spec (pos : nat) (c : ascii) (pos' : nat) :
  SimpleJSON.peek json pos = (c, pos') →
  (pos <= pos')%nat ∧
  SimpleJSON.skip_whitespace json pos' = pos' ∧
  (c ≠ nul_char → (pos' < String.length json)%nat ∧ c = char_at json pos' ∧
                  SimpleJSON.consume json pos' = (c, S pos')).
Proof.
  unfold SimpleJSON.peek. intros [= <- <-].
  split; [apply skip_whitespace_ge|].
  split; [apply skip_whitespace_twice|].
  intros Hc. unfold SimpleJSON.consume. rewrite skip_whitespace_twice.
  destruct (_ <? _)%nat eqn:Hlt; [|done].
  apply Nat.ltb_lt in Hlt. done.
Qed.

Lemma consume_ge (pos : nat) :
  (pos <= (SimpleJSON.consume json pos).2)%nat.
Proof.
  unfold SimpleJSON.consume. pose proof (skip_whitespace_ge pos).
  destruct (_ <? _)%nat; simpl; lia.
Qed.

(** [match] moves forward only, and past a character when it answers
    true for a character other than NUL. *)
Lemma match_spec (pos : nat) (c : ascii) :
  (pos <= (SimpleJSON.match_ json pos c).2)%nat ∧
  ((SimpleJSON.match_ json pos c).1 = true → c ≠ nul_char →
   (pos < (SimpleJSON.match_ json pos c).2 <= String.length json)%nat).
Proof.
  unfold SimpleJSON.match_.
  destruct (SimpleJSON.peek json pos) as [p pos1] eqn:Ep.
  apply peek_spec in Ep as (Hge & _ & Hin).
  destruct (Ascii.eqb_spec p c) as [->|Hne]; simpl; [|split; [lia|done]].
  destruct (SimpleJSON.consume json pos1) as [d pos2] eqn:Ec. simpl.
  pose proof (consume_ge pos1) as Hc. rewrite Ec in Hc. simpl in Hc.
  split; [lia|]. intros _ Hnul.
  destruct (Hin Hnul) as (Hlt & _ & Ec'). injection Ec' as _ ->. lia.
Qed.

Lemma parse_string_loop_ge (fuel pos : nat) (result : string) :
  (pos <= (SimpleJSON.parse_string_loop fuel json pos result).2)%nat.
Proof.
  revert pos result. induction fuel as [|fuel IH]; intros pos result; simpl;
    [lia|].
  destruct (_ && negb _); [|simpl; lia].
  destruct (_ && _).
  - specialize (IH (S (S pos))
                  (String.append result
                     (String (if Ascii.eqb (char_at json (S pos)) "n"
                              then newline_char
                              else if Ascii.eqb (char_at json (S pos)) "r"
                              then return_char
                              else if Ascii.eqb (char_at json (S pos)) "t"
                              then tab_char
                              else char_at json (S pos)) ""))). lia.
  - specialize (IH (S pos)
                  (String.append result (String (char_at json pos) ""))). lia.
Qed.

Lemma parse_string_ge (pos : nat) :
  (pos <= (SimpleJSON.parse_string json pos).2)%nat.
Proof.
  unfold SimpleJSON.parse_string.
  pose proof (consume_ge pos) as Hc.
  destruct (SimpleJSON.consume json pos) as [c pos1]. simpl in Hc.
  destruct (negb _); simpl; [lia|].
  pose proof (parse_string_loop_ge (String.length json - pos1) pos1 "") as Hl.
  destruct (SimpleJSON.parse_string_loop _ json pos1 "") as [r pos2].
  simpl in *. destruct (_ <? _)%nat; lia.
Qed.

Lemma parse_number_loop_ge (fuel pos : nat) :
  (pos <= SimpleJSON.parse_number_loop fuel json pos)%nat.
Proof.
  revert pos. induction fuel as [|fuel IH]; intros pos; simpl; [lia|].
  destruct (_ && _); [|lia]. specialize (IH (S pos)). lia.
Qed.

Lemma parse_number_ge `{StdStod} (pos : nat) :
  (pos <= (SimpleJSON.parse_number json pos).2)%nat.
Proof.
  unfold SimpleJSON.parse_number. simpl.
  destruct (Ascii.eqb _ _).
  - pose proof (parse_number_loop_ge (String.length json - S pos) (S pos)). lia.
  - apply parse_number_loop_ge.
Qed.

(** With the fuel they are given, the loops of [parse_string] and of
    [parse_number] end by their conditions. *)
Lemma parse_string_loop_end (fuel pos : nat) (result : string) :
  (String.length json - pos <= fuel)%nat →
  let pos' := (SimpleJSON.parse_string_loop fuel json pos result).2 in
  (String.length json <= pos')%nat ∨ char_at json pos' = quote_char.
Proof.
  revert pos result. induction fuel as [|fuel IH]; intros pos result Hf;
    cbn [SimpleJSON.parse_string_loop].
  - left. simpl. lia.
  - destruct (pos <? String.length json)%nat eqn:Hlt; cbn [andb].
    2:{ left. apply Nat.ltb_ge in Hlt. simpl. lia. }
    destruct (Ascii.eqb_spec (char_at json pos) quote_char) as [Hq|Hq];
      cbn [negb]; [now right|].
    destruct (_ && _); apply IH; lia.
Qed.

Lemma parse_number_loop_end (fuel pos : nat) :
  (String.length json - pos <= fuel)%nat →
  let pos' := SimpleJSON.parse_number_loop fuel json pos in
  (String.length json <= pos')%nat ∨
  isdigit (char_at json pos') || Ascii.eqb (char_at json pos') "." = false.
Proof.
  revert pos. induction fuel as [|fuel IH]; intros pos Hf;
    cbn [SimpleJSON.parse_number_loop].
  - left. lia.
  - destruct (pos <? String.length json)%nat eqn:Hlt; cbn [andb].
    2:{ left. apply Nat.ltb_ge in Hlt. lia. }
    destruct (isdigit (char_at json pos) || Ascii.eqb (char_at json pos) ".")
      eqn:Hd; [apply IH; lia | now right].
Qed.
End Positions.

(** ** [parse_value] and its loops *)

Section Parser.
Context `{StdStod}.
Variable json : string.


Ltac unroll E :=
  cbn [SimpleJSON.parse_value SimpleJSON.parse_members
       SimpleJSON.parse_elements negb] in E.

(** The facts about the positions of the calls in a hypothesis. *)
Ltac positions :=
  repeat match goal with
  | E : SimpleJSON.peek json ?p = (?c, ?q) |- _ =>
      lazymatch goal with
      | _ : (p <= q)%nat |- _ => fail
      | _ => pose proof (proj1 (peek_spec json p c q E))
      end
  | E : SimpleJSON.consume json ?p = (_, ?q) |- _ =>
      lazymatch goal with
      | _ : (p <= q)%nat |- _ => fail
      | _ => let Hc := fresh in
             pose proof (consume_ge json p) as Hc; rewrite E in Hc;
             cbn [snd] in Hc
      end
  | E : SimpleJSON.match_ json ?p ?c = (_, ?q) |- _ =>
      lazymatch goal with
      | _ : (p <= q)%nat |- _ => fail
      | _ => let Hc := fresh in
             pose proof (proj1 (match_spec json p c)) as Hc; rewrite E in Hc;
             cbn [snd] in Hc
      end
  | E : SimpleJSON.parse_string json ?p = (_, ?q) |- _ =>
      lazymatch goal with
      | _ : (p <= q)%nat |- _ => fail
      | _ => let Hc := fresh in
             pose proof (parse_string_ge json p) as Hc; rewrite E in Hc;
             cbn [snd] in Hc
      end
  | E : SimpleJSON.parse_number json ?p = (_, ?q) |- _ =>
      lazymatch goal with
      | _ : (p <= q)%nat |- _ => fail
      | _ => let Hc := fresh in
             pose proof (parse_number_ge json p) as Hc; rewrite E in Hc;
             cbn [snd] in Hc
      end
  end.

(** A call that returns leaves the position where it was or further on. *)
Lemma parse_ge (fuel : nat) :
  (∀ pos v pos',
     SimpleJSON.parse_value fuel json pos = SimpleJSON.Parsed v pos' →
     (pos <= pos')%nat) ∧
  (∀ pos val v pos',
     SimpleJSON.parse_members fuel json pos val = SimpleJSON.Parsed v pos' →
     (pos <= pos')%nat) ∧
  (∀ pos val v pos',
     SimpleJSON.parse_elements fuel json pos val = SimpleJSON.Parsed v pos' →
     (pos <= pos')%nat).
Proof.
  induction fuel as [|fuel (IHv & IHm & IHe)]; [by repeat split|].
  split; [|split].
  - intros pos v pos' E. unroll E.
    destruct (SimpleJSON.peek json pos) as [c pos1] eqn:Ep.
    destruct (Ascii.eqb c quote_char).
    { destruct (SimpleJSON.parse_string json pos1) as [s pos2] eqn:Es.
      unroll E; injection E as _ <-. positions. lia. }
    destruct (Ascii.eqb c "{").
    { destruct (SimpleJSON.consume json pos1) as [d pos2] eqn:Ec.
      destruct (SimpleJSON.parse_members fuel json pos2 _) as [val pos3| |] eqn:Em;
        try discriminate.
      unroll E.
      destruct (SimpleJSON.match_ json pos3 "}") as [b pos4] eqn:Eb.
      unroll E; injection E as _ <-. apply IHm in Em. positions. lia. }
    destruct (Ascii.eqb c "[").
    { destruct (SimpleJSON.consume json pos1) as [d pos2] eqn:Ec.
      destruct (SimpleJSON.parse_elements fuel json pos2 _) as [val pos3| |] eqn:Em;
        try discriminate.
      unroll E.
      destruct (SimpleJSON.match_ json pos3 "]") as [b pos4] eqn:Eb.
      unroll E; injection E as _ <-. apply IHe in Em. positions. lia. }
    destruct (_ || _).
    { unroll E; injection E as _ <-. positions. lia. }
    destruct (Ascii.eqb c "n").
    { unroll E; injection E as _ <-. positions. lia. }
    destruct (_ || _).
    { destruct (SimpleJSON.parse_number json pos1) as [[num|] pos2] eqn:En;
        [|discriminate].
      unroll E; injection E as _ <-. positions. lia. }
    unroll E; injection E as _ <-. positions. lia.
  - intros pos val v pos' E. unroll E.
    destruct (SimpleJSON.peek json pos) as [c pos1] eqn:Ep.
    destruct (Ascii.eqb c "}").
    { unroll E; injection E as _ <-. positions. lia. }
    destruct (SimpleJSON.parse_string json pos1) as [key pos2] eqn:Es.
    destruct (SimpleJSON.match_ json pos2 ":") as [colon pos3] eqn:Ec.
    destruct colon; unroll E; [|unroll E; injection E as _ <-; positions; lia].
    destruct (SimpleJSON.parse_value fuel json pos3) as [w pos4| |] eqn:Ev;
      try discriminate.
    unroll E.
    destruct (SimpleJSON.match_ json pos4 ",") as [comma pos5] eqn:Ek.
    apply IHv in Ev.
    destruct comma; unroll E; [|unroll E; injection E as _ <-; positions; lia].
    apply IHm in E. positions. lia.
  - intros pos val v pos' E. unroll E.
    destruct (SimpleJSON.peek json pos) as [c pos1] eqn:Ep.
    destruct (Ascii.eqb c "]").
    { unroll E; injection E as _ <-. positions. lia. }
    destruct (SimpleJSON.parse_value fuel json pos1) as [w pos4| |] eqn:Ev;
      try discriminate.
    unroll E.
    destruct (SimpleJSON.match_ json pos4 ",") as [comma pos5] eqn:Ek.
    apply IHv in Ev.
    destruct comma; unroll E; [|unroll E; injection E as _ <-; positions; lia].
    apply IHe in E. positions. lia.
Qed.

(** A [match] that answers true has taken a character of the text. *)
Lemma match_taken (pos : nat) (c : ascii) (pos' : nat) :
  SimpleJSON.match_ json pos c = (true, pos') → c ≠ nul_char →
  (pos < pos' <= String.length json)%nat.
Proof.
  intros E Hc. pose proof (proj2 (match_spec json pos c)) as Hm.
  rewrite E in Hm. now apply Hm.
Qed.

(** A [consume] after a [peek] that saw a character takes it. *)
Lemma peek_consume (pos : nat) (c : ascii) (pos' : nat) :
  SimpleJSON.peek json pos = (c, pos') → c ≠ nul_char →
  (pos <= pos' < String.length json)%nat ∧
  SimpleJSON.consume json pos' = (c, S pos').
Proof.
  intros E Hc. apply peek_spec in E as (Hge & _ & Hin).
  destruct (Hin Hc) as (Hlt & _ & Ec). split; [lia | exact Ec].
Qed.

(** With more than two units of fuel for every character left, the fuel
    suffices. *)
Lemma parse_fuel (fuel : nat) :
  (∀ pos, (2 * (String.length json - pos) < fuel)%nat →
     SimpleJSON.parse_value fuel json pos ≠ SimpleJSON.OutOfFuel) ∧
  (∀ pos val, (2 * (String.length json - pos) + 1 < fuel)%nat →
     SimpleJSON.parse_members fuel json pos val ≠ SimpleJSON.OutOfFuel) ∧
  (∀ pos val, (2 * (String.length json - pos) + 1 < fuel)%nat →
     SimpleJSON.parse_elements fuel json pos val ≠ SimpleJSON.OutOfFuel).
Proof.
  induction fuel as [|fuel (IHv & IHm & IHe)];
    [repeat split; intros; lia|].
  split; [|split].
  - intros pos Hf.
    cbn [SimpleJSON.parse_value].
    destruct (SimpleJSON.peek json pos) as [c pos1] eqn:Ep.
    destruct (Ascii.eqb c quote_char).
    { now destruct (SimpleJSON.parse_string json pos1). }
    destruct (Ascii.eqb_spec c "{") as [->|_].
    { destruct (peek_consume _ _ _ Ep) as (Hp & ->); [done|].
      specialize (IHm (S pos1) (SimpleJSON.mkValue SimpleJSON.OBJECT false 0 "" [] ∅)).
      destruct (SimpleJSON.parse_members fuel json (S pos1) _); [|done|].
      - now destruct (SimpleJSON.match_ json pos0 "}").
      - exfalso. apply IHm; [lia | reflexivity]. }
    destruct (Ascii.eqb_spec c "[") as [->|_].
    { destruct (peek_consume _ _ _ Ep) as (Hp & ->); [done|].
      specialize (IHe (S pos1) (SimpleJSON.mkValue SimpleJSON.ARRAY false 0 "" [] ∅)).
      destruct (SimpleJSON.parse_elements fuel json (S pos1) _); [|done|].
      - now destruct (SimpleJSON.match_ json pos0 "]").
      - exfalso. apply IHe; [lia | reflexivity]. }
    destruct (_ || _); [done|].
    destruct (Ascii.eqb c "n"); [done|].
    destruct (_ || _); [|done].
    now destruct (SimpleJSON.parse_number json pos1) as [[num|] pos2].
  - intros pos val Hf.
    cbn [SimpleJSON.parse_members].
    destruct (SimpleJSON.peek json pos) as [c pos1] eqn:Ep.
    destruct (Ascii.eqb c "}"); [done|].
    destruct (SimpleJSON.parse_string json pos1) as [key pos2] eqn:Es.
    destruct (SimpleJSON.match_ json pos2 ":") as [[|] pos3] eqn:Ec;
      cbn [negb]; [|done].
    apply match_taken in Ec; [|done]. positions.
    specialize (IHv pos3).
    destruct (SimpleJSON.parse_value fuel json pos3) as [w pos4| |] eqn:Ev;
      [|done|exfalso; apply IHv; [lia | reflexivity]].
    apply (proj1 (parse_ge fuel)) in Ev.
    destruct (SimpleJSON.match_ json pos4 ",") as [[|] pos5] eqn:Ek;
      cbn [negb]; [|done].
    apply match_taken in Ek; [|done].
    apply IHm. lia.
  - intros pos val Hf.
    cbn [SimpleJSON.parse_elements].
    destruct (SimpleJSON.peek json pos) as [c pos1] eqn:Ep.
    destruct (Ascii.eqb_spec c "]") as [|Hc]; [done|].
    positions. specialize (IHv pos1).
    destruct (SimpleJSON.parse_value fuel json pos1) as [w pos4| |] eqn:Ev;
      [|done|exfalso; apply IHv; [lia | reflexivity]].
    apply (proj1 (parse_ge fuel)) in Ev.
    destruct (SimpleJSON.match_ json pos4 ",") as [[|] pos5] eqn:Ek;
      cbn [negb]; [|done].
    apply match_taken in Ek; [|done].
    apply IHe. lia.
Qed.

(** More fuel changes nothing once the fuel suffices. *)
Lemma parse_more_fuel (fuel : nat) :
  ∀ fuel', (fuel <= fuel')%nat →
  (∀ pos, SimpleJSON.parse_value fuel json pos ≠ SimpleJSON.OutOfFuel →
     SimpleJSON.parse_value fuel' json pos =
     SimpleJSON.parse_value fuel json pos) ∧
  (∀ pos val,
     SimpleJSON.parse_members fuel json pos val ≠ SimpleJSON.OutOfFuel →
     SimpleJSON.parse_members fuel' json pos val =
     SimpleJSON.parse_members fuel json pos val) ∧
  (∀ pos val,
     SimpleJSON.parse_elements fuel json pos val ≠ SimpleJSON.OutOfFuel →
     SimpleJSON.parse_elements fuel' json pos val =
     SimpleJSON.parse_elements fuel json pos val).
Proof.
  induction fuel as [|fuel IH]; intros fuel' Hle; [by repeat split|].
  destruct fuel' as [|fuel']; [lia|].
  destruct (IH fuel') as (IHv & IHm & IHe); [lia|]. clear IH.
  split; [|split].
  - intros pos.
    cbn [SimpleJSON.parse_value].
    destruct (SimpleJSON.peek json pos) as [c pos1].
    destruct (Ascii.eqb c quote_char); [done|].
    destruct (Ascii.eqb c "{").
    { destruct (SimpleJSON.consume json pos1) as [d pos2].
      specialize (IHm pos2 (SimpleJSON.mkValue SimpleJSON.OBJECT false 0 "" [] ∅)).
      destruct (SimpleJSON.parse_members fuel json pos2 _);
        intros Hne; [|now rewrite IHm|done].
      now rewrite IHm. }
    destruct (Ascii.eqb c "[").
    { destruct (SimpleJSON.consume json pos1) as [d pos2].
      specialize (IHe pos2 (SimpleJSON.mkValue SimpleJSON.ARRAY false 0 "" [] ∅)).
      destruct (SimpleJSON.parse_elements fuel json pos2 _);
        intros Hne; [|now rewrite IHe|done].
      now rewrite IHe. }
    done.
  - intros pos val.
    cbn [SimpleJSON.parse_members].
    destruct (SimpleJSON.peek json pos) as [c pos1].
    destruct (Ascii.eqb c "}"); [done|].
    destruct (SimpleJSON.parse_string json pos1) as [key pos2].
    destruct (SimpleJSON.match_ json pos2 ":") as [[|] pos3];
      cbn [negb]; [|done].
    specialize (IHv pos3).
    destruct (SimpleJSON.parse_value fuel json pos3) as [w pos4| |];
      intros Hne; [|now rewrite IHv|done].
    rewrite IHv by done.
    destruct (SimpleJSON.match_ json pos4 ",") as [[|] pos5];
      cbn [negb] in *; [|done].
    now apply IHm.
  - intros pos val.
    cbn [SimpleJSON.parse_elements].
    destruct (SimpleJSON.peek json pos) as [c pos1].
    destruct (Ascii.eqb c "]"); [done|].
    specialize (IHv pos1).
    destruct (SimpleJSON.parse_value fuel json pos1) as [w pos4| |];
      intros Hne; [|now rewrite IHv|done].
    rewrite IHv by done.
    destruct (SimpleJSON.match_ json pos4 ",") as [[|] pos5];
      cbn [negb] in *; [|done].
    now apply IHe.
Qed.

(** The fuel of [parse] suffices. *)
Lemma parse_returns : SimpleJSON.parse json ≠ SimpleJSON.OutOfFuel.
Proof. apply (proj1 (parse_fuel _)). lia. Qed.

(** X17: [Parser::parse] returns a value or ends by the exception of
    [std::stod], whatever the text: the chain of calls of [parse_value]
    and its loops is never longer than twice the length of the text plus
    one, and any larger bound on it gives the same result; and the loops
    of [skip_whitespace], [parse_string] and [parse_number] end by their
    conditions within the rest of the text. *)
Theorem parse_terminates :
  SimpleJSON.parse json ≠ SimpleJSON.OutOfFuel ∧
  (∀ fuel, (2 * String.length json < fuel)%nat →
           SimpleJSON.parse_value fuel json 0 = SimpleJSON.parse json) ∧
  (∀ pos, isspace (char_at json (SimpleJSON.skip_whitespace json pos)) = false) ∧
  (∀ pos result,
     let pos' :=
       (SimpleJSON.parse_string_loop (String.length json - pos) json pos
          result).2 in
     (String.length json <= pos')%nat ∨ char_at json pos' = quote_char) ∧
  (∀ pos,
     let pos' :=
       SimpleJSON.parse_number_loop (String.length json - pos) json pos in
     (String.length json <= pos')%nat ∨
     isdigit (char_at json pos') || Ascii.eqb (char_at json pos') "." = false).
Proof.
  pose proof parse_returns as Hne.
  split; [exact Hne|]. split.
  - intros fuel Hf.
    apply (proj1 (parse_more_fuel (2 * String.length json + 1) fuel
                    ltac:(lia))).
    exact Hne.
  - split; [apply skip_whitespace_end|].
    split; [intros; now apply parse_string_loop_end|].
    intros. now apply parse_number_loop_end.
Qed.
End Parser.


(** * [escape_string] read back by [parse_string] *)

Lemma escape_loop_result (str result : string) :
  SimpleJSON.escape_loop str result =
  String.append result (SimpleJSON.escape_string str).
Proof.
  unfold SimpleJSON.escape_string. revert result.
  induction str as [|c str IH]; intros result; simpl.
  - now rewrite string_append_empty.
  - rewrite (IH (String.append "" _)), IH, append_nil.
    now rewrite string_append_assoc.
Qed.

Lemma escape_string_cons (c : ascii) (str : string) :
  SimpleJSON.escape_string (String c str) =
  String.append (SimpleJSON.escape_char c) (SimpleJSON.escape_string str).
Proof.
  unfold SimpleJSON.escape_string at 1. simpl.
  now rewrite escape_loop_result, append_nil.
Qed.

(** One turn of the loop of [parse_string] at a plain character, and at a
    backslash that another character follows. *)
Lemma parse_string_loop_plain (fuel : nat) (json : string) (pos : nat)
    (result : string) :
  (pos < String.length json)%nat →
  char_at json pos ≠ quote_char → char_at json pos ≠ backslash_char →
  SimpleJSON.parse_string_loop (S fuel) json pos result =
  SimpleJSON.parse_string_loop fuel json (S pos)
    (String.append result (String (char_at json pos) "")).
Proof.
  intros Hlt Hq Hb. cbn [SimpleJSON.parse_string_loop].
  apply Nat.ltb_lt in Hlt. rewrite Hlt.
  apply Ascii.eqb_neq in Hq, Hb. now rewrite Hq, Hb.
Qed.

Lemma parse_string_loop_escape (fuel : nat) (json : string) (pos : nat)
    (result : string) :
  (pos + 1 < String.length json)%nat →
  char_at json pos = backslash_char →
  SimpleJSON.parse_string_loop (S fuel) json pos result =
  SimpleJSON.parse_string_loop fuel json (S (S pos))
    (String.append result
       (String (if Ascii.eqb (char_at json (S pos)) "n" then newline_char
                else if Ascii.eqb (char_at json (S pos)) "r" then return_char
                else if Ascii.eqb (char_at json (S pos)) "t" then tab_char
                else char_at json (S pos)) "")).
Proof.
  intros Hlt Hb. cbn [SimpleJSON.parse_string_loop].
  assert (Hlt' : (pos <? String.length json)%nat = true)
    by (apply Nat.ltb_lt; lia).
  apply Nat.ltb_lt in Hlt. rewrite Hlt', Hlt, Hb. reflexivity.
Qed.

(** The escape of a character, by cases: two characters, a backslash and
    one that [parse_string] turns back into the character; or the
    character itself, which is neither a quote nor a backslash. *)
Lemma escape_char_cases (c : ascii) :
  (∃ x, SimpleJSON.escape_char c = String backslash_char (String x "") ∧
        (if Ascii.eqb x "n" then newline_char
         else if Ascii.eqb x "r" then return_char
         else if Ascii.eqb x "t" then tab_char
         else x) = c) ∨
  (SimpleJSON.escape_char c = String c "" ∧
   c ≠ quote_char ∧ c ≠ backslash_char).
Proof.
  unfold SimpleJSON.escape_char.
  destruct (Ascii.eqb_spec c quote_char) as [->|Hq];
    [left; now exists quote_char|].
  destruct (Ascii.eqb_spec c backslash_char) as [->|Hb];
    [left; now exists backslash_char|].
  destruct (Ascii.eqb_spec c newline_char) as [->|Hn];
    [left; now exists "n"%char|].
  destruct (Ascii.eqb_spec c return_char) as [->|Hr];
    [left; now exists "r"%char|].
  destruct (Ascii.eqb_spec c tab_char) as [->|Ht];
    [left; now exists "t"%char|].
  now right.
Qed.

(** The loop of [parse_string] over an escaped text that a quote ends. *)
Lemma parse_string_loop_escaped (str pre rest result : string) (fuel : nat) :
  (String.length (SimpleJSON.escape_string str) < fuel)%nat →
  SimpleJSON.parse_string_loop fuel
    (String.append pre
       (String.append (SimpleJSON.escape_string str) (String quote_char rest)))
    (String.length pre) result =
  (String.append result str,
   (String.length pre + String.length (SimpleJSON.escape_string str))%nat).
Proof.
  revert pre result fuel.
  induction str as [|c str IH]; intros pre result fuel Hf.
  - destruct fuel as [|fuel]; [simpl in Hf; lia|].
    change (SimpleJSON.escape_string "") with ""%string.
    rewrite append_nil. cbn [SimpleJSON.parse_string_loop].
    rewrite char_at_prefix, Ascii.eqb_refl, andb_false_r.
    rewrite string_append_empty. simpl. f_equal. lia.
  - rewrite escape_string_cons in *. rewrite string_length_append in Hf |- *.
    rewrite string_append_assoc.
    destruct (escape_char_cases c) as [(x & Ec & Hx)|(Ec & Hq & Hb)];
      rewrite Ec in *.
    + change (String.length (String backslash_char (String x ""))) with 2%nat
        in Hf.
      destruct fuel as [|fuel]; [lia|].
      rewrite !append_cons, append_nil.
      set (tail := String.append (SimpleJSON.escape_string str)
                                 (String quote_char rest)).
      assert (E2 : String.append pre (String backslash_char (String x tail)) =
                   String.append (String.append pre (String backslash_char ""))
                                 (String x tail))
        by now rewrite string_append_assoc.
      assert (E3 : String.append pre (String backslash_char (String x tail)) =
                   String.append
                     (String.append pre (String backslash_char (String x "")))
                     tail)
        by now rewrite string_append_assoc.
      assert (L2 : String.length (String.append pre (String backslash_char "")) =
                   S (String.length pre))
        by (rewrite string_length_append; simpl; lia).
      assert (L3 : String.length
                     (String.append pre (String backslash_char (String x ""))) =
                   S (S (String.length pre)))
        by (rewrite string_length_append; simpl; lia).
      assert (Hc : char_at (String.append pre
                              (String backslash_char (String x tail)))
                           (S (String.length pre)) = x)
        by (rewrite E2, <- L2; apply char_at_prefix).
      rewrite parse_string_loop_escape.
      * rewrite Hc, Hx, <- L3, E3. unfold tail.
        rewrite IH by lia.
        rewrite string_append_assoc, append_cons, append_nil.
        f_equal. rewrite L3. simpl. lia.
      * rewrite string_length_append. simpl. lia.
      * apply char_at_prefix.
    + change (String.length (String c "")) with 1%nat in Hf.
      destruct fuel as [|fuel]; [lia|].
      rewrite !append_cons, append_nil.
      set (tail := String.append (SimpleJSON.escape_string str)
                                 (String quote_char rest)).
      assert (E2 : String.append pre (String c tail) =
                   String.append (String.append pre (String c "")) tail)
        by now rewrite string_append_assoc.
      assert (L2 : String.length (String.append pre (String c "")) =
                   S (String.length pre))
        by (rewrite string_length_append; simpl; lia).
      rewrite parse_string_loop_plain.
      * rewrite char_at_prefix, <- L2, E2. unfold tail.
        rewrite IH by lia.
        rewrite string_append_assoc, append_cons, append_nil.
        f_equal. rewrite L2. simpl. lia.
      * rewrite string_length_append. simpl. lia.
      * now rewrite char_at_prefix.
      * now rewrite char_at_prefix.
Qed.

(** X16: a text that [escape_string] wrote, between two quotes, is read
    back by [parse_string] as the text it was written from, whatever
    stands before and after it; the position is then after the closing
    quote.  [parse_value] reads it as the string value of that text. *)
Theorem escape_string_round_trip `{StdStod} (str pre rest : string) (fuel : nat) :
  let json :=
    String.append pre
      (String quote_char
         (String.append (SimpleJSON.escape_string str)
                        (String quote_char rest))) in
  let pos' :=
    (String.length pre + String.length (SimpleJSON.escape_string str) + 2)%nat in
  SimpleJSON.parse_string json (String.length pre) = (str, pos') ∧
  SimpleJSON.parse_value (S fuel) json (String.length pre) =
  SimpleJSON.Parsed (SimpleJSON.mkValue SimpleJSON.STRING false 0 str [] ∅) pos'.
Proof.
  intros json pos'.
  assert (Hlen : String.length json =
                 (String.length pre +
                  String.length (SimpleJSON.escape_string str) + 2 +
                  String.length rest)%nat).
  { unfold json. rewrite string_length_append. simpl.
    rewrite string_length_append. simpl. lia. }
  assert (Hq : char_at json (String.length pre) = quote_char)
    by apply char_at_prefix.
  assert (Hskip : SimpleJSON.skip_whitespace json (String.length pre) =
                  String.length pre).
  { apply skip_whitespace_stay. now rewrite Hq. }
  assert (Hlt : (String.length pre <? String.length json)%nat = true)
    by (apply Nat.ltb_lt; lia).
  assert (Hs : SimpleJSON.parse_string json (String.length pre) = (str, pos')).
  { unfold SimpleJSON.parse_string, SimpleJSON.consume.
    rewrite Hskip, Hlt, Hq. cbn [Ascii.eqb negb].
    change (negb (Ascii.eqb quote_char quote_char)) with false. cbv iota.
    assert (E2 : json =
                 String.append (String.append pre (String quote_char ""))
                   (String.append (SimpleJSON.escape_string str)
                                  (String quote_char rest)))
      by (unfold json; now rewrite string_append_assoc).
    assert (L2 : String.length (String.append pre (String quote_char "")) =
                 S (String.length pre))
      by (rewrite string_length_append; simpl; lia).
    rewrite <- L2. rewrite E2 at 2.
    rewrite parse_string_loop_escaped by (rewrite Hlen, L2; lia).
    rewrite append_nil, L2.
    assert (Hlt' : (S (String.length pre) +
                    String.length (SimpleJSON.escape_string str) <?
                    String.length json)%nat = true)
      by (apply Nat.ltb_lt; lia).
    rewrite Hlt'. unfold pos'. f_equal. lia. }
  split; [exact Hs|].
  cbn [SimpleJSON.parse_value]. unfold SimpleJSON.peek.
  rewrite Hskip, Hlt, Hq.
  change (Ascii.eqb quote_char quote_char) with true. cbv iota.
  now rewrite Hs.
Qed.


(** * main.cpp: the map from materials to parts *)

(** ** The order of the keys *)

Lemma ascii_compare_refl (c : ascii) : Ascii.compare c c = Eq.
Proof. unfold Ascii.compare. apply N.compare_refl. Qed.

Lemma ascii_compare_lt_trans (a b c : ascii) :
  Ascii.compare a b = Lt → Ascii.compare b c = Lt → Ascii.compare a c = Lt.
Proof.
  unfold Ascii.compare. rewrite !N.compare_lt_iff. apply N.lt_trans.
Qed.

Lemma string_compare_refl (s : string) : String.compare s s = Eq.
Proof.
  induction s as [|c s IH]; simpl; [reflexivity|].
  now rewrite ascii_compare_refl.
Qed.

Lemma string_compare_lt_trans (s1 s2 s3 : string) :
  String.compare s1 s2 = Lt → String.compare s2 s3 = Lt →
  String.compare s1 s3 = Lt.
Proof.
  revert s2 s3. induction s1 as [|c1 s1 IH]; intros [|c2 s2] [|c3 s3];
    simpl; try done.
  destruct (Ascii.compare c1 c2) eqn:E12; try done;
    destruct (Ascii.compare c2 c3) eqn:E23; try done.
  - apply Ascii.compare_eq_iff in E12, E23. subst.
    rewrite ascii_compare_refl. apply IH.
  - apply Ascii.compare_eq_iff in E12. subst. now rewrite E23.
  - apply Ascii.compare_eq_iff in E23. subst. now rewrite E12.
  - now rewrite (ascii_compare_lt_trans _ _ _ E12 E23).
Qed.

Lemma string_lt_irrefl (s : string) : ¬ string_lt s s.
Proof. unfold string_lt, String.ltb. now rewrite string_compare_refl. Qed.

Lemma string_lt_trans (s1 s2 s3 : string) :
  string_lt s1 s2 → string_lt s2 s3 → string_lt s1 s3.
Proof.
  unfold string_lt, String.ltb. intros H1 H2.
  destruct (String.compare s1 s2) eqn:E1; try done.
  destruct (String.compare s2 s3) eqn:E2; try done.
  now rewrite (string_compare_lt_trans _ _ _ E1 E2).
Qed.

(** Two keys are in order one way or the other, or equal. *)
Lemma string_lt_total (s1 s2 : string) :
  String.ltb s1 s2 = false → String.eqb s1 s2 = false → string_lt s2 s1.
Proof.
  unfold string_lt, String.ltb. intros H1 H2.
  rewrite String.compare_antisym.
  destruct (String.compare s1 s2) eqn:E; try done.
  apply String.compare_eq_iff in E. subst. now rewrite String.eqb_refl in H2.
Qed.

(** ** [map_push_back] *)

Section MapPushBack.
Context {A : Type}.
Implicit Types (m : list (string * list A)) (key : string) (a : A).

(** The keys after the call: the key is among them, the others are as
    before. *)
Lemma map_push_back_keys key a m k :
  k ∈ (map_push_back key a m).*1 ↔ k = key ∨ k ∈ m.*1.
Proof.
  induction m as [|[k0 v0] m IH]; simpl.
  - rewrite list_elem_of_singleton, elem_of_nil. tauto.
  - destruct (String.ltb key k0); csimpl; [now rewrite !elem_of_cons|].
    destruct (String.eqb_spec key k0) as [->|Hne]; csimpl.
    + rewrite !elem_of_cons. tauto.
    + rewrite !elem_of_cons, IH. tauto.
Qed.

(** The keys stay in ascending order. *)
Lemma map_push_back_sorted key a m :
  StronglySorted string_lt m.*1 →
  StronglySorted string_lt (map_push_back key a m).*1.
Proof.
  induction m as [|[k0 v0] m IH]; simpl; intros Hs.
  - repeat constructor.
  - apply StronglySorted_inv in Hs as [Hs Hall].
    destruct (String.ltb key k0) eqn:Hlt.
    + simpl. constructor; [now constructor|].
      constructor; [exact Hlt|].
      eapply Forall_impl; [exact Hall|]. intros k. now apply string_lt_trans.
    + destruct (String.eqb_spec key k0) as [->|Hne]; simpl.
      * now constructor.
      * constructor; [now apply IH|].
        apply Forall_forall. intros k Hk.
        apply map_push_back_keys in Hk as [->|Hk].
        -- apply string_lt_total; [exact Hlt|]. now apply String.eqb_neq.
        -- rewrite Forall_forall in Hall. now apply Hall.
Qed.

(** The entries after the call, with the keys in ascending order before:
    the entry of the key has [a] at its end, the others are as before. *)
Lemma map_push_back_entries key a m k v :
  StronglySorted string_lt m.*1 →
  (k, v) ∈ map_push_back key a m ↔
  (k ≠ key ∧ (k, v) ∈ m) ∨
  (k = key ∧ ((∃ v0, (key, v0) ∈ m ∧ v = v0 ++ [a]) ∨
              ((key ∉ m.*1) ∧ v = [a]))).
Proof.
  induction m as [|[k0 v0] m IH]; simpl; intros Hs.
  - rewrite list_elem_of_singleton. split.
    + intros [= -> ->]. right. split; [done|]. right. split; [|done].
      apply not_elem_of_nil.
    + intros [[_ Hin]|[-> [(v0 & Hin & _)|[_ ->]]]]; try done;
        now apply elem_of_nil in Hin.
  - apply StronglySorted_inv in Hs as [Hs Hall].
    rewrite Forall_forall in Hall.
    assert (Hk0 : k0 ∉ m.*1).
    { intros Hin. apply Hall in Hin. now apply string_lt_irrefl in Hin. }
    destruct (String.ltb key k0) eqn:Hlt.
    + assert (Hkey : key ∉ k0 :: m.*1).
      { rewrite not_elem_of_cons. split.
        - intros ->. now apply (string_lt_irrefl k0).
        - intros Hin. apply Hall in Hin.
          apply (string_lt_irrefl key). now apply (string_lt_trans _ k0). }
      rewrite elem_of_cons. split.
      * intros [[= -> ->]|Hin].
        -- right. split; [done|]. now right.
        -- left. split; [|exact Hin]. intros ->. apply Hkey.
           change (key ∈ ((k0, v0) :: m).*1).
           apply list_elem_of_fmap. now exists (key, v).
      * intros [[_ Hin]|[-> [(v1 & Hin & _)|[_ ->]]]].
        -- now right.
        -- exfalso. apply Hkey. change (key ∈ ((k0, v0) :: m).*1).
           apply list_elem_of_fmap. now exists (key, v1).
        -- now left.
    + destruct (String.eqb_spec key k0) as [->|Hne].
      * rewrite !elem_of_cons. split.
        -- intros [[= -> ->]|Hin].
           ++ right. split; [done|]. left. exists v0. split; [|done].
              now left.
           ++ left. split; [|now right]. intros ->. apply Hk0.
              apply list_elem_of_fmap. now exists (k0, v).
        -- intros [[Hne [[= -> ->]|Hin]]|[-> [(v1 & Hin & ->)|[Hnot _]]]];
             try done.
           ++ now right.
           ++ left. apply elem_of_cons in Hin as [[= ->]|Hin]; [done|].
              exfalso. apply Hk0. apply list_elem_of_fmap. now exists (k0, v1).
           ++ exfalso. apply Hnot. now left.
      * rewrite !elem_of_cons, (IH Hs). split.
        -- intros [[= -> ->]|[[Hn Hin]|[-> [(v1 & Hin & ->)|[Hnot ->]]]]].
           ++ left. split; [done|]. now left.
           ++ left. split; [done|]. now right.
           ++ right. split; [done|]. left. exists v1. split; [now right|done].
           ++ right. split; [done|]. right. split; [|done].
              intros [|]; done.
        -- intros [[Hn [[= -> ->]|Hin]]|[-> [(v1 & Hin & ->)|[Hnot ->]]]].
           ++ now left.
           ++ right. left. done.
           ++ right. right. split; [done|]. left. exists v1. split; [|done].
              apply elem_of_cons in Hin as [[= -> ->]|Hin]; done.
           ++ right. right. split; [done|]. right. split; [|done].
              tauto.
Qed.

(** Nothing is lost and nothing doubled. *)
Lemma map_push_back_concat key a m :
  Permutation (concat (map_push_back key a m).*2) (concat m.*2 ++ [a]).
Proof.
  induction m as [|[k0 v0] m IH]; simpl; [done|].
  destruct (String.ltb key k0); simpl.
  - rewrite (Permutation_app_comm _ [a]). done.
  - destruct (String.eqb key k0); simpl.
    + rewrite <- !app_assoc. apply Permutation_app_head.
      apply Permutation_app_comm.
    + now rewrite IH, app_assoc.
Qed.
End MapPushBack.


(** * main.cpp: from the parsed input to the boards *)

(** ** The arrays of the input *)

(** The loop [for (i = 0; i < a.size(); i++) ... a[i]] over an array value
    meets the elements of the array in their order. *)
Lemma lookup_all {A : Type} (d : A) (l : list A) :
  (λ i, match l !! i with Some a => a | None => d end) <$> seq 0 (length l) = l.
Proof.
  induction l as [|a l IH]; [reflexivity|].
  cbn [length seq fmap list_fmap]. change (list_fmap _ _ ?f ?l) with (f <$> l).
  rewrite <- fmap_S_seq, <- list_fmap_compose. f_equal. exact IH.
Qed.

Lemma array_elements (a : SimpleJSON.Value) :
  SimpleJSON.is_array a = true →
  SimpleJSON.at_index a <$> seq 0 (SimpleJSON.size a) = SimpleJSON.array_val a.
Proof.
  intros Ha. unfold SimpleJSON.size. rewrite Ha. apply lookup_all.
Qed.

(** ** The boards of the input *)

(** [board_sizes] after the entries of a list: the last entry of a
    material counts. *)
Lemma insert_all_lookup (entries : list (string * (Q * Q)))
    (sizes : gmap string (Q * Q)) (material : string) :
  foldl (λ m e, <[e.1 := e.2]> m) sizes entries !! material =
  match last (filter (λ e, e.1 = material) entries) with
  | Some e => Some e.2
  | None => sizes !! material
  end.
Proof.
  revert sizes. induction entries as [|e entries IH] using rev_ind; intros sizes.
  - reflexivity.
  - rewrite foldl_app, filter_app. cbn [foldl].
    rewrite filter_cons, filter_nil.
    destruct (decide (e.1 = material)) as [<-|Hne].
    + now rewrite lookup_insert_eq, last_snoc.
    + rewrite lookup_insert_ne by done. now rewrite app_nil_r, IH.
Qed.

Lemma read_boards_entries (root : SimpleJSON.Value) :
  Main.read_boards root =
  foldl (λ m e, <[e.1 := e.2]> m) ∅ (input_boards root).
Proof.
  unfold Main.read_boards, input_boards.
  destruct (SimpleJSON.is_array (SimpleJSON.at_key root "boards")) eqn:Ha;
    [|reflexivity].
  rewrite <- (array_elements _ Ha), <- list_fmap_compose, foldl_fmap.
  reflexivity.
Qed.

(** X18: the boards of a material have the dimensions of the last entry of
    that material in the array [boards] of the input, and 2440 x 1220 when
    the array has no entry of the material (or the input no such array). *)
Theorem board_size_last (root : SimpleJSON.Value) (material : string) :
  Main.board_size (Main.read_boards root) material =
  match last (filter (λ e, e.1 = material) (input_boards root)) with
  | Some e => e.2
  | None => (2440, 1220)
  end.
Proof.
  unfold Main.board_size.
  rewrite read_boards_entries, insert_all_lookup.
  now destruct (last _).
Qed.

(** ** The parts of the input *)

Lemma read_parts_input (settings : Settings) (root : SimpleJSON.Value) :
  Main.read_parts settings root =
  foldl (λ m p, map_push_back (Part.material p) p m) []
        (input_parts settings root).
Proof.
  unfold Main.read_parts, input_parts.
  destruct (SimpleJSON.is_array _); [|reflexivity].
  now rewrite foldl_fmap.
Qed.

(** The map after the parts of a list. *)
Lemma group_parts (parts : list Part.t) :
  let groups := foldl (λ m p, map_push_back (Part.material p) p m) [] parts in
  StronglySorted string_lt groups.*1 ∧
  (∀ material group,
     (material, group) ∈ groups ↔
     group ≠ [] ∧ group = filter (λ p, Part.material p = material) parts) ∧
  Permutation (concat groups.*2) parts.
Proof.
  induction parts as [|p parts IH] using rev_ind; cbv zeta.
  - split; [constructor|]. split; [|done].
    intros material group. rewrite elem_of_nil. split; [done|].
    now intros [Hne ->].
  - rewrite foldl_app. cbn [foldl].
    set (groups := foldl _ [] parts) in *. cbv zeta in IH.
    destruct IH as (Hs & Hin & Hp).
    split; [now apply map_push_back_sorted|]. split.
    + intros material group.
      rewrite (map_push_back_entries _ _ _ _ _ Hs), filter_app, filter_cons,
        filter_nil.
      assert (Hkey : Part.material p ∈ groups.*1 ↔
                     filter (λ q, Part.material q = Part.material p) parts ≠ []).
      { split.
        - intros ([k v] & -> & Hkv)%list_elem_of_fmap. simpl.
          apply Hin in Hkv as [Hne <-]. exact Hne.
        - intros Hne. apply list_elem_of_fmap.
          exists (Part.material p, filter (λ q, Part.material q = Part.material p) parts).
          split; [done|]. now apply Hin. }
      destruct (decide (Part.material p = material)) as [<-|Hne].
      * split.
        -- intros [[Hn _]|[_ [(v0 & Hv0 & ->)|[Hnot ->]]]]; [done| |].
           ++ apply Hin in Hv0 as [_ <-]. split; [|done].
              intros E. now apply app_eq_nil in E as [_ [=]].
           ++ split; [done|].
              destruct (filter _ parts) eqn:E; [done|].
              exfalso. apply Hnot, Hkey. done.
        -- intros [_ ->]. right. split; [done|].
           destruct (decide (filter (λ q, Part.material q = Part.material p) parts = []))
             as [E|E].
           ++ right. split; [|now rewrite E]. rewrite Hkey. tauto.
           ++ left. eexists. split; [|reflexivity]. now apply Hin.
      * rewrite app_nil_r, Hin. split.
        -- intros [[_ H]|[-> _]]; done.
        -- intros H. left. split; [congruence | exact H].
    + now rewrite map_push_back_concat, Hp.
Qed.

(** The map that [main] builds from the parts of the input. *)
Lemma read_parts_grouped (settings : Settings) (root : SimpleJSON.Value) :
  StronglySorted string_lt (Main.read_parts settings root).*1 ∧
  (∀ material group,
     (material, group) ∈ Main.read_parts settings root ↔
     group ≠ [] ∧
     group = filter (λ p, Part.material p = material)
                    (input_parts settings root)) ∧
  Permutation (concat (Main.read_parts settings root).*2)
              (input_parts settings root).
Proof.
  rewrite read_parts_input. apply group_parts.
Qed.

(** X19: [main] sorts every part of the input into the entry of its
    material.  The materials of the map are in ascending order, each once;
    an entry holds exactly the parts of its material, in the order of the
    input, and is not empty; over all entries, the parts are those of the
    input. *)
Theorem read_parts_groups (settings : Settings) (root : SimpleJSON.Value) :
  let groups := Main.read_parts settings root in
  let parts := input_parts settings root in
  StronglySorted string_lt groups.*1 ∧
  (∀ material group,
     (material, group) ∈ groups ↔
     group ≠ [] ∧ group = filter (λ p, Part.material p = material) parts) ∧
  Permutation (concat groups.*2) parts.
Proof.
  cbv zeta. apply read_parts_grouped.
Qed.



(** ** One call of [nest_parts], for [main] *)

Section OneCall.
Context `{StdSort}.
Variables (self : Nester.t) (material : string) (board_width board_height : Q).

Lemma nest_parts_facts (parts : list Part.t) :
  ∃ r,
    Nester.nest_parts self parts material board_width board_height = Some r ∧
    Board.id <$> Nester.res_boards r =
    Z.of_nat <$> seq 1 (length (Nester.res_boards r)) ∧
    Forall (λ b, Board.material b = material ∧
                 Board.width b = board_width ∧ Board.height b = board_height)
           (Nester.res_boards r) ∧
    Forall (placed_well (Nester.res_parts r)) (Nester.res_boards r) ∧
    frame <$> Nester.res_parts r = frame <$> std_sort Nester.area_greater parts ∧
    Forall (λ ptr, ∃ p, std_sort Nester.area_greater parts !! ptr = Some p ∧
                        part_fits (kerf_width (Nester.settings_ self))
                          board_width board_height p)
           (placed_all (Nester.res_boards r)) ∧
    ((Nester.res_cerr r = [] ∧
      Permutation (placed_all (Nester.res_boards r)) (seq 0 (length parts))) ∨
     (∃ part,
        part ∈ parts ∧ Nester.res_cerr r ≠ [] ∧
        ¬ part_fits (kerf_width (Nester.settings_ self))
            board_width board_height part)).
Proof.
  destruct (nest_parts_book self material board_width board_height parts)
    as (st0 & r & E & Hb & Hlen & Eb & Ep & _ & _). cbv zeta in *.
  destruct (nest_parts_end self material board_width board_height parts)
    as (r' & E' & Hfit & Hend).
  rewrite E in E'. injection E' as <-.
  destruct (nest_parts_run self material board_width board_height parts)
    as (st & Hrun & _ & E''). cbv zeta in *.
  apply nest_loop_frames in Hrun. cbn [Nester.parts] in Hrun.
  rewrite E in E''. injection E'' as E''.
  destruct Hb as (_ & _ & _ & Hwell & _ & _ & Hids & Hfields & _).
  exists r. split; [exact E|].
  rewrite Eb, Ep. split; [exact Hids|]. split; [exact Hfields|].
  split; [exact Hwell|]. split.
  { rewrite <- Ep, E''. exact Hrun. }
  rewrite <- Eb. split; [exact Hfit|].
  destruct Hend as [Hok | (part & Hin & Ec & Hnf)]; [now left|].
  right. exists part. split; [exact Hin|]. split; [now rewrite Ec | exact Hnf].
Qed.
End OneCall.

(** ** The loop over the materials *)

Section Materials.
Context `{StdSort}.
Variables (nester : Nester.t) (board_sizes : gmap string (Q * Q)).

(** Every call returns, so the loop comes to its end; its results are
    those of the calls, entry by entry. *)
Lemma nest_materials_calls (groups : list (string * list Part.t)) :
  ∃ results,
    Main.nest_materials nester board_sizes groups = Some results ∧
    Forall2 (λ group entry,
               entry.1 = group.1 ∧
               Nester.nest_parts nester group.2 group.1
                 (Main.board_size board_sizes group.1).1
                 (Main.board_size board_sizes group.1).2 = Some entry.2)
            groups results.
Proof.
  induction groups as [|[material parts] groups (results & E & Hall)].
  - exists []. split; [reflexivity | constructor].
  - destruct (nest_parts_run nester material
                (Main.board_size board_sizes material).1
                (Main.board_size board_sizes material).2 parts)
      as (st & _ & _ & Er). cbv zeta in Er.
    eexists. cbn [Main.nest_materials]. rewrite Er, E.
    split; [reflexivity|]. constructor; [|exact Hall]. now split.
Qed.
End Materials.

(** [main] after the parse: the root is no object, or the loop over the
    materials comes to its end. *)
Lemma nest_root_cases `{StdSort} (root : SimpleJSON.Value) :
  (SimpleJSON.is_object root = false ∧
   Main.nest_root root = Some Main.InvalidJSON) ∨
  (SimpleJSON.is_object root = true ∧
   ∃ results,
     Main.nest_root root =
     Some (Main.Nested (Main.read_settings root) (Main.read_boards root)
             results) ∧
     Forall2 (λ group entry,
                entry.1 = group.1 ∧
                Nester.nest_parts (Nester.mk (Main.read_settings root))
                  group.2 group.1
                  (Main.board_size (Main.read_boards root) group.1).1
                  (Main.board_size (Main.read_boards root) group.1).2 =
                Some entry.2)
             (Main.read_parts (Main.read_settings root) root) results).
Proof.
  unfold Main.nest_root.
  destruct (SimpleJSON.is_object root); [right | now left].
  split; [reflexivity|]. cbn [negb].
  destruct (nest_materials_calls (Nester.mk (Main.read_settings root))
              (Main.read_boards root)
              (Main.read_parts (Main.read_settings root) root))
    as (results & E & Hall).
  exists results. now rewrite E.
Qed.

(** X20: [main] comes to an end on every input text: with the exception
    of [std::stod], with the error of a root that is no object, or with
    boards.  The boards then come material by material, the materials in
    ascending order; the boards of every material are numbered from 1 and
    have the material and the dimensions that [main] found for it.  (So a
    board id names a board only together with the material.) *)
Theorem run_boards `{StdSort} `{StdStod} (json_str : string) :
  ∃ out,
    Main.run json_str = Some out ∧
    ∀ settings board_sizes results,
      out = Main.Nested settings board_sizes results →
      StronglySorted string_lt results.*1 ∧
      Forall (λ entry,
                Board.id <$> Nester.res_boards entry.2 =
                Z.of_nat <$> seq 1 (length (Nester.res_boards entry.2)) ∧
                Forall (λ b, Board.material b = entry.1 ∧
                             (Board.width b, Board.height b) =
                             Main.board_size board_sizes entry.1)
                       (Nester.res_boards entry.2))
             results.
Proof.
  unfold Main.run.
  pose proof (parse_returns json_str) as Hne.
  destruct (SimpleJSON.parse json_str) as [root pos| |]; [| |done].
  2:{ eexists. split; [reflexivity|]. intros ? ? ? [=]. }
  destruct (nest_root_cases root) as [[_ E] | [_ (results & E & Hall)]].
  { eexists. split; [exact E|]. intros ? ? ? [=]. }
  eexists. split; [exact E|]. intros ? ? ? [= <- <- <-]. split.
  - destruct (read_parts_grouped (Main.read_settings root) root) as (Hs & _).
    cbv zeta in Hs.
    assert (Hk : results.*1 = (Main.read_parts (Main.read_settings root) root).*1).
    { clear Hs E. induction Hall as [|g e gs es [He _] _ IH]; [reflexivity|].
      csimpl. now rewrite He, IH. }
    now rewrite Hk.
  - clear E. induction Hall as [|g e gs es [He Hr] _ IH]; constructor; [|exact IH].
    destruct (nest_parts_facts (Nester.mk (Main.read_settings root)) g.1
                (Main.board_size (Main.read_boards root) g.1).1
                (Main.board_size (Main.read_boards root) g.1).2 g.2)
      as (r & Er & Hids & Hfields & _).
    rewrite Hr in Er. injection Er as <-. split; [exact Hids|].
    eapply Forall_impl; [exact Hfields|]. intros b (Hm & Hw & Hh). cbv beta.
    rewrite He, Hm, Hw, Hh. split; [reflexivity|].
    now destruct (Main.board_size _ _).
Qed.

(** ** The placements that [main] writes *)





(** ** Nothing is lost *)



Section Complete.
Context `{StdSort}.
Variables (settings : Settings) (board_sizes : gmap string (Q * Q)).

End Complete.



(** ** The one check of the input *)

Section FirstCharacter.
Context `{StdStod}.
Variable json : string.

(** The loops of [parse_value] leave the type of the value they fill. *)
Lemma parse_loops_type (fuel : nat) :
  (∀ pos val v pos',
     SimpleJSON.parse_members fuel json pos val = SimpleJSON.Parsed v pos' →
     SimpleJSON.type v = SimpleJSON.type val) ∧
  (∀ pos val v pos',
     SimpleJSON.parse_elements fuel json pos val = SimpleJSON.Parsed v pos' →
     SimpleJSON.type v = SimpleJSON.type val).
Proof.
  induction fuel as [|fuel [IHm IHe]]; [by split|].
  split.
  - intros pos val v pos'. cbn [SimpleJSON.parse_members].
    destruct (SimpleJSON.peek json pos) as [c pos1].
    destruct (Ascii.eqb c "}"); [now intros [= <- _]|].
    destruct (SimpleJSON.parse_string json pos1) as [key pos2].
    destruct (SimpleJSON.match_ json pos2 ":") as [[|] pos3]; cbn [negb];
      [|now intros [= <- _]].
    destruct (SimpleJSON.parse_value fuel json pos3) as [w pos4| |];
      [|done|done].
    destruct (SimpleJSON.match_ json pos4 ",") as [[|] pos5]; cbn [negb];
      [|now intros [= <- _]].
    intros E. now apply IHm in E.
  - intros pos val v pos'. cbn [SimpleJSON.parse_elements].
    destruct (SimpleJSON.peek json pos) as [c pos1].
    destruct (Ascii.eqb c "]"); [now intros [= <- _]|].
    destruct (SimpleJSON.parse_value fuel json pos1) as [w pos4| |];
      [|done|done].
    destruct (SimpleJSON.match_ json pos4 ",") as [[|] pos5]; cbn [negb];
      [|now intros [= <- _]].
    intros E. now apply IHe in E.
Qed.

(** The value that [parse_value] returns is an object exactly when the
    first character after the white space is an opening brace. *)
Lemma parse_value_object (fuel pos : nat) (v : SimpleJSON.Value) (pos' : nat) :
  SimpleJSON.parse_value fuel json pos = SimpleJSON.Parsed v pos' →
  (SimpleJSON.is_object v = true ↔ (SimpleJSON.peek json pos).1 = "{"%char).
Proof.
  destruct fuel as [|fuel]; [done|]. cbn [SimpleJSON.parse_value].
  destruct (SimpleJSON.peek json pos) as [c pos1]. cbn [fst].
  destruct (Ascii.eqb_spec c quote_char) as [->|_].
  { destruct (SimpleJSON.parse_string json pos1). now intros [= <- _]. }
  destruct (Ascii.eqb_spec c "{") as [->|Hne].
  { destruct (SimpleJSON.consume json pos1) as [d pos2].
    destruct (SimpleJSON.parse_members fuel json pos2 _) as [val pos3| |] eqn:E;
      [|done|done].
    apply (proj1 (parse_loops_type fuel)) in E.
    destruct (SimpleJSON.match_ json pos3 "}"). intros [= <- _].
    unfold SimpleJSON.is_object. now rewrite E. }
  assert (Hno : ∀ b, b = false → (b = true ↔ c = "{"%char))
    by (intros b ->; split; [done | intros ->; done]).
  destruct (Ascii.eqb c "[").
  { destruct (SimpleJSON.consume json pos1) as [d pos2].
    destruct (SimpleJSON.parse_elements fuel json pos2 _) as [val pos3| |] eqn:E;
      [|done|done].
    apply (proj2 (parse_loops_type fuel)) in E.
    destruct (SimpleJSON.match_ json pos3 "]"). intros [= <- _].
    apply Hno. unfold SimpleJSON.is_object. now rewrite E. }
  destruct (_ || _); [intros [= <- _]; now apply Hno|].
  destruct (Ascii.eqb c "n"); [intros [= <- _]; now apply Hno|].
  destruct (_ || _).
  { destruct (SimpleJSON.parse_number json pos1) as [[num|] pos2]; [|done].
    intros [= <- _]. now apply Hno. }
  intros [= <- _]. now apply Hno.
Qed.

(** [parse_value] ends by the exception only at a minus sign or a digit,
    or inside an object or an array. *)
Lemma parse_value_thrown (fuel pos : nat) :
  SimpleJSON.parse_value fuel json pos = SimpleJSON.Thrown →
  let c := (SimpleJSON.peek json pos).1 in
  c = "{"%char ∨ c = "["%char ∨ c = "-"%char ∨ isdigit c = true.
Proof.
  destruct fuel as [|fuel]; [done|]. cbn [SimpleJSON.parse_value].
  destruct (SimpleJSON.peek json pos) as [c pos1]. cbn [fst].
  destruct (Ascii.eqb_spec c quote_char) as [->|_].
  { now destruct (SimpleJSON.parse_string json pos1). }
  destruct (Ascii.eqb_spec c "{") as [->|_]; [now left|].
  destruct (Ascii.eqb_spec c "[") as [->|_]; [now right; left|].
  destruct (_ || _); [done|].
  destruct (Ascii.eqb c "n"); [done|].
  destruct (Ascii.eqb_spec c "-") as [->|_]; [now right; right; left|].
  cbn [orb]. destruct (isdigit c); [now right; right; right | done].
Qed.
End FirstCharacter.

(** X23: the one check that [main] makes of the input text is on its
    first character after the white space.  With an opening brace there,
    [main] never reports an invalid input, whatever follows the brace;
    with another character there, it never goes on to the nesting: it
    reports an invalid input, unless the character is a minus sign, a
    digit or an opening bracket and [std::stod] throws. *)
Theorem run_first_character `{StdSort} `{StdStod} (json_str : string) :
  let c := (SimpleJSON.peek json_str 0).1 in
  ∃ out,
    Main.run json_str = Some out ∧
    (c = "{"%char → out ≠ Main.InvalidJSON) ∧
    (c ≠ "{"%char → out = Main.InvalidJSON ∨ out = Main.Uncaught) ∧
    (c ≠ "{"%char → c ≠ "["%char → c ≠ "-"%char → isdigit c = false →
     out = Main.InvalidJSON).
Proof.
  intros c. unfold Main.run.
  pose proof (parse_returns json_str) as Hne.
  unfold SimpleJSON.parse in *.
  destruct (SimpleJSON.parse_value _ json_str 0) as [root pos| |] eqn:E;
    [| |done].
  - apply parse_value_object in E. fold c in E.
    destruct (nest_root_cases root) as [[Hno Er] | [Hobj (results & Er & _)]].
    + exists Main.InvalidJSON. split; [exact Er|].
      split; [|split]; [|now left|done].
      intros Hc. apply E in Hc. congruence.
    + eexists. split; [exact Er|].
      split; [done|]. split; intros Hc; exfalso; now apply Hc, E.
  - apply parse_value_thrown in E. fold c in E. cbv zeta in E.
    exists Main.Uncaught. split; [reflexivity|].
    split; [done|]. split; [now right|].
    intros H1 H2 H3 H4. destruct E as [E|[E|[E|E]]]; congruence.
Qed.

(** ** The layout of the boards *)

Section Layout.
Context `{StdSort}.

End Layout.




(** * What [nest_parts] reads of its settings *)

Section KerfOnly.
Context `{StdSort}.
Variables self self' : Nester.t.
Hypothesis same_kerf :
  kerf_width (Nester.settings_ self) = kerf_width (Nester.settings_ self').

Lemma try_rotations_kerf (ptr : nat) (w h : Q) (r : Z) (rotations : list Z)
    (part : Part.t) (board : Board.t) :
  Nester.try_rotations self ptr w h r rotations part board =
  Nester.try_rotations self' ptr w h r rotations part board.
Proof.
  revert part. induction rotations as [|rotation rest IH]; intros part;
    [reflexivity|].
  cbn [Nester.try_rotations]. rewrite same_kerf.
  destruct (Part.get_rotated_dimensions _ rotation) as [w' h'].
  destruct (Board.find_best_position board w' h' _) as [[x y]|];
    [reflexivity | apply IH].
Qed.

Lemma place_step_kerf (board_count : Z) (total_parts ptr : nat)
    (part : Part.t) (st : Nester.pass_state) :
  Nester.place_step self board_count total_parts ptr part st =
  Nester.place_step self' board_count total_parts ptr part st.
Proof.
  unfold Nester.place_step, Nester.try_place_part.
  now rewrite try_rotations_kerf.
Qed.

Lemma place_pass_kerf (board_count : Z) (total_parts : nat)
    (remaining : list nat) (st : Nester.pass_state) :
  Nester.place_pass self board_count total_parts remaining st =
  Nester.place_pass self' board_count total_parts remaining st.
Proof.
  revert st. induction remaining as [|ptr rest IH]; intros st; [reflexivity|].
  cbn [Nester.place_pass]. destruct (Nester.ps_parts st !! ptr); [|apply IH].
  now rewrite place_step_kerf, IH.
Qed.

Lemma nest_loop_kerf (material : string) (board_width board_height : Q)
    (total_parts fuel : nat) (st : Nester.state) :
  Nester.nest_loop self material board_width board_height total_parts fuel st =
  Nester.nest_loop self' material board_width board_height total_parts fuel st.
Proof.
  revert st. induction fuel as [|fuel IH]; intros st; [reflexivity|].
  cbn [Nester.nest_loop]. destruct (Nester.remaining_parts st); [reflexivity|].
  unfold Nester.board_pass. rewrite place_pass_kerf.
  destruct (bool_decide _); [reflexivity | apply IH].
Qed.

(** X25: of the settings of the nester, [nest_parts] reads the kerf
    alone: with the same kerf, two nesters give the same boards, parts
    and messages.  Neither [allow_rotation] nor [timeout_ms] has any
    effect on a call: a part is tried under all its allowed rotations
    whatever [allow_rotation] says, and no time limit ends the loop. *)
Theorem nest_parts_kerf_only (parts : list Part.t) (material : string)
    (board_width board_height : Q) :
  Nester.nest_parts self parts material board_width board_height =
  Nester.nest_parts self' parts material board_width board_height.
Proof.
  unfold Nester.nest_parts. now rewrite nest_loop_kerf.
Qed.
End KerfOnly.

Lemma nest_parts_kerf_only_witness :
  Nester.nest_parts (Nester.mk (mkSettings 3 true 60000))
    [Part.mk "a" "ply" 150 50 "any" [0; 90]%Z 0 0 0 (-1)] "ply" 100 200 =
  Nester.nest_parts (Nester.mk (mkSettings 3 false 0))
    [Part.mk "a" "ply" 150 50 "any" [0; 90]%Z 0 0 0 (-1)] "ply" 100 200.
Proof.
  apply nest_parts_kerf_only. reflexivity.
Defined.
